(** * Vietnam_travels: the hybrid chat pipeline

    A shallow embedding of the pure parts of [hybrid_chat_test]
    ([prompting.py], [graph.py], [embed.py], [cli.py]) and the properties the
    specification states about them.

    Python [str] values are modelled as lists of characters with code points
    below 256 ([list ascii]); the character classes below are Python's own on
    that range.  The embedding is executable: every function can be run with
    [vm_compute] on concrete inputs. *)

From Stdlib Require Import List Ascii String Bool Arith ZArith Lia.
From Stdlib Require Import Permutation Sorted DecimalString.
From Stdlib Require Finite.
Import ListNotations.

Set Implicit Arguments.

Open Scope string_scope.
Open Scope list_scope.
Open Scope nat_scope.

(** ** Python strings and their builtins *)

Module Py.

Definition str := list ascii.

(** String literals are read through this coercion. *)
Definition lit (s : string) : str := list_ascii_of_string s.

Definition code (c : ascii) : nat := nat_of_ascii c.

Definition code_in (l : list nat) (c : ascii) : bool :=
  existsb (Nat.eqb (code c)) l.

(** [str.isspace] on one character; also the class [\s] of [re]. *)
Definition is_space : ascii -> bool :=
  code_in [9; 10; 11; 12; 13; 28; 29; 30; 31; 32; 133; 160].

(** Characters at which [str.splitlines] breaks a line. *)
Definition is_linebreak : ascii -> bool :=
  code_in [10; 11; 12; 13; 28; 29; 30; 133].

(** The class [\d] of [re]. *)
Definition is_digit (c : ascii) : bool :=
  (48 <=? code c) && (code c <=? 57).

Definition is_upper_ascii (c : ascii) : bool :=
  (65 <=? code c) && (code c <=? 90).

Definition is_lower_ascii (c : ascii) : bool :=
  (97 <=? code c) && (code c <=? 122).

(** [str.lower] on one character. *)
Definition lower_char (c : ascii) : ascii :=
  let n := code c in
  if is_upper_ascii c then ascii_of_nat (n + 32)
  else if (192 <=? n) && (n <=? 222) && negb (n =? 215)
       then ascii_of_nat (n + 32)
       else c.

Definition lower (s : str) : str := map lower_char s.

Definition eqb_char (a b : ascii) : bool := Ascii.eqb a b.

Fixpoint eqb (a b : str) : bool :=
  match a, b with
  | [], [] => true
  | x :: a', y :: b' => eqb_char x y && eqb a' b'
  | _, _ => false
  end.

(** [s.startswith(p)] *)
Fixpoint startswith (p s : str) : bool :=
  match p, s with
  | [], _ => true
  | x :: p', y :: s' => eqb_char x y && startswith p' s'
  | _ :: _, [] => false
  end.

(** [sub in s] *)
Fixpoint contains (sub s : str) : bool :=
  startswith sub s ||
  match s with
  | [] => false
  | _ :: s' => contains sub s'
  end.

(** [sep.join(parts)] *)
Fixpoint join (sep : str) (parts : list str) : str :=
  match parts with
  | [] => []
  | [p] => p
  | p :: rest => p ++ sep ++ join sep rest
  end.

(** [s.splitlines()].  A carriage return directly followed by a line feed
    is one break; a final break does not open an empty last line. *)
Fixpoint splitlines (s : str) : list str :=
  match s with
  | [] => []
  | c :: s' =>
      if is_linebreak c then
        if eqb_char c "013" && startswith ["010"%char] s'
        then splitlines s'
        else [] :: splitlines s'
      else
        match splitlines s' with
        | [] => [[c]]
        | l :: ls => (c :: l) :: ls
        end
  end.

Fixpoint lstrip (s : str) : str :=
  match s with
  | [] => []
  | c :: s' => if is_space c then lstrip s' else s
  end.

Definition rstrip (s : str) : str := rev (lstrip (rev s)).

Definition strip (s : str) : str := rstrip (lstrip s).

(** [str(n)] for an [int], as the f-strings print it. *)
Definition str_of_int (n : Z) : str :=
  lit (NilZero.string_of_int (Z.to_int n)).

(** A value is falsy when it is [None] or the empty string. *)
Definition truthy (o : option str) : bool :=
  match o with
  | Some (_ :: _) => true
  | _ => false
  end.

(** [str(x)] of an optional string: [None] prints as its name. *)
Definition str_of_opt (o : option str) : str :=
  match o with
  | Some s => s
  | None => lit "None"
  end.

End Py.

Coercion Py.lit : string >-> Py.str.

(** ** The fragment of Python's [re] the program uses

    A backtracking matcher: [run r s cs] lists every way [r] matches a prefix
    of [s], in the order in which Python's engine tries them (greedy
    repetition first, left alternative first).  The first element is the match
    Python reports.  Repetition is over character classes only, which is all
    the patterns of the program need. *)

Module Re.
Import Py.

Inductive regex : Type :=
| Eps : regex
| Cls : (ascii -> bool) -> regex
| Cat : regex -> regex -> regex
| Alt : regex -> regex -> regex
| Star : (ascii -> bool) -> regex
| Grp : nat -> regex -> regex.

(** Captured groups, most recent binding first. *)
Definition caps := list (nat * str).

(** A match: the text consumed, the text left, the groups. *)
Definition result : Type := str * str * caps.

(** Every split of [s] into a run of [p]-characters and a rest, longest
    run first. *)
Fixpoint star_splits (p : ascii -> bool) (s : str) : list (str * str) :=
  match s with
  | [] => [([], [])]
  | c :: s' =>
      if p c
      then map (fun mr => (c :: fst mr, snd mr)) (star_splits p s') ++ [([], s)]
      else [([], s)]
  end.

Fixpoint run (r : regex) (s : str) (cs : caps) : list result :=
  match r with
  | Eps => [([], s, cs)]
  | Cls p =>
      match s with
      | c :: s' => if p c then [([c], s', cs)] else []
      | [] => []
      end
  | Cat a b =>
      flat_map
        (fun x : result =>
           let '(m1, s1, c1) := x in
           map (fun y : result =>
                  let '(m2, s2, c2) := y in (m1 ++ m2, s2, c2))
               (run b s1 c1))
        (run a s cs)
  | Alt a b => run a s cs ++ run b s cs
  | Star p => map (fun mr => (fst mr, snd mr, cs)) (star_splits p s)
  | Grp n a =>
      map (fun x : result =>
             let '(m, s', c) := x in (m, s', (n, m) :: c))
          (run a s cs)
  end.

(** *** Pattern syntax *)

Definition chr (c : ascii) : regex := Cls (eqb_char c).

(** One character under [re.IGNORECASE]. *)
Definition ichr (c : ascii) : regex :=
  Cls (fun d => eqb_char (lower_char d) (lower_char c)).

Fixpoint seq_of (f : ascii -> regex) (s : str) : regex :=
  match s with
  | [] => Eps
  | [c] => f c
  | c :: s' => Cat (f c) (seq_of f s')
  end.

(** A literal, case-sensitive and under [re.IGNORECASE]. *)
Definition word (s : string) : regex := seq_of chr (lit s).
Definition iword (s : string) : regex := seq_of ichr (lit s).

Definition Opt (a : regex) : regex := Alt a Eps.
Definition Plus (p : ascii -> bool) : regex := Cat (Cls p) (Star p).
(** [p{2,}] *)
Definition AtLeast2 (p : ascii -> bool) : regex := Cat (Cls p) (Plus p).

Definition none_of (c : ascii) : ascii -> bool := fun d => negb (eqb_char c d).

Fixpoint cats (rs : list regex) : regex :=
  match rs with
  | [] => Eps
  | [r] => r
  | r :: rs' => Cat r (cats rs')
  end.

(** *** Matching functions *)

(** [re.match(r, s)]: the first match at the start of [s].  A leading [^]
    in a pattern given to [re.match] without [re.MULTILINE] adds nothing
    and is not represented. *)
Definition match_ (r : regex) (s : str) : option result :=
  hd_error (run r s []).

(** [m.group(n)] *)
Fixpoint group (n : nat) (cs : caps) : option str :=
  match cs with
  | [] => None
  | (k, v) :: cs' => if Nat.eqb k n then Some v else group n cs'
  end.

(** [re.search(r, s)]: the first match at the leftmost position that has
    one. *)
Fixpoint search (r : regex) (s : str) : option result :=
  match match_ r s with
  | Some x => Some x
  | None =>
      match s with
      | [] => None
      | _ :: s' => search r s'
      end
  end.

(** [re.sub(r, repl, s)] with a callable [repl], which receives group 0
    and the captured groups.  The scan restarts after each match; an empty
    match is replaced and the scan moves one character on.  (No pattern
    of the program matches the empty string.) *)
Fixpoint sub_from (fuel : nat) (r : regex) (repl : str -> caps -> str)
         (s : str) : str :=
  match fuel with
  | O => s
  | S fuel' =>
      match match_ r s with
      | Some (c :: m, rest, cs) =>
          repl (c :: m) cs ++ sub_from fuel' r repl rest
      | Some ([], _, cs) =>
          repl [] cs ++
          match s with
          | [] => []
          | c :: s' => c :: sub_from fuel' r repl s'
          end
      | None =>
          match s with
          | [] => []
          | c :: s' => c :: sub_from fuel' r repl s'
          end
      end
  end.

Definition sub (r : regex) (repl : str -> caps -> str) (s : str) : str :=
  sub_from (S (List.length s)) r repl s.

(** [re.sub(r, t, s)] with a replacement string free of group
    references. *)
Definition sub_const (r : regex) (t : str) (s : str) : str :=
  sub r (fun _ _ => t) s.

End Re.

(** ** [hashlib.sha256]

    SHA-256 as FIPS 180-4 defines it, on 32-bit words held in [Z] with the
    wrap-around written out. *)

Module Sha256.
Import Py.
Local Open Scope Z_scope.

Definition wrap (x : Z) : Z := x mod 2 ^ 32.
Definition add32 (x y : Z) : Z := wrap (x + y).
Definition rotr (n x : Z) : Z :=
  Z.lor (Z.shiftr x n) (wrap (Z.shiftl x (32 - n))).
Definition not32 (x : Z) : Z := 2 ^ 32 - 1 - x.

Definition ch (x y z : Z) : Z := Z.lxor (Z.land x y) (Z.land (not32 x) z).
Definition maj (x y z : Z) : Z :=
  Z.lxor (Z.lxor (Z.land x y) (Z.land x z)) (Z.land y z).
Definition bsig0 (x : Z) : Z :=
  Z.lxor (Z.lxor (rotr 2 x) (rotr 13 x)) (rotr 22 x).
Definition bsig1 (x : Z) : Z :=
  Z.lxor (Z.lxor (rotr 6 x) (rotr 11 x)) (rotr 25 x).
Definition ssig0 (x : Z) : Z :=
  Z.lxor (Z.lxor (rotr 7 x) (rotr 18 x)) (Z.shiftr x 3).
Definition ssig1 (x : Z) : Z :=
  Z.lxor (Z.lxor (rotr 17 x) (rotr 19 x)) (Z.shiftr x 10).

(** The integer part of a root, found bit by bit from the top:
    [root k bits x] is the greatest [r] below [2 ^ bits] with
    [r ^ k <= x]. *)
Fixpoint root_from (k : Z) (bits : nat) (x r : Z) : Z :=
  match bits with
  | O => r
  | S bits' =>
      let r' := r + 2 ^ Z.of_nat bits' in
      root_from k bits' x (if r' ^ k <=? x then r' else r)
  end.

Definition root (k : Z) (bits : nat) (x : Z) : Z := root_from k bits x 0.

Definition is_prime (n : nat) : bool :=
  forallb (fun d => negb (n mod d =? 0)%nat) (seq 2 (n - 2)).

(** The first sixty-four primes, 2 to 311. *)
Definition primes : list Z :=
  map Z.of_nat (filter is_prime (seq 2 310)).

(** The first 32 bits of the fractional part of a [k]-th root. *)
Definition frac32 (k : Z) (p : Z) : Z :=
  wrap (root k 40 (p * 2 ^ (32 * k))).

(** The round constants come from the cube roots of the first sixty-four
    primes. *)
Definition round_constants : list Z := map (frac32 3) primes.

(** The eight working words. *)
Record state : Type := State {
  sa : Z; sb : Z; sc : Z; sd : Z; se : Z; sf : Z; sg : Z; sh : Z
}.

(** The initial hash value comes from the square roots of the first eight
    primes. *)
Definition initial : state :=
  State (frac32 2 2) (frac32 2 3) (frac32 2 5) (frac32 2 7)
        (frac32 2 11) (frac32 2 13) (frac32 2 17) (frac32 2 19).

(** Message padding: a one bit, zero bits up to 56 modulo 64 bytes, then
    the bit length on eight bytes, most significant first. *)
Definition be_bytes (n : nat) (x : Z) : list Z :=
  map (fun i => (x / 2 ^ (8 * Z.of_nat i)) mod 256) (rev (seq 0 n)).

Definition pad (msg : list Z) : list Z :=
  let len := List.length msg in
  let zeros := ((64 - ((len + 9) mod 64)) mod 64)%nat in
  msg ++ [0x80] ++ repeat 0 zeros ++ be_bytes 8 (8 * Z.of_nat len).

Definition be_word (bs : list Z) : Z :=
  fold_left (fun acc b => acc * 256 + b) bs 0.

Fixpoint words_of (n : nat) (bs : list Z) : list Z :=
  match n with
  | O => []
  | S n' => be_word (firstn 4 bs) :: words_of n' (skipn 4 bs)
  end.

(** The message schedule, kept most recent word first. *)
Fixpoint extend (n : nat) (w : list Z) : list Z :=
  match n with
  | O => w
  | S n' =>
      let x := add32 (add32 (ssig1 (nth 1 w 0)) (nth 6 w 0))
                     (add32 (ssig0 (nth 14 w 0)) (nth 15 w 0)) in
      extend n' (x :: w)
  end.

Definition schedule (block : list Z) : list Z :=
  rev (extend 48 (rev (words_of 16 block))).

Definition round (s : state) (kw : Z * Z) : state :=
  let t1 := add32 (add32 (add32 (sh s) (bsig1 (se s)))
                         (add32 (ch (se s) (sf s) (sg s)) (fst kw)))
                  (snd kw) in
  let t2 := add32 (bsig0 (sa s)) (maj (sa s) (sb s) (sc s)) in
  State (add32 t1 t2) (sa s) (sb s) (sc s)
        (add32 (sd s) t1) (se s) (sf s) (sg s).

Definition compress (h : state) (block : list Z) : state :=
  let s := fold_left round (combine round_constants (schedule block)) h in
  State (add32 (sa h) (sa s)) (add32 (sb h) (sb s))
        (add32 (sc h) (sc s)) (add32 (sd h) (sd s))
        (add32 (se h) (se s)) (add32 (sf h) (sf s))
        (add32 (sg h) (sg s)) (add32 (sh h) (sh s)).

Fixpoint blocks (n : nat) (h : state) (bs : list Z) : state :=
  match n with
  | O => h
  | S n' => blocks n' (compress h (firstn 64 bs)) (skipn 64 bs)
  end.

Definition digest (msg : list Z) : state :=
  let p := pad msg in
  blocks (List.length p / 64)%nat initial p.

(** [.hexdigest()] *)
Definition hex_alphabet : str := lit "0123456789abcdef".

Definition hex_digit (x : Z) : ascii :=
  nth (Z.to_nat (x mod 16)) hex_alphabet "0"%char.

Definition hex_word (x : Z) : str :=
  map (fun i => hex_digit (x / 16 ^ i)) [7; 6; 5; 4; 3; 2; 1; 0].

Definition hexdigest (s : state) : str :=
  hex_word (sa s) ++ hex_word (sb s) ++ hex_word (sc s) ++ hex_word (sd s)
  ++ hex_word (se s) ++ hex_word (sf s) ++ hex_word (sg s)
  ++ hex_word (sh s).

(** [s.encode()]: UTF-8, for code points below 256. *)
Definition utf8_char (c : ascii) : list Z :=
  let n := Z.of_nat (code c) in
  if n <? 128 then [n] else [192 + n / 64; 128 + n mod 64].

Definition encode (s : str) : list Z := flat_map utf8_char s.

End Sha256.

(** ** embed.py *)

Module Embed.
Import Py.

(** [get_text_hash(text, model=None)] *)
Definition get_text_hash (text : str) (model : option str) : str :=
  let key :=
    match model with
    | None => text
    | Some m => m ++ lit ":" ++ text
    end in
  Sha256.hexdigest (Sha256.digest (Sha256.encode key)).

End Embed.

(** ** Data model *)

(** What the program needs of the scores, which are Python floats: the
    order [sorted] compares them by, and how the f-strings print them. *)
Class ScoreOps (Score : Type) : Type := {
  score_zero : Score;                  (* the default [0] of [m.get('score', 0)] *)
  score_leb : Score -> Score -> bool;  (* [a <= b] *)
  fmt_2f : Score -> Py.str;            (* [f"{x:.2f}"] *)
  str_of_score : Score -> Py.str       (* [f"{x}"] *)
}.

Module Model.
Import Py.

(** [metadata] of a match; a field is [None] when the key is absent. *)
Record Metadata : Type := {
  md_name : option str;
  md_type : option str;
  md_tags : option (list str);
  md_city : option str
}.

Definition no_metadata : Metadata :=
  {| md_name := None; md_type := None; md_tags := None; md_city := None |}.

(** A vector match; a field is [None] when the key is absent. *)
Record Match (Score : Type) : Type := {
  m_id : option str;
  m_score : option Score;
  m_metadata : option Metadata
}.

(** A graph fact; every key is present, a field is [None] when its value
    is null. *)
Record GraphFact : Type := {
  source : option str;
  rel : option str;
  target_id : option str;
  target_name : option str;
  target_desc : str;
  labels : option (list str)
}.

(** One turn of a prompt. *)
Record Turn : Type := { role : str; content : str }.

(** A Python dict from strings, as the list of its items; [dict_get] reads
    the first binding of a key, so an item put in front replaces an older
    one with the same key. *)
Definition dict (V : Type) : Type := list (str * V).

Fixpoint dict_get {V : Type} (k : str) (d : dict V) : option V :=
  match d with
  | [] => None
  | (k', v) :: d' => if Py.eqb k k' then Some v else dict_get k d'
  end.

Definition dict_set {V : Type} (k : str) (v : V) (d : dict V) : dict V :=
  (k, v) :: d.

End Model.

(** ** graph.py *)

Module Graph.
Import Py Model.

(** One record of the Cypher query's result. *)
Record Row : Type := {
  r_rel : option str;
  r_labels : option (list str);
  r_id : option str;
  r_name : option str;
  r_type : option str;
  r_description : option str;
  r_rel2 : option str;
  r_labels2 : option (list str);
  r_id2 : option str;
  r_name2 : option str;
  r_type2 : option str;
  r_description2 : option str
}.

(** [x or ""] *)
Definition or_empty (o : option str) : str :=
  match o with
  | Some s => s
  | None => []
  end.

Definition one_hop (r : Row) : GraphFact :=
  {| source := None;
     rel := r_rel r;
     target_id := r_id r;
     target_name := r_name r;
     target_desc := firstn 400 (or_empty (r_description r));
     labels := r_labels r |}.

Definition two_hop (r : Row) : GraphFact :=
  {| source := r_id r;
     rel := r_rel2 r;
     target_id := r_id2 r;
     target_name := r_name2 r;
     target_desc := firstn 400 (or_empty (r_description2 r));
     labels := r_labels2 r |}.

(** The body of the [for r in recs] loop: [facts.append] once or twice. *)
Definition add_row (facts : list GraphFact) (r : Row) : list GraphFact :=
  let facts := facts ++ [one_hop r] in
  if truthy (r_rel2 r) then facts ++ [two_hop r] else facts.

(** The loop and the final slice [facts[:50]]. *)
Definition collect_facts (recs : list Row) : list GraphFact :=
  firstn 50 (fold_left add_row recs []).

(** [fetch_graph_context(node_ids)], given what [session.run] returns. *)
Definition fetch_graph_context (session_run : list str -> list Row)
           (node_ids : list str) : list GraphFact :=
  collect_facts (session_run node_ids).

End Graph.

(** ** prompting.py *)

Module Prompting.
Import Py Model Re.

Definition nl : str := ["010"%char].

(** [o.get(key, d)] read off an optional field. *)
Definition get_or (o : option str) (d : str) : str :=
  match o with
  | Some s => s
  | None => d
  end.

(** [x or d] for a string value. *)
Definition or_else (o : option str) (d : str) : str :=
  if truthy o then get_or o d else d.

Definition tags_or_nil (o : option (list str)) : list str :=
  match o with
  | Some l => l
  | None => []
  end.

(** *** [validate_response] *)

Definition validate_response (response : str) (trip_length : Z) : str :=
  if negb (contains (lit "Day " ++ str_of_int trip_length) response)
  then lit "Response incomplete: Missing Day " ++ str_of_int trip_length
       ++ lit "."
  else lit "Valid".

(** *** [sanitize_answer] *)

(** [score:\s*\d+\.\d+], ignoring case *)
Definition score_re : regex :=
  cats [iword "score:"; Star is_space; Plus is_digit; chr ".";
        Plus is_digit].

(** [\[\s*node_id\s*:\s*[^\]]+\]], ignoring case *)
Definition bracket_leak_re : regex :=
  cats [chr "["; Star is_space; iword "node_id"; Star is_space; chr ":";
        Star is_space; Plus (none_of "]"); chr "]"].

(** [\(\s*node_id\s*:\s*[^\)]+\)], ignoring case *)
Definition paren_leak_re : regex :=
  cats [chr "("; Star is_space; iword "node_id"; Star is_space; chr ":";
        Star is_space; Plus (none_of ")"); chr ")"].

(** [ {2,}] *)
Definition spaces_re : regex := AtLeast2 (eqb_char " ").

(** [^\s*(Note:|Validation:)], given to [re.match] *)
Definition note_re : regex :=
  Cat (Star is_space) (Grp 1 (Alt (word "Note:") (word "Validation:"))).

Definition is_note (ln : str) : bool :=
  match match_ note_re ln with
  | Some _ => true
  | None => false
  end.

Definition sanitize_answer (response : str) : str :=
  let response := sub_const score_re [] response in
  let response := sub_const bracket_leak_re [] response in
  let response := sub_const paren_leak_re [] response in
  let response := sub_const spaces_re (lit " ") response in
  let lines := filter (fun ln => negb (is_note ln)) (splitlines response) in
  strip (join nl lines).

(** *** [expand_citations] *)

(** [\[\s*([^\]]+)\s*\]] *)
Definition placeholder_re : regex :=
  cats [chr "["; Star is_space; Grp 1 (Plus (none_of "]")); Star is_space;
        chr "]"].

Definition is_id_char (c : ascii) : bool :=
  is_upper_ascii c || is_lower_ascii c || is_digit c
  || eqb_char c "_" || eqb_char c "-".

(** The identifier pattern, ignoring case: an optional prefix, one of
    [node[_ ]?id], [nodeid], [id], followed by [\s*:\s*]; then the named
    group [(?P<id>[A-Za-z0-9_-]+)], which is group 1. *)
Definition id_re : regex :=
  Cat (Opt (cats [Alt (cats [iword "node";
                             Opt (Cls (fun c => eqb_char c "_"
                                                || eqb_char c " "));
                             iword "id"])
                      (Alt (iword "nodeid") (iword "id"));
                  Star is_space; chr ":"; Star is_space]))
      (Grp 1 (Plus is_id_char)).

Definition keywords : list str :=
  [lit "romantic"; lit "beach"; lit "culture"; lit "heritage"; lit "food";
   lit "nature"; lit "mountain"].

(** [typ (a, b)] when the list is not empty, bare [typ] otherwise. *)
Definition tagged (typ : str) (items : list str) : str :=
  match items with
  | [] => typ
  | _ :: _ => typ ++ lit " (" ++ join (lit ", ") items ++ lit ")"
  end.

(** The identifier of a placeholder whose stripped content is [raw]. *)
Definition node_id_of (raw : str) : str :=
  match search id_re raw with
  | Some (_, _, cs) =>
      match group 1 cs with
      | Some i => i
      | None => raw
      end
  | None => raw
  end.

Definition facts_by_id_of (graph_facts : list GraphFact) : dict GraphFact :=
  fold_left
    (fun d f =>
       match target_id f with
       | Some i => if truthy (Some i) then dict_set i f d else d
       | None => d
       end)
    graph_facts [].

(** [(f.get('labels') or [None])[0] or 'Entity'] *)
Definition first_label (f : GraphFact) : str :=
  match labels f with
  | Some (l :: _) => or_else (Some l) (lit "Entity")
  | _ => lit "Entity"
  end.

Section WithScore.
Context {Score : Type} {SO : ScoreOps Score}.

(** [m.get('metadata', {})] *)
Definition meta_of (m : Match Score) : Metadata :=
  match m_metadata m with
  | Some md => md
  | None => no_metadata
  end.

Definition meta_by_id_of (matches : list (Match Score)) : dict Metadata :=
  fold_left
    (fun d m =>
       match m_id m with
       | Some i => if truthy (Some i) then dict_set i (meta_of m) d else d
       | None => d
       end)
    matches [].

(** The callback [repl]: [g0] is [match.group(0)], [cs] the groups. *)
Definition repl (meta_by_id : dict Metadata) (facts_by_id : dict GraphFact)
           (g0 : str) (cs : caps) : str :=
  let raw := strip (get_or (group 1 cs) []) in
  let nodeid := node_id_of raw in
  match dict_get nodeid meta_by_id with
  | Some meta =>
      let typ := or_else (md_type meta) (lit "Entity") in
      let tags := tags_or_nil (md_tags meta) in
      tagged typ tags
  | None =>
      match dict_get nodeid facts_by_id with
      | Some f =>
          let typ := first_label f in
          let desc := target_desc f in
          let found :=
            filter (fun kw => contains kw (lower desc)) keywords in
          tagged typ found
      | None => g0
      end
  end.

Definition expand_citations (response : str)
           (matches : option (list (Match Score)))
           (graph_facts : option (list GraphFact)) : str :=
  let matches := match matches with Some l => l | None => [] end in
  let graph_facts := match graph_facts with Some l => l | None => [] end in
  let meta_by_id := meta_by_id_of matches in
  let facts_by_id := facts_by_id_of graph_facts in
  sub placeholder_re (repl meta_by_id facts_by_id) response.

(** *** [search_summary] *)

(** [x.get('score', 0)] *)
Definition score_of (m : Match Score) : Score :=
  match m_score m with
  | Some x => x
  | None => score_zero
  end.

(** [sorted(l, key=score_of, reverse=True)]: a stable sort, elements of
    equal score keep their order. *)
Fixpoint insert_desc (x : Match Score) (l : list (Match Score))
  : list (Match Score) :=
  match l with
  | [] => [x]
  | y :: l' =>
      if score_leb (score_of y) (score_of x)
      then x :: l
      else y :: insert_desc x l'
  end.

Definition sorted_desc (l : list (Match Score)) : list (Match Score) :=
  fold_right insert_desc [] l.

Definition vec_snippet (m : Match Score) : str :=
  let meta := meta_of m in
  let score := score_of m in
  lit "- " ++ get_or (md_name meta) (lit "Unknown") ++ lit ": "
  ++ get_or (md_type meta) (lit "Unknown") ++ lit " (tags: "
  ++ join (lit ", ") (tags_or_nil (md_tags meta)) ++ lit ", score: "
  ++ fmt_2f score ++ lit ")".

Definition vec_snippets (pinecone_matches : list (Match Score))
  : list str :=
  map vec_snippet (firstn 5 (sorted_desc pinecone_matches)).

Definition graph_snippet (f : GraphFact) : str :=
  lit "- " ++ str_of_opt (target_name f) ++ lit ": "
  ++ firstn 120 (target_desc f) ++ lit "...".

Definition graph_snippets (graph_facts : list GraphFact) : list str :=
  map graph_snippet (firstn 7 graph_facts).

Definition search_summary (pinecone_matches : list (Match Score))
           (graph_facts : list GraphFact) : str :=
  lit "Prioritized Vector matches:" ++ nl
  ++ join nl (vec_snippets pinecone_matches)
  ++ nl ++ nl ++ lit "Prioritized Graph facts:" ++ nl
  ++ join nl (graph_snippets graph_facts).

End WithScore.

(** *** [build_prompt] *)

Record Template : Type := { system : str; suffix : str }.

Definition TEMPLATES (trip_length : Z) : dict Template :=
  [ (lit "concise",
     {| system := lit "You are a helpful, concise travel assistant.";
        suffix := lit "Provide exactly " ++ str_of_int trip_length
                  ++ lit "-day itineraries with timings and local tips. Be concise and factual." |});
    (lit "chain_of_thought",
     {| system := lit "You are a helpful travel assistant who explains reasoning clearly.";
        suffix := lit "Provide exactly " ++ str_of_int trip_length
                  ++ lit "-day itineraries with timings and local tips. After the itinerary, include a short 'Reasoning' section that lists the key assumptions and steps used to produce the plan (3-5 bullet points). Keep the reasoning concise and factual." |}) ].

(** [d[k]] for a key known to be present; the fallback is never read for
    the dictionaries of this module. *)
Definition dict_item (k : str) (d : dict Template) : Template :=
  match dict_get k d with
  | Some t => t
  | None => {| system := []; suffix := [] |}
  end.

Section WithPrinting.
Context {Score : Type} {SO : ScoreOps Score}.
(** [str(preferences)], the printed form of a dict of strings. *)
Variable str_of_dict : dict str -> str.

Definition vec_context_line (m : Match Score) : str :=
  let meta := meta_of m in
  lit "- id: " ++ str_of_opt (m_id m) ++ lit ", name: "
  ++ get_or (md_name meta) [] ++ lit ", type: "
  ++ get_or (md_type meta) [] ++ lit ", score: "
  ++ match m_score m with
     | Some x => str_of_score x
     | None => lit "None"
     end.

Definition graph_context_line (f : GraphFact) : str :=
  lit "- (" ++ str_of_opt (source f) ++ lit ") -[" ++ str_of_opt (rel f)
  ++ lit "]-> (" ++ str_of_opt (target_id f) ++ lit ") "
  ++ str_of_opt (target_name f) ++ lit ": " ++ target_desc f.

Definition build_prompt (user_query : str)
           (pinecone_matches : list (Match Score))
           (graph_facts : list GraphFact)
           (preferences : option (dict str)) : list Turn :=
  let preferences :=
    match preferences with
    | Some (x :: d) => x :: d
    | _ => []
    end in
  let trip_length := if contains (lit "4") user_query then 4%Z else 3%Z in
  let templates := TEMPLATES trip_length in
  let template_name :=
    or_else (dict_get (lit "template") preferences) (lit "concise") in
  let template :=
    match dict_get template_name templates with
    | Some t => t
    | None => dict_item (lit "concise") templates
    end in
  let system := system template ++ lit " " ++ suffix template in
  let vec_context := map vec_context_line (firstn 10 pinecone_matches) in
  let graph_context := map graph_context_line (firstn 15 graph_facts) in
  let summary := search_summary pinecone_matches graph_facts in
  let user_content :=
    lit "User query: " ++ user_query ++ nl ++ nl in
  let user_content :=
    user_content ++ lit "Preferences: " ++ str_of_dict preferences
    ++ nl ++ nl in
  let user_content :=
    user_content ++ lit "Summary:" ++ nl ++ summary ++ nl ++ nl in
  let user_content :=
    user_content ++ lit "Top semantic matches:" ++ nl
    ++ join nl vec_context ++ nl ++ nl in
  let user_content :=
    user_content ++ lit "Graph facts:" ++ nl ++ join nl graph_context
    ++ nl ++ nl in
  let user_content :=
    user_content ++ lit "Please produce the requested output." in
  [ {| role := lit "system"; content := system |};
    {| role := lit "user"; content := user_content |} ].

End WithPrinting.

End Prompting.

(** ** cli.py

    The chat loop runs against its collaborators: the vector index, the graph
    database, the completion endpoint, the terminal.  Their answers are
    parameters; a computation threads their state, the lines still to be read
    from the terminal and the trace of what was sent out, and may raise. *)

Module Cli.
Import Py Model Prompting.

Inductive event : Type :=
| Completion : list Turn -> Z -> event   (* [call_chat(prompt, max_tokens)] *)
| Printed : str -> event.                (* [print] and the prompt of [input] *)

Inductive outcome (A : Type) : Type :=
| Ok : A -> outcome A
| Raise : str -> outcome A.
Arguments Ok {A} _.
Arguments Raise {A} _.

Definition is_completion (e : event) : bool :=
  match e with
  | Completion _ _ => true
  | Printed _ => false
  end.

(** The completion calls of a trace, in order. *)
Definition completions (t : list event) : list event :=
  filter is_completion t.

(** [[m["id"] for m in matches]]: a match without the key raises. *)
Fixpoint ids_of {Score : Type} (matches : list (Match Score))
  : outcome (list str) :=
  match matches with
  | [] => Ok []
  | m :: rest =>
      match m_id m with
      | None => Raise (lit "KeyError: 'id'")
      | Some i =>
          match ids_of rest with
          | Ok l => Ok (i :: l)
          | Raise e => Raise e
          end
      end
  end.

Definition followup : list Turn :=
  [ {| role := lit "user";
       content := lit "The previous response was incomplete. Please complete the missing day(s) and ensure all days are covered." |} ].

Section WithWorld.
Context {Score : Type} {SO : ScoreOps Score}.
Variable str_of_dict : dict str -> str.
(** The collaborators and their state. *)
Variable W : Type.
Variable query_pinecone :
  str -> nat -> W -> outcome (list (Match Score)) * W.
Variable session_run : list str -> W -> outcome (list Graph.Row) * W.
Variable chat_completion : list Turn -> Z -> W -> outcome str * W.

Record world : Type := World {
  collab : W;
  stdin : list str;
  trace : list event
}.

Definition M (A : Type) : Type := world -> outcome A * world.

Definition ret {A : Type} (a : A) : M A := fun w => (Ok a, w).

Definition bind {A B : Type} (m : M A) (k : A -> M B) : M B :=
  fun w =>
    match m w with
    | (Ok a, w') => k a w'
    | (Raise e, w') => (Raise e, w')
    end.

Definition raise_ {A : Type} (e : str) : M A := fun w => (Raise e, w).

(** [try: m  except Exception as e: h e] *)
Definition try_ {A : Type} (m : M A) (h : str -> M A) : M A :=
  fun w =>
    match m w with
    | (Ok a, w') => (Ok a, w')
    | (Raise e, w') => h e w'
    end.

Definition emit (e : event) : M unit :=
  fun w => (Ok tt, World (collab w) (stdin w) (trace w ++ [e])).

(** A call to a collaborator. *)
Definition call {A : Type} (f : W -> outcome A * W) : M A :=
  fun w =>
    let (r, c) := f (collab w) in
    (r, World c (stdin w) (trace w)).

Definition of_outcome {A : Type} (o : outcome A) : M A := fun w => (o, w).

Local Notation "x <- m ;; k" := (bind m (fun x => k))
  (at level 61, m at next level, right associativity).
Local Notation "m ;;; k" := (bind m (fun _ => k))
  (at level 61, right associativity).

Definition print (s : str) : M unit := emit (Printed s).

(** [input(prompt)]: shows the prompt, reads a line; the end of the
    input raises. *)
Definition input (prompt : str) : M str :=
  emit (Printed prompt) ;;;
  fun w =>
    match stdin w with
    | [] => (Raise (lit "EOFError"), w)
    | l :: rest => (Ok l, World (collab w) rest (trace w))
    end.

(** [prompting.call_chat] *)
Definition call_chat (prompt_messages : list Turn) (max_tokens : Z)
  : M str :=
  emit (Completion prompt_messages max_tokens) ;;;
  call (chat_completion prompt_messages max_tokens).

(** [graph.fetch_graph_context] against the database of this world. *)
Definition fetch_graph_context (node_ids : list str)
  : M (list GraphFact) :=
  recs <- call (session_run node_ids) ;;
  ret (Graph.fetch_graph_context (fun _ => recs) node_ids).

(** The body of the [while True] loop after the exit test. *)
Definition chat_turn (query : str) (preferences : dict str) : M unit :=
  matches <- call (query_pinecone query 10) ;;
  match_ids <- of_outcome (ids_of matches) ;;
  graph_facts <-
    try_ (fetch_graph_context match_ids)
         (fun e =>
            print (lit "Warning: Could not fetch graph context (" ++ e
                   ++ lit "). Using vector-only response.") ;;;
            ret []) ;;
  let prompt :=
    build_prompt str_of_dict query matches graph_facts (Some preferences) in
  answer <- call_chat prompt 1100 ;;
  let validation :=
    validate_response answer
      (if contains (lit "4") query then 4%Z else 3%Z) in
  answer <-
    (if negb (Py.eqb validation (lit "Valid"))
     then
       let prompt_extended := prompt ++ followup in
       call_chat prompt_extended 1200
     else ret answer) ;;
  let answer_expanded :=
    expand_citations answer (Some matches) (Some graph_facts) in
  let answer_clean := sanitize_answer answer_expanded in
  print (nl ++ lit "=== Assistant Answer ===" ++ nl) ;;;
  print answer_clean ;;;
  print (nl ++ lit "=== End ===" ++ nl).

Definition is_exit (query : str) : bool :=
  match query with
  | [] => true
  | _ => Py.eqb (lower query) (lit "exit")
         || Py.eqb (lower query) (lit "quit")
  end.

(** The [while True] loop; each round reads a line, so one round more
    than there are lines left is enough. *)
Fixpoint chat_loop (fuel : nat) (preferences : dict str) : M unit :=
  match fuel with
  | O => ret tt
  | S fuel' =>
      line <- input (nl ++ lit "Enter your travel question: ") ;;
      let query := strip line in
      if is_exit query then ret tt
      else chat_turn query preferences ;;; chat_loop fuel' preferences
  end.

Definition interactive_chat : M unit :=
  print (lit "Hybrid travel assistant. Type 'exit' to quit.") ;;;
  b <- input (lit "Enter your budget (e.g., low, medium, high): ") ;;
  let budget := or_else (Some (lower (strip b))) (lit "medium") in
  i <- input (lit "Enter your interests (e.g., romantic, adventure, culture): ") ;;
  let interests := or_else (Some (lower (strip i))) (lit "romantic") in
  let preferences :=
    [(lit "budget", budget); (lit "interests", interests)] in
  fun w => chat_loop (S (List.length (stdin w))) preferences w.

End WithWorld.

End Cli.

(** ** Notions used to state the properties *)

Module Spec.
Import Py Model.

(** [sub] occurs in [s]. *)
Definition occurs (sub s : str) : Prop :=
  exists pre post : str, s = pre ++ sub ++ post.

(** The facts one record contributes, in the order they are appended. *)
Definition row_facts (r : Graph.Row) : list GraphFact :=
  Graph.one_hop r
  :: (if truthy (Graph.r_rel2 r) then [Graph.two_hop r] else []).

(** The template name a caller asks for, if any. *)
Definition requested_template (preferences : option (dict str))
  : option str :=
  match preferences with
  | Some d => dict_get (lit "template") d
  | None => None
  end.

(** The trip length the specification describes: 4 when the character
    ["4"] occurs in the query, 3 otherwise. *)
Definition trip_days (query : str) : Z :=
  if in_dec ascii_dec "4"%char query then 4%Z else 3%Z.

Section Chat.
Import Cli Prompting.
Context {Score : Type} {SO : ScoreOps Score}.
Variable W : Type.
Variable query_pinecone :
  str -> nat -> W -> outcome (list (Match Score)) * W.
Variable session_run : list str -> W -> outcome (list Graph.Row) * W.

(** What a chat turn does before it builds the prompt: the vector
    query, the ids, the graph expansion with its fallback. *)
Definition gather (query : str)
  : M W (list (Match Score) * list GraphFact) :=
  bind (call (query_pinecone query 10)) (fun matches =>
  bind (of_outcome (ids_of matches)) (fun match_ids =>
  bind (try_ (fetch_graph_context session_run match_ids)
             (fun e =>
                bind (print (lit "Warning: Could not fetch graph context ("
                             ++ e ++ lit "). Using vector-only response."))
                     (fun _ => ret [])))
       (fun graph_facts => ret (matches, graph_facts)))).

(** The completion calls made between two states of the world. *)
Definition new_calls (w w' : world W) : list event :=
  completions (skipn (List.length (trace w)) (trace w')).
End Chat.

(** The placeholder pattern after its opening bracket, from its group on,
    and its end. *)
Definition after_open : Re.regex :=
  Re.cats [Re.Star is_space; Re.Grp 1 (Re.Plus (Re.none_of "]"));
           Re.Star is_space; Re.chr "]"].

Definition from_group : Re.regex :=
  Re.cats [Re.Grp 1 (Re.Plus (Re.none_of "]")); Re.Star is_space;
           Re.chr "]"].

Definition closing : Re.regex := Re.Cat (Re.Star is_space) (Re.chr "]").

(** [s] begins with the space character. *)
Definition starts_space (s : str) : bool :=
  match s with
  | c :: _ => eqb_char " " c
  | [] => false
  end.

(** Two space characters in a row somewhere in [s]. *)
Fixpoint has_dbl (s : str) : bool :=
  match s with
  | [] => false
  | c :: t => (eqb_char " " c && starts_space t) || has_dbl t
  end.

(** A text without line break. *)
Definition lbfree (l : str) : Prop :=
  Forall (fun c => is_linebreak c = false) l.

(** What stripping a text on the left does to its lines: the leading blank
    lines go, the first line left is stripped. *)
Fixpoint ltrimL (lines : list str) : list str :=
  match lines with
  | [] => []
  | l :: rest =>
      match lstrip l with
      | [] => ltrimL rest
      | c :: t => (c :: t) :: rest
      end
  end.

(** The same on the right. *)
Definition rtrimL (lines : list str) : list str :=
  rev (map (@rev ascii) (ltrimL (rev (map (@rev ascii) lines)))).

(** The last line, if there is one, is not empty. *)
Definition ends_ok (lines : list str) : Prop :=
  last lines [" "%char] <> [].

(** The fourth step of the sanitizer: runs of spaces become one space. *)
Definition collapse (s : str) : str :=
  Re.sub_const Prompting.spaces_re (lit " ") s.

(** The last steps of the sanitizer: note lines go, the text is joined and
    stripped. *)
Definition finish (s : str) : str :=
  strip (join Prompting.nl
           (filter (fun ln => negb (Prompting.is_note ln)) (splitlines s))).

(** The part of the note pattern after the leading whitespace. *)
Definition note_words : Re.regex :=
  Re.Grp 1 (Re.Alt (Re.word "Note:") (Re.word "Validation:")).

(** The list [l] begins with [x]. *)
Definition first_is {A : Type} (x : A) (l : list A) : Prop :=
  exists others, l = x :: others.

(** A run of whitespace. *)
Definition spaces (ws : str) : Prop :=
  Forall (fun c => is_space c = true) ws.

(** [t] does not go on with a character of the class [p]. *)
Definition stops (p : ascii -> bool) (t : str) : Prop :=
  match t with
  | [] => True
  | c :: _ => p c = false
  end.

(** The step of the comprehension that builds [meta_by_id]. *)
Definition meta_step {Score : Type} (d : dict Metadata) (m : Match Score)
  : dict Metadata :=
  match m_id m with
  | Some i =>
      if truthy (Some i) then dict_set i (Prompting.meta_of m) d else d
  | None => d
  end.

(** The step of the comprehension that builds [facts_by_id]. *)
Definition fact_step (d : dict GraphFact) (f : GraphFact) : dict GraphFact :=
  match target_id f with
  | Some i => if truthy (Some i) then dict_set i f d else d
  | None => d
  end.

(** [m] has the non-empty id [k]. *)
Definition has_id {Score : Type} (k : str) (m : Match Score) : bool :=
  match m_id m with
  | Some i => truthy (Some i) && Py.eqb k i
  | None => false
  end.

(** The last match of a list that has the id [k]. *)
Fixpoint last_with_id {Score : Type} (k : str) (ms : list (Match Score))
  : option (Match Score) :=
  match ms with
  | [] => None
  | m :: rest =>
      match last_with_id k rest with
      | Some m' => Some m'
      | None => if has_id k m then Some m else None
      end
  end.

(** [a] scores at least as high as [b]. *)
Definition ge_score {Score : Type} {SO : ScoreOps Score}
           (a b : Match Score) : Prop :=
  score_leb (Prompting.score_of b) (Prompting.score_of a) = true.

(** Every string of [n] characters taken from [alphabet]. *)
Fixpoint all_strs (alphabet : list ascii) (n : nat) : list str :=
  match n with
  | O => [[]]
  | S n' => flat_map (fun c => map (cons c) (all_strs alphabet n')) alphabet
  end.

(** The text hash tells any two distinct texts apart. *)
Definition hash_injective : Prop :=
  forall (model : option str) (text1 text2 : str),
    text1 <> text2 ->
    Embed.get_text_hash text1 model <> Embed.get_text_hash text2 model.

End Spec.

(** Integer scores, printed with two zero decimals: a sample instance to
    run the pipeline on. *)
#[global] Instance ZScore : ScoreOps Z := {|
  score_zero := 0%Z;
  score_leb := Z.leb;
  fmt_2f := fun z => Py.str_of_int z ++ Py.lit ".00";
  str_of_score := Py.str_of_int
|}.

(** A scripted world to run the chat loop in: the vector index and the
    graph are empty, and the completion endpoint answers every call with an
    itinerary of three days. *)
Module Script.
Import Py Model Cli.

Definition no_matches (q : str) (k : nat) (w : unit)
  : outcome (list (Match Z)) * unit := (Ok [], w).

Definition no_rows (ids : list str) (w : unit)
  : outcome (list Graph.Row) * unit := (Ok [], w).

Definition three_days (p : list Turn) (max_tokens : Z) (w : unit)
  : outcome str * unit :=
  (Ok (lit "Day 1: Hanoi. Day 2: Ha Long. Day 3: Hue."), w).

Definition braces (d : dict str) : str := lit "{...}".

(** The token budgets of the completion calls of a trace. *)
Definition budgets (t : list event) : list Z :=
  flat_map (fun e => match e with
                     | Completion _ n => [n]
                     | Printed _ => []
                     end) t.

Definition run_chat (lines : list string) : list event :=
  trace (snd (interactive_chat braces no_matches no_rows three_days
                (World tt (map lit lines) []))).

End Script.

(** ** Further notions: the citation expander and the matcher *)

Module Notions.
Import Py Model Re.

(** [f] has the non-empty target id [k]. *)
Definition has_target (k : str) (f : GraphFact) : bool :=
  match target_id f with
  | Some i => truthy (Some i) && Py.eqb k i
  | None => false
  end.

(** The last fact of a list that has the target id [k]. *)
Fixpoint last_fact_with_id (k : str) (gf : list GraphFact)
  : option GraphFact :=
  match gf with
  | [] => None
  | f :: rest =>
      match last_fact_with_id k rest with
      | Some f' => Some f'
      | None => if has_target k f then Some f else None
      end
  end.

(** Every match of [r] consumes a text that contains the character [c]. *)
Definition always_has (c : ascii) (r : regex) : Prop :=
  forall s cs m rest cs', In (m, rest, cs') (run r s cs) -> In c m.

(** The two parts of the identifier pattern. *)
Definition id_prefix : regex :=
  cats [Alt (cats [iword "node";
                   Opt (Cls (fun c => eqb_char c "_" || eqb_char c " "));
                   iword "id"])
            (Alt (iword "nodeid") (iword "id"));
        Star is_space; chr ":"; Star is_space].

Definition id_group : regex := Grp 1 (Plus Prompting.is_id_char).

(** Spellings of the prefix that may stand before an identifier. *)
Definition id_keywords : list str :=
  [lit "id"; lit "ID"; lit "nodeid"; lit "node_id"; lit "node id";
   lit "NODE_ID"].

(** The keywords the expander looks for in the description of a fact. *)
Definition found_keywords (f : GraphFact) : list str :=
  filter (fun kw => contains kw (lower (target_desc f))) Prompting.keywords.

End Notions.

(** Sample data for the examples. *)
Module Samples.
Import Py Model.

(** A record with a second hop: Hue, and Da Nang behind it. *)
Definition row_hue : Graph.Row :=
  {| Graph.r_rel := Some (lit "Connected_To");
     Graph.r_labels := Some [lit "City"; lit "Entity"];
     Graph.r_id := Some (lit "city_hue");
     Graph.r_name := Some (lit "Hue");
     Graph.r_type := Some (lit "City");
     Graph.r_description := Some (lit "Imperial city with heritage sites.");
     Graph.r_rel2 := Some (lit "Connected_To");
     Graph.r_labels2 := Some [lit "City"; lit "Entity"];
     Graph.r_id2 := Some (lit "city_da_nang");
     Graph.r_name2 := Some (lit "Da Nang");
     Graph.r_type2 := Some (lit "City");
     Graph.r_description2 := Some (lit "Beach city.") |}.

End Samples.

(** ** Further notions: one turn of the chat loop *)

Module Turn.
Import Py Model Prompting Cli.

(** The line printed when the graph query fails. *)
Definition warning (e : str) : str :=
  lit "Warning: Could not fetch graph context (" ++ e
  ++ lit "). Using vector-only response.".

(** The number of days a query is checked for. *)
Definition days (query : str) : Z :=
  if contains (lit "4") query then 4%Z else 3%Z.

Definition question_prompt : str :=
  nl ++ lit "Enter your travel question: ".

(** The exit words, as typed in lower case. *)
Definition exit_words : list str := [lit "exit"; lit "quit"].

Section WithScore.
Context {Score : Type} {SO : ScoreOps Score}.

(** The three lines a turn prints for the answer [answer]. *)
Definition answer_block (answer : str) (matches : list (Match Score))
           (graph_facts : list GraphFact) : list event :=
  [ Printed (nl ++ lit "=== Assistant Answer ===" ++ nl);
    Printed (sanitize_answer
               (expand_citations answer (Some matches) (Some graph_facts)));
    Printed (nl ++ lit "=== End ===" ++ nl) ].

(** A graph query that returns no record where [session_run] does
    whatever it does to the database. *)
Definition quiet {W : Type}
           (session_run : list str -> W -> outcome (list Graph.Row) * W)
           (ids : list str) (c : W) : outcome (list Graph.Row) * W :=
  (Ok [], snd (session_run ids c)).

(** What a turn does once the matches [ms] and the facts [gf] are there,
    from the database state [c], the input [inp] and the trace [t]. *)
Definition answer_turn {W : Type} (str_of_dict : dict str -> str)
           (chat_completion : list Turn -> Z -> W -> outcome str * W)
           (query : str) (preferences : dict str)
           (ms : list (Match Score)) (gf : list GraphFact)
           (c : W) (inp : list str) (t : list event)
  : outcome unit * world W :=
  let prompt := build_prompt str_of_dict query ms gf (Some preferences) in
  let t1 := t ++ [Completion prompt 1100%Z] in
  match chat_completion prompt 1100%Z c with
  | (Raise e, c3) => (Raise e, World c3 inp t1)
  | (Ok a1, c3) =>
      if Py.eqb (validate_response a1 (days query)) (lit "Valid")
      then (Ok tt, World c3 inp (t1 ++ answer_block a1 ms gf))
      else
        let t2 := t1 ++ [Completion (prompt ++ followup) 1200%Z] in
        match chat_completion (prompt ++ followup) 1200%Z c3 with
        | (Raise e, c4) => (Raise e, World c4 inp t2)
        | (Ok a2, c4) =>
            (Ok tt, World c4 inp (t2 ++ answer_block a2 ms gf))
        end
  end.

End WithScore.

(** The preferences a session keeps, from the two lines typed first. *)
Definition preferences_of (budget interests : str) : dict str :=
  [ (lit "budget", or_else (Some (lower (strip budget))) (lit "medium"));
    (lit "interests",
     or_else (Some (lower (strip interests))) (lit "romantic")) ].

(** What a session prints before it asks for the first question. *)
Definition opening : list event :=
  [ Printed (lit "Hybrid travel assistant. Type 'exit' to quit.");
    Printed (lit "Enter your budget (e.g., low, medium, high): ");
    Printed (lit "Enter your interests (e.g., romantic, adventure, culture): ") ].

(** The system turn of the concise template for [n] days. *)
Definition concise_system (n : Z) : Turn :=
  {| role := lit "system";
     content :=
       lit "You are a helpful, concise travel assistant. Provide exactly "
       ++ str_of_int n
       ++ lit "-day itineraries with timings and local tips. Be concise and factual." |}.

(** An event a session with the preferences [preferences] may add to the
    trace: a printed line, a first call on a prompt built from them, or a
    retry on such a prompt and the follow-up turn. *)
Definition asked {Score : Type} {SO : ScoreOps Score}
           (str_of_dict : dict str -> str) (preferences : dict str)
           (e : event) : Prop :=
  match e with
  | Printed _ => True
  | Completion p n =>
      exists (query : str) (ms : list (Match Score)) (gf : list GraphFact),
        let prompt :=
          build_prompt str_of_dict query ms gf (Some preferences) in
        (p = prompt /\ n = 1100%Z)
        \/ (p = prompt ++ followup /\ n = 1200%Z)
  end.

End Turn.

Module Samples2.
Import Py Model Cli.

Definition hue : Match Z :=
  {| m_id := Some (lit "city_hue");
     m_score := Some 9%Z;
     m_metadata :=
       Some {| md_name := Some (lit "Hue");
               md_type := Some (lit "City");
               md_tags := Some [lit "heritage"; lit "food"];
               md_city := Some (lit "Hue") |} |}.

(** A match without the ["id"] key. *)
Definition nameless : Match Z :=
  {| m_id := None; m_score := Some 1%Z; m_metadata := None |}.

Definition one_match (q : str) (k : nat) (w : unit)
  : outcome (list (Match Z)) * unit := (Ok [hue], w).

Definition bad_match (q : str) (k : nat) (w : unit)
  : outcome (list (Match Z)) * unit := (Ok [hue; nameless], w).

Definition search_down (q : str) (k : nat) (w : unit)
  : outcome (list (Match Z)) * unit := (Raise (lit "timeout"), w).

Definition graph_down (ids : list str) (w : unit)
  : outcome (list Graph.Row) * unit := (Raise (lit "ServiceUnavailable"), w).

(** An answer that cites a node and leaks a score. *)
Definition cited (p : list Turn) (max_tokens : Z) (w : unit)
  : outcome str * unit :=
  (Ok (lit "Day 1: [city_hue] (score: 0.91). Day 2: rest.  Day 3: home."), w).

End Samples2.

(** ** Python sequences: [range], slices, item access *)

Module Seq.
Import Py Cli.

Fixpoint range_up (fuel : nat) (i stop step : Z) : list Z :=
  match fuel with
  | O => []
  | S fuel' =>
      if (i <? stop)%Z then i :: range_up fuel' (i + step)%Z stop step
      else []
  end.

Fixpoint range_down (fuel : nat) (i stop step : Z) : list Z :=
  match fuel with
  | O => []
  | S fuel' =>
      if (stop <? i)%Z then i :: range_down fuel' (i + step)%Z stop step
      else []
  end.

(** [list(range(start, stop, step))]; a step of zero raises.  The values
    are at least one apart, so the distance bounds their number. *)
Definition range (start stop step : Z) : outcome (list Z) :=
  if (step =? 0)%Z
  then Raise (lit "ValueError: range() arg 3 must not be zero")
  else if (0 <? step)%Z
       then Ok (range_up (Z.to_nat (stop - start)) start stop step)
       else Ok (range_down (Z.to_nat (start - stop)) start stop step).

(** An end of a slice, brought into [0 .. len]: a negative index counts
    from the end. *)
Definition clamp (len i : Z) : Z :=
  if (i <? 0)%Z then Z.max 0 (i + len) else Z.min i len.

(** [l[i:j]] *)
Definition slice {A : Type} (l : list A) (i j : Z) : list A :=
  let len := Z.of_nat (List.length l) in
  let a := clamp len i in
  let b := clamp len j in
  firstn (Z.to_nat (b - a)) (skipn (Z.to_nat a) l).

(** [l[i]] for [i >= 0]; out of range raises. *)
Definition item {A : Type} (l : list A) (i : nat) : outcome A :=
  match nth_error l i with
  | Some x => Ok x
  | None => Raise (lit "IndexError: list index out of range")
  end.

(** [l[i] = x] for [i >= 0]; out of range raises. *)
Fixpoint set_item {A : Type} (l : list A) (i : nat) (x : A)
  : outcome (list A) :=
  match l, i with
  | [], _ => Raise (lit "IndexError: list assignment index out of range")
  | _ :: l', O => Ok (x :: l')
  | y :: l', S i' =>
      match set_item l' i' x with
      | Ok r => Ok (y :: r)
      | Raise e => Raise e
      end
  end.

(** [s.split(sep)] for a separator of one character. *)
Fixpoint split (sep : ascii) (s : str) : list str :=
  match s with
  | [] => [[]]
  | c :: s' =>
      match split sep s' with
      | [] => [[]]
      | p :: ps => if eqb_char c sep then [] :: p :: ps else (c :: p) :: ps
      end
  end.

End Seq.

(** ** pinecone_upload.py *)

Module Upload.
Import Py Cli Seq.

(** [list(chunked(iterable, n))] *)
Definition chunked {A : Type} (iterable : list A) (n : Z)
  : outcome (list (list A)) :=
  match range 0 (Z.of_nat (List.length iterable)) n with
  | Ok starts => Ok (map (fun i => slice iterable i (i + n)%Z) starts)
  | Raise e => Raise e
  end.

End Upload.

(** ** benchmark_graph_fetch.py *)

Module Bench.
Import Py Seq.

(** [parse_node_ids()], from the value of [BENCH_NODE_IDS] if it is set. *)
Definition parse_node_ids (env : option str) : list str :=
  if truthy env
  then
    let parts := split ","%char (match env with Some s => s | None => [] end) in
    map strip (filter (fun s => truthy (Some (strip s))) parts)
  else [lit "sample1"; lit "sample2"; lit "sample3"].

End Bench.

(** ** embed.py: the synchronous helpers and their file cache

    The embeddings endpoint and the JSON codec are parameters; a
    computation threads the cache directory, the endpoint's state and the
    log of the requests sent, and may raise. *)

Module EmbedSync.
Import Py Model Cli Seq.

Section WithClient.
(** An embedding, and the state of the endpoint. *)
Variables Emb W : Type.
(** [[d.embedding for d in client.embeddings.create(model=, input=).data]] *)
Variable create : str -> list str -> W -> outcome (list Emb) * W.
(** [json.dump] of an embedding, and [json.load] of a file's text: [None]
    where it raises or reads [null]. *)
Variable json_dump : Emb -> str.
Variable json_load : str -> option Emb.

(** The files of the cache directory by hash key, the endpoint, the
    requests sent so far. *)
Record env : Type := Env {
  files : dict str;
  client : W;
  requests : list (str * list str)
}.

Definition M (A : Type) : Type := env -> outcome A * env.

Definition ret {A : Type} (a : A) : M A := fun s => (Ok a, s).

Definition bind {A B : Type} (m : M A) (k : A -> M B) : M B :=
  fun s =>
    match m s with
    | (Ok a, s') => k a s'
    | (Raise e, s') => (Raise e, s')
    end.

Definition of_outcome {A : Type} (o : outcome A) : M A := fun s => (o, s).

Local Notation "x <- m ;; k" := (bind m (fun x => k))
  (at level 61, m at next level, right associativity).
Local Notation "m ;;; k" := (bind m (fun _ => k))
  (at level 61, right associativity).

(** [load_cache(hash_key)] *)
Definition load_cache (hash_key : str) : M (option Emb) :=
  fun s =>
    match dict_get hash_key (files s) with
    | Some text => (Ok (json_load text), s)
    | None => (Ok None, s)
    end.

(** [save_cache(hash_key, embedding)]: the temporary file is written and
    moved over the cache file. *)
Definition save_cache (hash_key : str) (embedding : Emb) : M unit :=
  fun s =>
    (Ok tt,
     Env (dict_set hash_key (json_dump embedding) (files s))
         (client s) (requests s)).

(** [client.embeddings.create(model=model, input=input).data] *)
Definition embeddings_create (model : str) (input : list str)
  : M (list Emb) :=
  fun s =>
    let (r, c) := create model input (client s) in
    (r, Env (files s) c (requests s ++ [(model, input)])).

(** [embed_text(text, model, use_cache)] *)
Definition embed_text (text model : str) (use_cache : bool) : M Emb :=
  let hash_key := Embed.get_text_hash text (Some model) in
  cached <- (if use_cache then load_cache hash_key else ret None) ;;
  match cached with
  | Some e => ret e
  | None =>
      data <- embeddings_create model [text] ;;
      embedding <- of_outcome (item data 0) ;;
      (if use_cache then save_cache hash_key embedding else ret tt) ;;;
      ret embedding
  end.

(** The three lists [_process_batch] fills in its first loop. *)
Record scan : Type := Scan {
  batch_embeddings_local : list (option Emb);
  uncached_texts_local : list str;
  uncached_indices_local : list nat
}.

(** The first loop of [_process_batch], from the index [j] on. *)
Fixpoint scan_batch (model : str) (use_cache : bool) (j : nat)
         (batch_texts : list str) (sc : scan) : M scan :=
  match batch_texts with
  | [] => ret sc
  | text :: rest =>
      cached <-
        (if use_cache
         then load_cache (Embed.get_text_hash text (Some model))
         else ret None) ;;
      match cached with
      | Some e =>
          l <- of_outcome (set_item (batch_embeddings_local sc) j (Some e)) ;;
          scan_batch model use_cache (S j) rest
            (Scan l (uncached_texts_local sc) (uncached_indices_local sc))
      | None =>
          scan_batch model use_cache (S j) rest
            (Scan (batch_embeddings_local sc)
                  (uncached_texts_local sc ++ [text])
                  (uncached_indices_local sc ++ [j]))
      end
  end.

(** The second loop, over [resp.data] from the index [k] on. *)
Fixpoint store_batch (model : str) (use_cache : bool) (k : nat)
         (data : list Emb) (texts : list str) (indices : list nat)
         (embeddings : list (option Emb)) : M (list (option Emb)) :=
  match data with
  | [] => ret embeddings
  | emb :: rest =>
      original_idx <- of_outcome (item indices k) ;;
      l <- of_outcome (set_item embeddings original_idx (Some emb)) ;;
      (if use_cache
       then
         text <- of_outcome (item texts k) ;;
         save_cache (Embed.get_text_hash text (Some model)) emb
       else ret tt) ;;;
      store_batch model use_cache (S k) rest texts indices l
  end.

(** [_process_batch(batch_texts)] *)
Definition process_batch (model : str) (use_cache : bool)
           (batch_texts : list str) : M (list (option Emb)) :=
  sc <- scan_batch model use_cache 0 batch_texts
          (Scan (repeat None (List.length batch_texts)) [] []) ;;
  match uncached_texts_local sc with
  | [] => ret (batch_embeddings_local sc)
  | _ :: _ =>
      data <- embeddings_create model (uncached_texts_local sc) ;;
      store_batch model use_cache 0 data (uncached_texts_local sc)
                  (uncached_indices_local sc) (batch_embeddings_local sc)
  end.

(** The loop of [embed_texts] over the starts of the batches. *)
Fixpoint embed_batches (texts : list str) (model : str) (batch_size : Z)
         (use_cache : bool) (starts : list Z)
         (embeddings : list (option Emb)) : M (list (option Emb)) :=
  match starts with
  | [] => ret embeddings
  | i :: rest =>
      let batch := slice texts i (i + batch_size)%Z in
      r <- process_batch model use_cache batch ;;
      embed_batches texts model batch_size use_cache rest (embeddings ++ r)
  end.

(** [embed_texts(texts, model, batch_size, use_cache)]; an entry of the
    result is [None] where the endpoint returned no embedding for it. *)
Definition embed_texts (texts : list str) (model : str) (batch_size : Z)
           (use_cache : bool) : M (list (option Emb)) :=
  starts <- of_outcome (range 0 (Z.of_nat (List.length texts)) batch_size) ;;
  embed_batches texts model batch_size use_cache starts [].

End WithClient.

End EmbedSync.

(** ** Further notions: the file cache *)

Module CacheNotions.
Import Py Model Cli Seq.

Section WithCodec.
Variables Emb W : Type.
Variable create : str -> list str -> W -> outcome (list Emb) * W.
Variable json_dump : Emb -> str.
Variable json_load : str -> option Emb.

(** What the cache directory [files] holds for a text under a model. *)
Definition cached (files : dict str) (model text : str) : option Emb :=
  match dict_get (Embed.get_text_hash text (Some model)) files with
  | Some content => json_load content
  | None => None
  end.

(** What a batch finds in the cache, text by text; nothing when the
    cache is off. *)
Definition lookups (use_cache : bool) (files : dict str) (model : str)
           (batch : list str) : list (option Emb) :=
  map (fun text => if use_cache then cached files model text else None)
      batch.

(** The indices, from [j] on, of the entries that are [None]. *)
Fixpoint holes (j : nat) (l : list (option Emb)) : list nat :=
  match l with
  | [] => []
  | Some _ :: l' => holes (S j) l'
  | None :: l' => j :: holes (S j) l'
  end.

(** The texts of a batch whose entry is [None]. *)
Fixpoint misses (batch : list str) (l : list (option Emb)) : list str :=
  match batch, l with
  | text :: batch', None :: l' => text :: misses batch' l'
  | _ :: batch', Some _ :: l' => misses batch' l'
  | _, _ => []
  end.

(** The entries that are [None] filled, in order, from [data]. *)
Fixpoint fill (l : list (option Emb)) (data : list Emb)
  : list (option Emb) :=
  match l with
  | [] => []
  | Some e :: l' => Some e :: fill l' data
  | None :: l' =>
      match data with
      | d :: data' => Some d :: fill l' data'
      | [] => None :: fill l' []
      end
  end.

(** The cache files after the embeddings [data] of the texts [texts] are
    saved, first to last. *)
Definition saved (model : str) (texts : list str) (data : list Emb)
           (files : dict str) : dict str :=
  fold_left
    (fun f p =>
       dict_set (Embed.get_text_hash (fst p) (Some model))
                (json_dump (snd p)) f)
    (combine texts data) files.

(** An endpoint that answers every request, with one embedding for each
    input. *)
Definition one_per_input : Prop :=
  forall (model : str) (input : list str) (w : W),
    exists (data : list Emb) (w' : W),
      create model input w = (Ok data, w')
      /\ List.length data = List.length input.

(** What reads back from the cache is what was written. *)
Definition round_trip : Prop :=
  forall e : Emb, json_load (json_dump e) = Some e.

End WithCodec.

End CacheNotions.

Module Samples3.
Import Py Cli.

(** A toy endpoint: the embedding of a text is its length; the cache
    stores a number as that many strokes. *)
Definition lengths (model : str) (input : list str) (w : unit)
  : outcome (list nat) * unit :=
  (Ok (map (@List.length ascii) input), w).

Definition strokes (n : nat) : str := repeat "|"%char n.

Definition count (s : str) : option nat := Some (List.length s).

(** An endpoint that answers one embedding too few. *)
Definition stingy (model : str) (input : list str) (w : unit)
  : outcome (list nat) * unit :=
  (Ok (map (@List.length ascii) (removelast input)), w).

Definition fresh : EmbedSync.env unit := EmbedSync.Env [] tt [].

End Samples3.

(** ** JSON values, as the scripts read them from the dataset

    Numbers are integers here; an object is the list of its items, read
    through [dict_get]. *)

Module Json.
Import Py Model Cli.

Local Unset Elimination Schemes.

Inductive value : Type :=
| Null : value
| Bool : bool -> value
| Num : Z -> value
| Str : str -> value
| Arr : list value -> value
| Obj : list (str * value) -> value.

Local Set Elimination Schemes.

Definition object : Type := dict value.

(** [bool(v)] *)
Definition truthy (v : value) : bool :=
  match v with
  | Null => false
  | Bool b => b
  | Num n => negb (n =? 0)%Z
  | Str [] => false
  | Str (_ :: _) => true
  | Arr [] => false
  | Arr (_ :: _) => true
  | Obj [] => false
  | Obj (_ :: _) => true
  end.

(** [d.get(k)] *)
Definition get (k : str) (d : object) : value :=
  match dict_get k d with
  | Some v => v
  | None => Null
  end.

(** [d.get(k, default)] *)
Definition get_or (k : str) (default : value) (d : object) : value :=
  match dict_get k d with
  | Some v => v
  | None => default
  end.

(** [d[k]] *)
Definition index (k : str) (d : object) : outcome value :=
  match dict_get k d with
  | Some v => Ok v
  | None => Raise (lit "KeyError: '" ++ k ++ lit "'")
  end.

(** [x or y] *)
Definition or_ (x y : value) : value := if truthy x then x else y.

(** [v[:n]]: strings and lists are cut, every other value raises. *)
Definition prefix (v : value) (n : nat) : outcome value :=
  match v with
  | Str s => Ok (Str (firstn n s))
  | Arr l => Ok (Arr (firstn n l))
  | _ => Raise (lit "TypeError: object is not subscriptable")
  end.

End Json.

(** ** pinecone_upload.py: the upload *)

Module Uploader.
Import Py Model Cli Seq Json.

(** An entry of [items]: [(node["id"], semantic_text, meta)]. *)
Definition item : Type := (value * str * object)%type.

(** [node.get("semantic_text") or (node.get("description") or "")[:1000]] *)
Definition semantic_text_of (node : object) : outcome value :=
  let st := get (lit "semantic_text") node in
  if truthy st then Ok st
  else prefix (or_ (get (lit "description") node) (Str [])) 1000.

Definition meta_of (node : object) : object :=
  [ (lit "id", get (lit "id") node);
    (lit "type", get (lit "type") node);
    (lit "name", get (lit "name") node);
    (lit "city",
     get_or (lit "city") (get_or (lit "region") (Str []) node) node);
    (lit "tags", get_or (lit "tags") (Arr []) node) ].

(** The first loop of [main]; only a string has a [strip]. *)
Fixpoint build_items (nodes : list object) (items : list item)
  : outcome (list item) :=
  match nodes with
  | [] => Ok items
  | node :: rest =>
      match semantic_text_of node with
      | Raise e => Raise e
      | Ok (Str semantic_text) =>
          match strip semantic_text with
          | [] => build_items rest items
          | _ :: _ =>
              let meta := meta_of node in
              match index (lit "id") node with
              | Raise e => Raise e
              | Ok i => build_items rest (items ++ [(i, semantic_text, meta)])
              end
          end
      | Ok _ => Raise (lit "AttributeError: object has no attribute 'strip'")
      end
  end.

Definition BATCH_SIZE : Z := 32.

Section WithServices.
(** The embeddings endpoint with its codec, as in [embed.py], and the
    vector index. *)
Variables Emb W P : Type.
Variable create : str -> list str -> W -> outcome (list Emb) * W.
Variable json_dump : Emb -> str.
Variable json_load : str -> option Emb.
Variable list_indexes : P -> outcome (list str) * P.
Variable create_index : str -> P -> outcome unit * P.
Variable upsert : list (value * option Emb * object) -> P -> outcome unit * P.
(** [config.PINECONE_INDEX_NAME] *)
Variable index_name : str.

(** [{"id": _id, "values": emb, "metadata": meta}] *)
Definition vector : Type := (value * option Emb * object)%type.

Inductive event : Type :=
| Printed : str -> event
| IndexCreated : str -> event
| Upserted : list vector -> event.

Record world : Type := World {
  embedder : EmbedSync.env W;
  pinecone : P;
  out : list event
}.

Definition M (A : Type) : Type := world -> outcome A * world.

Definition ret {A : Type} (a : A) : M A := fun w => (Ok a, w).

Definition bind {A B : Type} (m : M A) (k : A -> M B) : M B :=
  fun w =>
    match m w with
    | (Ok a, w') => k a w'
    | (Raise e, w') => (Raise e, w')
    end.

Definition of_outcome {A : Type} (o : outcome A) : M A := fun w => (o, w).

Definition emit (e : event) : M unit :=
  fun w => (Ok tt, World (embedder w) (pinecone w) (out w ++ [e])).

Definition print (s : str) : M unit := emit (Printed s).

(** A call into [embed.py]. *)
Definition embedding {A : Type} (m : EmbedSync.M W A) : M A :=
  fun w =>
    let (r, e) := m (embedder w) in
    (r, World e (pinecone w) (out w)).

(** A call to the vector index. *)
Definition index_call {A : Type} (f : P -> outcome A * P) : M A :=
  fun w =>
    let (r, p) := f (pinecone w) in
    (r, World (embedder w) p (out w)).

Local Notation "x <- m ;; k" := (bind m (fun x => k))
  (at level 61, m at next level, right associativity).
Local Notation "m ;;; k" := (bind m (fun _ => k))
  (at level 61, right associativity).

(** [vector_search.create_index_if_not_exists] *)
Definition create_index_if_not_exists : M unit :=
  names <- index_call list_indexes ;;
  if existsb (Py.eqb index_name) names then ret tt
  else
    print (lit "Creating managed index: " ++ index_name) ;;;
    emit (IndexCreated index_name) ;;;
    index_call (create_index index_name).

(** [vector_search.upsert_vectors] *)
Definition upsert_vectors (vectors : list vector) : M unit :=
  emit (Upserted vectors) ;;;
  index_call (upsert vectors).

(** [zip(ids, embeddings, metas)]: as long as the shortest. *)
Fixpoint zip3 (ids : list value) (embeddings : list (option Emb))
         (metas : list object) : list vector :=
  match ids, embeddings, metas with
  | i :: ids', e :: embeddings', m :: metas' =>
      (i, e, m) :: zip3 ids' embeddings' metas'
  | _, _, _ => []
  end.

(** The loop over the batches. *)
Fixpoint upload_batches (batches : list (list item)) : M unit :=
  match batches with
  | [] => ret tt
  | batch :: rest =>
      let ids := map (fun it => fst (fst it)) batch in
      let texts := map (fun it => snd (fst it)) batch in
      let metas := map (fun it => snd it) batch in
      embeddings <-
        embedding
          (EmbedSync.embed_texts create json_dump json_load texts
             (lit "text-embedding-3-small") 32 true) ;;
      let vectors := zip3 ids embeddings metas in
      upsert_vectors vectors ;;;
      upload_batches rest
  end.

(** [main()], for the nodes read from the dataset. *)
Definition main (nodes : list object) : M unit :=
  items <- of_outcome (build_items nodes []) ;;
  print (lit "Preparing to upsert "
         ++ str_of_int (Z.of_nat (List.length items))
         ++ lit " items to Pinecone...") ;;;
  create_index_if_not_exists ;;;
  batches <- of_outcome (Upload.chunked items BATCH_SIZE) ;;
  upload_batches batches ;;;
  print (lit "All items uploaded successfully.").

End WithServices.

End Uploader.

(** ** Further notions: the upload *)

Module UploadNotions.
Import Py Model Cli Json Uploader.

(** [kept] is [l] with some of its elements left out. *)
Inductive Subseq {A : Type} : list A -> list A -> Prop :=
| Subseq_nil : Subseq [] []
| Subseq_skip : forall x kept l, Subseq kept l -> Subseq kept (x :: l)
| Subseq_keep : forall x kept l, Subseq kept l -> Subseq (x :: kept) (x :: l).

(** The item [it] was read from the node [node]: the id is the node's,
    the text is not blank and is the node's [semantic_text], or the first
    1000 characters of its [description] when the former is falsy. *)
Definition taken (node : object) (it : item) : Prop :=
  let '(i, text, meta) := it in
  dict_get (lit "id") node = Some i
  /\ meta = meta_of node
  /\ strip text <> []
  /\ (get (lit "semantic_text") node = Str text
      \/ (truthy (get (lit "semantic_text") node) = false
          /\ exists d, get (lit "description") node = Str d
                       /\ text = firstn 1000 d)).

(** A node with nothing to embed: a [semantic_text] of whitespace only,
    or none and a [description] that is falsy or begins with 1000
    characters of whitespace. *)
Definition blank (node : object) : Prop :=
  (exists ws, get (lit "semantic_text") node = Str ws
              /\ ws <> [] /\ Forall (fun c => is_space c = true) ws)
  \/ (truthy (get (lit "semantic_text") node) = false
      /\ (truthy (get (lit "description") node) = false
          \/ exists d, get (lit "description") node = Str d
                       /\ Forall (fun c => is_space c = true)
                                 (firstn 1000 d))).

(** The batches of vectors upserted in a log. *)
Definition upserts {Emb : Type} (log : list (event Emb))
  : list (list (vector Emb)) :=
  flat_map (fun e => match e with
                     | Upserted vs => [vs]
                     | _ => []
                     end) log.

(** Services of the vector index that never fail. *)
Definition reliable {A P : Type} (f : P -> outcome A * P) : Prop :=
  forall p, exists a p', f p = (Ok a, p').

End UploadNotions.

Module Samples4.
Import Py Model Cli Json.

Definition hue : object :=
  [ (lit "id", Str (lit "city_hue"));
    (lit "type", Str (lit "City"));
    (lit "name", Str (lit "Hue"));
    (lit "semantic_text", Str (lit "Imperial city on the Perfume River."));
    (lit "description", Str (lit "Hue is a city in central Vietnam.")) ].

(** A node whose text is blank although it has a description. *)
Definition hidden : object :=
  [ (lit "semantic_text", Str (lit "  "));
    (lit "description", Str (lit "A quiet beach.")) ].

(** A node with a text and no id. *)
Definition anonymous : object :=
  [ (lit "description", Str (lit "A hidden valley.")) ].

Definition no_indexes (p : unit) : outcome (list str) * unit := (Ok [], p).

Definition make_index (name : str) (p : unit) : outcome unit * unit :=
  (Ok tt, p).

Definition accept (vs : list (value * option nat * object)) (p : unit)
  : outcome unit * unit := (Ok tt, p).

Definition start : Uploader.world nat unit unit :=
  Uploader.World Samples3.fresh tt [].

End Samples4.

(** ** vector_search.py: the query *)

Module VectorSearch.
Import Py Model Cli.

Section WithIndex.
(** The embeddings endpoint with its codec, as in [embed.py]; the vector
    index and what it returns as a match. *)
Variables Emb W P Hit : Type.
Variable create : str -> list str -> W -> outcome (list Emb) * W.
Variable json_dump : Emb -> str.
Variable json_load : str -> option Emb.
(** [index.query(vector=, top_k=, ...).get("matches")]: [None] when the
    response has no such key. *)
Variable query : Emb -> nat -> P -> outcome (option (list Hit)) * P.

Record world : Type := World {
  embedder : EmbedSync.env W;
  index : P;
  queried : list (Emb * nat)
}.

Definition M (A : Type) : Type := world -> outcome A * world.

Definition ret {A : Type} (a : A) : M A := fun w => (Ok a, w).

Definition bind {A B : Type} (m : M A) (k : A -> M B) : M B :=
  fun w =>
    match m w with
    | (Ok a, w') => k a w'
    | (Raise e, w') => (Raise e, w')
    end.

(** A call into [embed.py]. *)
Definition embedding {A : Type} (m : EmbedSync.M W A) : M A :=
  fun w =>
    let (r, e) := m (embedder w) in
    (r, World e (index w) (queried w)).

Definition index_query (vec : Emb) (top_k : nat)
  : M (option (list Hit)) :=
  fun w =>
    let (r, p) := query vec top_k (index w) in
    (r, World (embedder w) p (queried w ++ [(vec, top_k)])).

(** [query_pinecone(query_text, top_k)] *)
Definition query_pinecone (query_text : str) (top_k : nat)
  : M (list Hit) :=
  bind (embedding
          (EmbedSync.embed_text create json_dump json_load query_text
             (lit "text-embedding-3-small") true))
       (fun vec =>
          bind (index_query vec top_k)
               (fun res =>
                  ret (match res with
                       | Some matches => matches
                       | None => []
                       end))).

End WithIndex.

End VectorSearch.

(** ** load_to_neo4j.py and the writes of graph.py *)

Module Loader.
Import Py Model Cli Json.

Inductive event : Type :=
| Ran : str -> object -> event     (* [session.run(cypher, **params)] *)
| Printed : str -> event.

(** [":" + ":".join([node.get("type", "Unknown"), "Entity"])]: only
    strings can be joined. *)
Definition label_cypher (node : object) : outcome str :=
  match get_or (lit "type") (Str (lit "Unknown")) node with
  | Str t => Ok (lit ":" ++ join (lit ":") [t; lit "Entity"])
  | _ => Raise (lit "TypeError: sequence item 0: expected str instance")
  end.

(** [{k: v for k, v in node.items() if k not in ("connections",)}] *)
Definition props_of (node : object) : object :=
  filter (fun kv => negb (Py.eqb (fst kv) (lit "connections"))) node.

(** [for rel in conns]: what iterating over a value yields. *)
Definition iterate (v : value) : outcome (list value) :=
  match v with
  | Arr l => Ok l
  | Str s => Ok (map (fun c => Str [c]) s)
  | Obj d => Ok (map (fun kv => Str (fst kv)) d)
  | _ => Raise (lit "TypeError: object is not iterable")
  end.

Definition constraint_query : str :=
  lit "CREATE CONSTRAINT IF NOT EXISTS FOR (n:Entity) REQUIRE n.id IS UNIQUE".

Definition node_query (label_cypher : str) : str :=
  lit "MERGE (n" ++ label_cypher ++ lit " {id: $id}) SET n += $props".

Definition relationship_query (rel_type : str) : str :=
  lit "MATCH (a:Entity {id: $source_id}), (b:Entity {id: $target_id}) "
  ++ lit "MERGE (a)-[r:" ++ rel_type ++ lit "]->(b) "
  ++ lit "RETURN r".

Section WithDatabase.
(** The graph database, and [str(v)] for a value that is not a string. *)
Variable G : Type.
Variable run : str -> object -> G -> outcome unit * G.
Variable str_of_value : value -> str.

Record world : Type := World {
  graph : G;
  log : list event
}.

Definition M (A : Type) : Type := world -> outcome A * world.

Definition ret {A : Type} (a : A) : M A := fun w => (Ok a, w).

Definition bind {A B : Type} (m : M A) (k : A -> M B) : M B :=
  fun w =>
    match m w with
    | (Ok a, w') => k a w'
    | (Raise e, w') => (Raise e, w')
    end.

Definition of_outcome {A : Type} (o : outcome A) : M A := fun w => (o, w).

Local Notation "x <- m ;; k" := (bind m (fun x => k))
  (at level 61, m at next level, right associativity).
Local Notation "m ;;; k" := (bind m (fun _ => k))
  (at level 61, right associativity).

Definition session_run (cypher : str) (params : object) : M unit :=
  fun w =>
    let (r, g) := run cypher params (graph w) in
    (r, World g (log w ++ [Ran cypher params])).

Definition print (s : str) : M unit :=
  fun w => (Ok tt, World (graph w) (log w ++ [Printed s])).

(** [graph.create_constraints] *)
Definition create_constraints : M unit :=
  session_run constraint_query [].

(** [graph.upsert_node] *)
Definition upsert_node (node : object) : M unit :=
  label <- of_outcome (label_cypher node) ;;
  let props := props_of node in
  i <- of_outcome (index (lit "id") node) ;;
  session_run (node_query label)
              [(lit "id", i); (lit "props", Obj props)].

(** [f"{v}"] *)
Definition format_value (v : value) : str :=
  match v with
  | Str s => s
  | _ => str_of_value v
  end.

(** [graph.create_relationship]; only an object has a [get]. *)
Definition create_relationship (source_id : value) (rel : value)
  : M unit :=
  match rel with
  | Obj d =>
      let rel_type := get_or (lit "relation") (Str (lit "RELATED_TO")) d in
      let target_id := get (lit "target") d in
      if negb (truthy target_id) then ret tt
      else
        session_run (relationship_query (format_value rel_type))
                    [(lit "source_id", source_id);
                     (lit "target_id", target_id)]
  | _ => of_outcome (Raise (lit "AttributeError: object has no attribute 'get'"))
  end.

(** The loop that merges the nodes. *)
Fixpoint upsert_all (nodes : list object) : M unit :=
  match nodes with
  | [] => ret tt
  | node :: rest => upsert_node node ;;; upsert_all rest
  end.

(** The inner loop over the connections of [node]. *)
Fixpoint relate (node : object) (conns : list value) : M unit :=
  match conns with
  | [] => ret tt
  | rel :: rest =>
      i <- of_outcome (index (lit "id") node) ;;
      create_relationship i rel ;;;
      relate node rest
  end.

(** The loop that creates the relationships. *)
Fixpoint relate_all (nodes : list object) : M unit :=
  match nodes with
  | [] => ret tt
  | node :: rest =>
      conns <-
        of_outcome (iterate (get_or (lit "connections") (Arr []) node)) ;;
      relate node conns ;;;
      relate_all rest
  end.

(** [main()], for the nodes read from the dataset. *)
Definition main (nodes : list object) : M unit :=
  create_constraints ;;;
  upsert_all nodes ;;;
  relate_all nodes ;;;
  print (lit "Done loading into Neo4j.").

End WithDatabase.

End Loader.

Module LoadNotions.
Import Py Model Cli Json Loader.

(** The query [q] merges the node [node]. *)
Definition merges (node : object) (q : event) : Prop :=
  exists (label : str) (i : value),
    label_cypher node = Ok label
    /\ dict_get (lit "id") node = Some i
    /\ q = Ran (node_query label)
               [(lit "id", i); (lit "props", Obj (props_of node))].

(** The query [q] creates a relationship from one of [nodes] to a target
    that is not falsy. *)
Definition relates (nodes : list object) (q : event) : Prop :=
  exists (node : object) (i target : value) (rel_type : str),
    In node nodes
    /\ dict_get (lit "id") node = Some i
    /\ truthy target = true
    /\ q = Ran (relationship_query rel_type)
               [(lit "source_id", i); (lit "target_id", target)].

End LoadNotions.

Module Samples5.
Import Py Model Cli Json.

Definition hanoi : object :=
  [ (lit "id", Str (lit "city_hanoi"));
    (lit "type", Str (lit "City"));
    (lit "connections",
     Arr [ Obj [ (lit "relation", Str (lit "Connected_To"));
                 (lit "target", Str (lit "city_hue")) ];
           Obj [ (lit "relation", Str (lit "Near")) ] ]) ].

Definition hue : object :=
  [ (lit "id", Str (lit "city_hue")); (lit "type", Str (lit "City")) ].

Definition accept (cypher : str) (params : object) (g : unit)
  : outcome unit * unit := (Ok tt, g).

Definition show (v : value) : str := lit "?".

Definition hits (vec : nat) (top_k : nat) (p : unit)
  : outcome (option (list str)) * unit := (Ok (Some [lit "city_hue"]), p).

End Samples5.

Module SummaryNotions.
Import Py Model Prompting.

(** The match [m] scores the same as [v]: each is at most the other. *)
Definition scores_as {Score : Type} {SO : ScoreOps Score}
           (v : Score) (m : Match Score) : bool :=
  score_leb (score_of m) v && score_leb v (score_of m).

End SummaryNotions.

(** ** Further notions: a session with collaborators that do not fail *)

Module SessionNotions.
Import Py Model Prompting Cli.

Definition header : str := nl ++ lit "=== Assistant Answer ===" ++ nl.

(** The event prints the header of an answer. *)
Definition is_header (e : event) : bool :=
  match e with
  | Printed s => Py.eqb s header
  | Completion _ _ => false
  end.

(** The number of answers a trace shows. *)
Definition answers (t : list event) : nat :=
  List.length (filter is_header t).

(** A vector search that always returns matches, each with an id. *)
Definition finds {Score W : Type}
           (query_pinecone :
              str -> nat -> W -> outcome (list (Match Score)) * W) : Prop :=
  forall (q : str) (k : nat) (c : W),
    exists ms c',
      query_pinecone q k c = (Ok ms, c')
      /\ Forall (fun m => m_id m <> None) ms.

(** A completion endpoint that always answers. *)
Definition completes {W : Type}
           (chat_completion : list Turn -> Z -> W -> outcome str * W)
  : Prop :=
  forall (p : list Turn) (n : Z) (c : W),
    exists a c', chat_completion p n c = (Ok a, c').

End SessionNotions.

(** * Properties *)

(** ** Strings *)

Import Py Model.

Lemma eqb_char_iff (a b : ascii) : eqb_char a b = true <-> a = b.
Proof. unfold eqb_char. apply Ascii.eqb_eq. Qed.

Lemma eqb_char_refl (a : ascii) : eqb_char a a = true.
Proof. now apply eqb_char_iff. Qed.

Lemma eqb_iff (a b : str) : Py.eqb a b = true <-> a = b.
Proof.
  revert b. induction a as [|x a IH]; intros [|y b]; simpl;
    try (split; [discriminate | congruence]); try tauto.
  rewrite andb_true_iff, eqb_char_iff, IH.
  split; [intros [-> ->]; reflexivity | intros H; now inversion H].
Qed.

Lemma eqb_refl (a : str) : Py.eqb a a = true.
Proof. now apply eqb_iff. Qed.

Lemma startswith_iff (p s : str) :
  startswith p s = true <-> exists t, s = p ++ t.
Proof.
  revert s. induction p as [|x p IH]; intros s; simpl.
  - split; [intros _; now exists s | reflexivity].
  - destruct s as [|y s].
    + split; [discriminate | intros [t Ht]; discriminate].
    + rewrite andb_true_iff, eqb_char_iff, IH. split.
      * intros [-> [t ->]]. now exists t.
      * intros [t Ht]. inversion Ht; subst. split; [reflexivity | now exists t].
Qed.

Lemma startswith_app (p t : str) : startswith p (p ++ t) = true.
Proof. apply startswith_iff. now exists t. Qed.

Lemma contains_iff (sub s : str) :
  contains sub s = true <-> Spec.occurs sub s.
Proof.
  unfold Spec.occurs. induction s as [|c s IH].
  - simpl. rewrite orb_false_r, startswith_iff. split.
    + intros [t Ht]. now exists [], t.
    + intros [pre [post H]]. destruct pre; [now exists post | discriminate].
  - cbn [contains]. rewrite orb_true_iff, startswith_iff, IH. split.
    + intros [[t Ht] | [pre [post H]]].
      * now exists [], t.
      * exists (c :: pre), post. now rewrite H.
    + intros [[|d pre] [post H]].
      * left. now exists post.
      * right. inversion H; subst. now exists pre, post.
Qed.

(** ** The response validator *)

Import Prompting.

Lemma validate_valid_occurs (response : str) (n : Z) :
  validate_response response n = lit "Valid"
  <-> Spec.occurs (lit "Day " ++ str_of_int n) response.
Proof.
  unfold validate_response.
  destruct (contains (lit "Day " ++ str_of_int n) response) eqn:E; cbn [negb].
  - split; [intros _; now apply contains_iff | reflexivity].
  - split; [discriminate |].
    intros H. apply contains_iff in H. congruence.
Qed.

(** C4.  [validate_response] answers exactly ["Valid"] if and only if the
    literal text ["Day N"], with [N] the decimal form of the trip length,
    occurs in the response; in every other case it answers the
    incompleteness message that names the missing day, which is a different
    string. *)
Theorem validate_response_valid_iff :
  forall (response : str) (trip_length : Z),
    let day := lit "Day " ++ str_of_int trip_length in
    (validate_response response trip_length = lit "Valid"
     <-> Spec.occurs day response)
    /\ (validate_response response trip_length = lit "Valid"
        \/ (validate_response response trip_length
              = lit "Response incomplete: Missing " ++ day ++ lit "."
            /\ validate_response response trip_length <> lit "Valid")).
Proof.
  intros response n day. split; [apply validate_valid_occurs |].
  unfold validate_response. fold day.
  destruct (contains day response); simpl.
  - now left.
  - right. split; [reflexivity | discriminate].
Qed.

Lemma contains_char_iff (c : ascii) (s : str) :
  contains [c] s = true <-> In c s.
Proof.
  induction s as [|d s IH]; simpl.
  - split; [discriminate | tauto].
  - rewrite orb_true_iff, andb_true_r, eqb_char_iff, IH.
    split; intros [H | H]; auto.
Qed.

Lemma trip_days_code (query : str) :
  (if contains (lit "4") query then 4%Z else 3%Z) = Spec.trip_days query.
Proof.
  unfold Spec.trip_days.
  destruct (in_dec ascii_dec "4"%char query) as [H | H].
  - apply (contains_char_iff "4"%char) in H.
    change (lit "4") with ["4"%char]. now rewrite H.
  - destruct (contains (lit "4") query) eqn:E; [| reflexivity].
    apply (contains_char_iff "4"%char) in E. contradiction.
Qed.

(** ** Graph expansion *)

Section GraphFacts.
Import Graph.

Lemma fold_add_row (recs : list Row) (acc : list GraphFact) :
  fold_left add_row recs acc = acc ++ flat_map Spec.row_facts recs.
Proof.
  revert acc. induction recs as [|r recs IH]; intros acc; simpl.
  - now rewrite app_nil_r.
  - rewrite IH. unfold add_row, Spec.row_facts.
    destruct (truthy (r_rel2 r)); now rewrite <- ?app_assoc.
Qed.

Lemma collect_facts_flat (recs : list Row) :
  collect_facts recs = firstn 50 (flat_map Spec.row_facts recs).
Proof. unfold collect_facts. now rewrite fold_add_row. Qed.

Lemma length_firstn_le {A : Type} (n : nat) (l : list A) :
  List.length (firstn n l) <= n.
Proof. rewrite length_firstn. lia. Qed.

Lemma desc_bound_one_hop (r : Row) :
  List.length (target_desc (one_hop r)) <= 400.
Proof. apply length_firstn_le. Qed.

Lemma desc_bound_two_hop (r : Row) :
  List.length (target_desc (two_hop r)) <= 400.
Proof. apply length_firstn_le. Qed.

Lemma Forall_firstn {A : Type} (P : A -> Prop) (n : nat) (l : list A) :
  Forall P l -> Forall P (firstn n l).
Proof.
  intros H. revert n. induction H; intros [|n]; simpl; constructor; auto.
Qed.

Lemma desc_bound_rows (recs : list Row) :
  Forall (fun f => List.length (target_desc f) <= 400)
         (flat_map Spec.row_facts recs).
Proof.
  induction recs as [|r recs IH]; simpl; [constructor |].
  constructor; [apply desc_bound_one_hop |].
  destruct (truthy (r_rel2 r)); simpl; [constructor |]; auto.
  apply desc_bound_two_hop.
Qed.

(** Where each fact of the whole list comes from. *)
Lemma rows_origin (recs : list Row) :
  forall (i : nat) (f : GraphFact),
    nth_error (flat_map Spec.row_facts recs) i = Some f ->
    exists r, In r recs /\
      (f = one_hop r
       \/ (truthy (r_rel2 r) = true /\ f = two_hop r /\
           exists j, i = S j /\
             nth_error (flat_map Spec.row_facts recs) j = Some (one_hop r))).
Proof.
  induction recs as [|r recs IH]; intros i f H.
  - destruct i; discriminate.
  - cbn [flat_map] in *. unfold Spec.row_facts at 1 in H.
    unfold Spec.row_facts at 1.
    destruct i as [|i].
    + exists r. split; [now left |]. left. simpl in H. congruence.
    + cbn [app nth_error] in H |- *.
      destruct (truthy (r_rel2 r)) eqn:T.
      * destruct i as [|i].
        -- exists r. split; [now left |]. right.
           simpl in H. split; [exact T |]. split; [congruence |].
           exists 0. split; reflexivity.
        -- cbn [app nth_error] in H.
           destruct (IH _ _ H) as [r' [Hin Hc]].
           exists r'. split; [now right |].
           destruct Hc as [-> | [T' [-> [j [-> Hj]]]]]; [now left |].
           right. repeat split; auto. exists (S (S j)). split; auto.
      * cbn [app] in H.
        destruct (IH _ _ H) as [r' [Hin Hc]].
        exists r'. split; [now right |].
        destruct Hc as [-> | [T' [-> [j [-> Hj]]]]]; [now left |].
        right. repeat split; auto. exists (S j). split; auto.
Qed.

Lemma nth_error_firstn_some {A : Type} (n i : nat) (l : list A) (x : A) :
  nth_error (firstn n l) i = Some x -> i < n /\ nth_error l i = Some x.
Proof.
  rewrite nth_error_firstn. destruct (Nat.ltb_spec i n); [auto | discriminate].
Qed.

(** C7.  Whatever the node ids and whatever records the graph query
    returns, [fetch_graph_context] returns at most 50 facts, each with a
    description of at most 400 characters; every fact is the 1-hop fact of
    some record, with a null source, or the 2-hop fact of a record, and
    then it stands directly after the 1-hop fact of the same record, whose
    target id is its source. *)
Theorem fetch_graph_context_shape :
  forall (session_run : list str -> list Row) (node_ids : list str),
    let facts := fetch_graph_context session_run node_ids in
    List.length facts <= 50
    /\ Forall (fun f => List.length (target_desc f) <= 400) facts
    /\ forall (i : nat) (f : GraphFact),
         nth_error facts i = Some f ->
         exists r, In r (session_run node_ids) /\
           ((f = one_hop r /\ source f = None)
            \/ (f = two_hop r /\
                exists j, i = S j /\
                  nth_error facts j = Some (one_hop r) /\
                  source f = target_id (one_hop r))).
Proof.
  intros session_run node_ids facts. subst facts.
  unfold fetch_graph_context. rewrite collect_facts_flat.
  set (recs := session_run node_ids).
  split; [apply length_firstn_le |].
  split; [apply Forall_firstn, desc_bound_rows |].
  intros i f H. apply nth_error_firstn_some in H as [Hi H].
  destruct (rows_origin _ _ H) as [r [Hin Hc]].
  exists r. split; [exact Hin |].
  destruct Hc as [-> | [_ [-> [j [-> Hj]]]]]; [now left |].
  right. split; [reflexivity |]. exists j. split; [reflexivity |].
  split; [| reflexivity].
  rewrite nth_error_firstn.
  destruct (Nat.ltb_spec j 50); [exact Hj | lia].
Qed.

End GraphFacts.

(** ** The chat loop: validate and retry *)

Section ChatLoop.
Import Cli.
Context {Score : Type} {SO : ScoreOps Score}.
Variable str_of_dict : dict str -> str.
Variable W : Type.
Variable query_pinecone :
  str -> nat -> W -> outcome (list (Match Score)) * W.
Variable session_run : list str -> W -> outcome (list Graph.Row) * W.
Variable chat_completion : list Turn -> Z -> W -> outcome str * W.

Local Abbreviation chat_turn :=
  (chat_turn str_of_dict query_pinecone session_run chat_completion).
Local Abbreviation gather := (Spec.gather query_pinecone session_run).

Lemma skipn_exact {A : Type} (l r : list A) :
  skipn (List.length l) (l ++ r) = r.
Proof. induction l; simpl; auto. Qed.

Lemma skipn_all_nil {A : Type} (l : list A) : skipn (List.length l) l = [].
Proof. induction l; simpl; auto. Qed.

Ltac run_step := cbn [fst snd trace collab stdin].

Ltac calls_of_trace :=
  unfold Spec.new_calls; run_step; rewrite <- ?app_assoc;
  first [rewrite skipn_exact | rewrite skipn_all_nil]; reflexivity.

Ltac validate_cases :=
  match goal with
  | |- context [negb (Py.eqb ?a ?b)] =>
      let V := fresh "V" in
      destruct (Py.eqb a b) eqn:V; cbn [negb];
      [ left; split; [now apply eqb_iff | calls_of_trace]
      | right; split; [intros H; apply eqb_iff in H; congruence |];
        run_step ]
  end.

(** The completion calls of one turn, case by case. *)
Lemma chat_turn_calls (query : str) (preferences : dict str) (w : world W) :
  let w' := snd (chat_turn query preferences w) in
  match gather query w with
  | (Raise _, _) => Spec.new_calls w w' = []
  | (Ok (matches, graph_facts), w1) =>
      let prompt :=
        build_prompt str_of_dict query matches graph_facts
                     (Some preferences) in
      let n := if contains (lit "4") query then 4%Z else 3%Z in
      match chat_completion prompt 1100 (collab w1) with
      | (Raise _, _) => Spec.new_calls w w' = [Completion prompt 1100]
      | (Ok answer, _) =>
          (validate_response answer n = lit "Valid"
           /\ Spec.new_calls w w' = [Completion prompt 1100])
          \/ (validate_response answer n <> lit "Valid"
              /\ Spec.new_calls w w'
                 = [Completion prompt 1100;
                    Completion (prompt ++ followup) 1200])
      end
  end.
Proof.
  cbv [Cli.chat_turn Spec.gather bind call of_outcome try_
       fetch_graph_context ret print emit call_chat].
  destruct (query_pinecone query 10 (collab w)) as [[ms | e] c1]; run_step.
  2: calls_of_trace.
  destruct (ids_of ms) as [ids | e]; run_step.
  2: calls_of_trace.
  destruct (session_run ids c1) as [[recs | e] c2]; run_step.
  - destruct (chat_completion _ 1100 c2) as [[answer | e] c3]; run_step.
    2: calls_of_trace.
    validate_cases.
    destruct (chat_completion _ 1200 c3) as [[answer2 | e] c4];
      calls_of_trace.
  - destruct (chat_completion _ 1100 c2) as [[answer | e'] c3]; run_step.
    2: calls_of_trace.
    validate_cases.
    destruct (chat_completion _ 1200 c3) as [[answer2 | e2] c4];
      calls_of_trace.
Qed.

End ChatLoop.

(** ** The prompt builder *)

Section PromptBuilder.
Context {Score : Type} {SO : ScoreOps Score}.
Variable str_of_dict : dict str -> str.

Fact cot_is_not_concise :
  Py.eqb (lit "chain_of_thought") (lit "concise") = false.
Proof. reflexivity. Qed.

(** [TEMPLATES.get(name, TEMPLATES["concise"])] finds the chain-of-thought
    template under its name and the concise one under every other name. *)
Lemma select_template (n : Z) (name : str) :
  let t :=
    match dict_get name (TEMPLATES n) with
    | Some t => t
    | None => dict_item (lit "concise") (TEMPLATES n)
    end in
  (name = lit "chain_of_thought"
   /\ dict_get (lit "chain_of_thought") (TEMPLATES n) = Some t)
  \/ (name <> lit "chain_of_thought"
      /\ dict_get (lit "concise") (TEMPLATES n) = Some t).
Proof.
  unfold dict_item, TEMPLATES. cbn [dict_get].
  rewrite !eqb_refl, cot_is_not_concise.
  destruct (Py.eqb name (lit "concise")) eqn:E1.
  - right. apply eqb_iff in E1. subst name. split; [discriminate | reflexivity].
  - destruct (Py.eqb name (lit "chain_of_thought")) eqn:E2.
    + left. apply eqb_iff in E2. split; [exact E2 | reflexivity].
    + right. split; [| reflexivity].
      intros H. apply eqb_iff in H. congruence.
Qed.

(** [x or "concise"] keeps a non-empty name and replaces everything else. *)
Lemma or_else_name (o : option str) (d : str) :
  (exists name, o = Some name /\ name <> [] /\ or_else o d = name)
  \/ ((o = None \/ o = Some []) /\ or_else o d = d).
Proof.
  destruct o as [[|c s] |]; unfold or_else; simpl.
  - right. auto.
  - left. exists (c :: s). repeat split. discriminate.
  - right. auto.
Qed.

(** The system turn comes from one of the templates for the trip length of
    the query. *)
Lemma build_prompt_system (user_query : str) (ms : list (Match Score))
      (gf : list GraphFact) (preferences : option (dict str)) :
  let n := if contains (lit "4") user_query then 4%Z else 3%Z in
  exists (name : str) (t : Template) (u : str),
    dict_get name (TEMPLATES n) = Some t
    /\ build_prompt str_of_dict user_query ms gf preferences
       = [ {| role := lit "system";
              content := system t ++ lit " " ++ suffix t |};
           {| role := lit "user"; content := u |} ].
Proof.
  intros n. unfold build_prompt. cbv zeta. fold n.
  match goal with
  | |- context [dict_get ?nm (TEMPLATES n)] =>
      destruct (select_template n nm) as [[_ Ht] | [_ Ht]]
  end; eexists; eexists; eexists; (split; [exact Ht | reflexivity]).
Qed.

(** C9.  Whatever the preferences, [build_prompt] returns two turns, a
    ["system"] turn then a ["user"] turn, and the system turn is built
    from the template named by [preferences["template"]] when that name
    is ["concise"] or ["chain_of_thought"], and from the ["concise"]
    template when the name is missing, empty, or any other. *)
Theorem build_prompt_template_choice :
  forall (user_query : str) (ms : list (Match Score))
         (gf : list GraphFact) (preferences : option (dict str)),
    let n := if contains (lit "4") user_query then 4%Z else 3%Z in
    let requested := Spec.requested_template preferences in
    exists (t : Template) (u : str),
      build_prompt str_of_dict user_query ms gf preferences
      = [ {| role := lit "system";
             content := system t ++ lit " " ++ suffix t |};
          {| role := lit "user"; content := u |} ]
      /\ ((requested = Some (lit "concise")
           /\ dict_get (lit "concise") (TEMPLATES n) = Some t)
          \/ (requested = Some (lit "chain_of_thought")
              /\ dict_get (lit "chain_of_thought") (TEMPLATES n) = Some t)
          \/ (requested <> Some (lit "concise")
              /\ requested <> Some (lit "chain_of_thought")
              /\ dict_get (lit "concise") (TEMPLATES n) = Some t)).
Proof.
  intros user_query ms gf preferences n requested. unfold build_prompt. cbv zeta. fold n.
  set (prefs := match preferences with Some (x :: d) => x :: d | _ => [] end).
  assert (R : dict_get (lit "template") prefs = requested).
  { subst prefs requested. unfold Spec.requested_template.
    destruct preferences as [[|x d] |]; reflexivity. }
  rewrite R.
  set (name := or_else requested (lit "concise")).
  eexists. eexists. split; [reflexivity |].
  destruct (select_template n name) as [[Hn Ht] | [Hn Ht]];
    subst name;
    destruct (or_else_name requested (lit "concise"))
      as [[nm [Ho [Hne Hv]]] | [Ho Hv]];
    rewrite Hv in Hn, Ht |- *.
  - right. left. split; [congruence | exact Ht].
  - discriminate.
  - destruct (Py.eqb nm (lit "concise")) eqn:E.
    + apply eqb_iff in E. left. split; [congruence | exact Ht].
    + right. right. split; [| split; [congruence | exact Ht]].
      intros H. rewrite Ho in H. inversion H as [H1].
      rewrite H1, eqb_refl in E. discriminate.
  - right. right. split; [| split; [| exact Ht]];
      destruct Ho as [-> | ->]; discriminate.
Qed.


End PromptBuilder.

(** ** Retry and trip length in the chat loop *)

Section ChatTurn.
Import Cli.
Context {Score : Type} {SO : ScoreOps Score}.
Variable str_of_dict : dict str -> str.
Variable W : Type.
Variable query_pinecone :
  str -> nat -> W -> outcome (list (Match Score)) * W.
Variable session_run : list str -> W -> outcome (list Graph.Row) * W.
Variable chat_completion : list Turn -> Z -> W -> outcome str * W.

Local Abbreviation chat_turn :=
  (chat_turn str_of_dict query_pinecone session_run chat_completion).
Local Abbreviation gather := (Spec.gather query_pinecone session_run).

(** C3.  In one turn of the chat loop: when the first answer does not
    contain ["Day N"], exactly one more completion call follows, on the
    original prompt extended by one user turn, with a budget of 1200
    tokens against the 1100 of the first call; when the first answer
    contains it, the first call is the only one; when the turn fails
    before or in the first call there is no retry either.  No turn makes
    more than two completion calls. *)
Theorem retry_once_on_incomplete :
  forall (query : str) (preferences : dict str) (w : world W),
    let w' := snd (chat_turn query preferences w) in
    let calls := Spec.new_calls w w' in
    List.length calls <= 2
    /\ (exists t, followup = [t] /\ role t = lit "user")
    /\ (1100 < 1200)%Z
    /\ match gather query w with
       | (Raise _, _) => calls = []
       | (Ok (matches, graph_facts), w1) =>
           let prompt :=
             build_prompt str_of_dict query matches graph_facts
                          (Some preferences) in
           let day :=
             lit "Day "
             ++ str_of_int (if contains (lit "4") query then 4 else 3)%Z in
           match chat_completion prompt 1100 (collab w1) with
           | (Raise _, _) => calls = [Completion prompt 1100]
           | (Ok answer, _) =>
               (Spec.occurs day answer
                /\ calls = [Completion prompt 1100])
               \/ (~ Spec.occurs day answer
                   /\ calls = [Completion prompt 1100;
                               Completion (prompt ++ followup) 1200])
           end
       end.
Proof.
  intros query preferences w w' calls.
  pose proof (chat_turn_calls str_of_dict query_pinecone session_run
                chat_completion query preferences w) as H.
  cbv zeta in H. fold w' in H. fold calls in H.
  assert (M : match gather query w with
              | (Raise _, _) => calls = []
              | (Ok (matches, graph_facts), w1) =>
                  let prompt :=
                    build_prompt str_of_dict query matches graph_facts
                                 (Some preferences) in
                  let day :=
                    lit "Day "
                    ++ str_of_int
                         (if contains (lit "4") query then 4 else 3)%Z in
                  match chat_completion prompt 1100 (collab w1) with
                  | (Raise _, _) => calls = [Completion prompt 1100]
                  | (Ok answer, _) =>
                      (Spec.occurs day answer
                       /\ calls = [Completion prompt 1100])
                      \/ (~ Spec.occurs day answer
                          /\ calls = [Completion prompt 1100;
                                      Completion (prompt ++ followup) 1200])
                  end
              end).
  { destruct (gather query w) as [[[ms gf] | e] w1]; [| exact H].
    cbv zeta.
    destruct (chat_completion _ 1100 (collab w1)) as [[answer | e] c];
      [| exact H].
    destruct H as [[V C] | [V C]].
    - left. split; [now apply validate_valid_occurs | exact C].
    - right. split; [| exact C].
      intros O. apply V. now apply validate_valid_occurs. }
  split; [| split; [eexists; split; reflexivity | split; [lia | exact M]]].
  destruct (gather query w) as [[[ms gf] | e] w1].
  - cbv zeta in M.
    destruct (chat_completion _ 1100 (collab w1)) as [[answer | e] c].
    + destruct M as [[_ ->] | [_ ->]]; simpl; lia.
    + rewrite M. simpl. lia.
  - rewrite M. simpl. lia.
Qed.

(** C5.  The trip length is 4 when the character ["4"] occurs anywhere in
    the raw query and 3 otherwise: the prompt's system turn is built from
    a template for that many days, and the chat loop retries exactly when
    ["Day"] followed by that number is missing from the first answer.
    The query is not read as a number: a query asking for 14 nights, or
    for 4 people and 3 days, gives 4; one asking for five days gives 3. *)
Theorem trip_length_from_digit_four :
  forall (query : str) (ms : list (Match Score)) (gf : list GraphFact)
         (preferences : option (dict str)) (prefs : dict str)
         (w : world W),
    let n := Spec.trip_days query in
    ((In "4"%char query /\ n = 4%Z) \/ (~ In "4"%char query /\ n = 3%Z))
    /\ (exists (name : str) (t : Template) (u : str),
           dict_get name (TEMPLATES n) = Some t
           /\ build_prompt str_of_dict query ms gf preferences
              = [ {| role := lit "system";
                     content := system t ++ lit " " ++ suffix t |};
                  {| role := lit "user"; content := u |} ])
    /\ match gather query w with
       | (Raise _, _) => True
       | (Ok (matches, graph_facts), w1) =>
           let prompt :=
             build_prompt str_of_dict query matches graph_facts
                          (Some prefs) in
           let calls :=
             Spec.new_calls w (snd (chat_turn query prefs w)) in
           match chat_completion prompt 1100 (collab w1) with
           | (Raise _, _) => True
           | (Ok answer, _) =>
               (Spec.occurs (lit "Day " ++ str_of_int n) answer
                /\ calls = [Completion prompt 1100])
               \/ (~ Spec.occurs (lit "Day " ++ str_of_int n) answer
                   /\ calls = [Completion prompt 1100;
                               Completion (prompt ++ followup) 1200])
           end
       end
    /\ Spec.trip_days (lit "14 nights in Hanoi") = 4%Z
    /\ Spec.trip_days (lit "4 people, 3 days") = 4%Z
    /\ Spec.trip_days (lit "five days in Hue") = 3%Z.
Proof.
  intros query ms gf preferences prefs w n.
  split; [| split; [| split; [| repeat split ]]].
  - subst n. unfold Spec.trip_days.
    destruct (in_dec ascii_dec "4"%char query); [left | right]; auto.
  - destruct (build_prompt_system str_of_dict query ms gf preferences)
      as [name [t [u [Ht E]]]].
    rewrite trip_days_code in Ht. fold n in Ht.
    exists name, t, u. split; [exact Ht | exact E].
  - pose proof (chat_turn_calls str_of_dict query_pinecone session_run
                  chat_completion query prefs w) as H.
    cbv zeta in H |- *.
    destruct (gather query w) as [[[ms' gf'] | e] w1]; [| exact I].
    destruct (chat_completion _ 1100 (collab w1)) as [[answer | e] c];
      [| exact I].
    rewrite trip_days_code in H. fold n in H.
    destruct H as [[V C] | [V C]].
    + left. split; [now apply validate_valid_occurs | exact C].
    + right. split; [| exact C].
      intros O. apply V. now apply validate_valid_occurs.
Qed.

End ChatTurn.

(** The scenario of the specification, run: the query asks for a 4-day trip,
    every answer stops at day 3, and the loop makes the first call and one
    retry with the larger budget; a query without the character ["4"] is
    content with the same answer. *)
Example retry_end_to_end :
  Script.budgets
    (Script.run_chat ["low"; "beach"; "Plan a 4-day romantic trip"; "exit"])
  = [1100%Z; 1200%Z]
  /\ Script.budgets
       (Script.run_chat ["low"; "beach"; "Plan a romantic trip"; "exit"])
     = [1100%Z]
  /\ Script.budgets
       (Script.run_chat ["low"; "beach"; "Plan a 4-day romantic trip";
                         "And a long weekend"; "quit"; "ignored"])
     = [1100%Z; 1200%Z; 1100%Z].
Proof. repeat split; vm_compute; reflexivity. Qed.

(** ** The text hash *)

Section TextHash.
Import Sha256 Embed.

Lemma hex_digit_in (x : Z) : In (hex_digit x) hex_alphabet.
Proof.
  unfold hex_digit. apply nth_In.
  change (List.length hex_alphabet) with 16.
  pose proof (Z.mod_pos_bound x 16 eq_refl). lia.
Qed.

Lemma hex_word_chars (x : Z) :
  Forall (fun c => In c hex_alphabet) (hex_word x).
Proof.
  unfold hex_word. cbn [map].
  repeat (apply Forall_cons; [apply hex_digit_in |]). apply Forall_nil.
Qed.

Lemma hexdigest_chars (s : state) :
  Forall (fun c => In c hex_alphabet) (hexdigest s).
Proof.
  unfold hexdigest. repeat (apply Forall_app; split); apply hex_word_chars.
Qed.

Lemma hexdigest_length (s : state) : List.length (hexdigest s) = 64.
Proof. reflexivity. Qed.

Lemma in_all_strs (alphabet : list ascii) (s : str) :
  Forall (fun c => In c alphabet) s ->
  In s (Spec.all_strs alphabet (List.length s)).
Proof.
  induction 1 as [|c s Hc Hs IH]; simpl; [now left |].
  apply in_flat_map. exists c. split; [exact Hc |].
  now apply in_map.
Qed.

Lemma get_text_hash_range (text : str) (model : option str) :
  In (get_text_hash text model) (Spec.all_strs hex_alphabet 64).
Proof.
  unfold get_text_hash.
  set (d := digest _).
  rewrite <- (hexdigest_length d).
  apply in_all_strs, hexdigest_chars.
Qed.

Lemma repeat_injective (c : ascii) (n m : nat) :
  repeat c n = repeat c m -> n = m.
Proof.
  intros H. apply (f_equal (@List.length ascii)) in H.
  now rewrite !repeat_length in H.
Qed.

(** A function from strings into a finite list of values sends two distinct
    strings to one value. *)
Lemma finite_range_collides (f : str -> str) (range : list str) :
  (forall x, In (f x) range) ->
  ~ (forall x y, x <> y -> f x <> f y).
Proof.
  intros Hrange Hinj.
  set (g := fun n : nat => f (repeat "a"%char n)).
  assert (G : Finite.Injective g).
  { intros n m E. destruct (Nat.eq_dec n m) as [|N]; [assumption |].
    exfalso. apply (Hinj (repeat "a"%char n) (repeat "a"%char m)); [| exact E].
    intros R. apply N. now apply repeat_injective in R. }
  pose proof (Finite.Injective_map_NoDup G (seq_NoDup (S (List.length range)) 0))
    as ND.
  apply NoDup_incl_length with (l' := range) in ND.
  - rewrite length_map, length_seq in ND. lia.
  - intros y Hy. apply in_map_iff in Hy as [n [<- _]]. apply Hrange.
Qed.

(** C8, as stated, fails: the hash cannot tell all pairs of distinct texts
    apart, since every hash is one of the finitely many strings of 64
    hexadecimal digits while the texts are unbounded. *)
Lemma get_text_hash_not_injective : ~ Spec.hash_injective.
Proof.
  intros H.
  apply (finite_range_collides (fun t => get_text_hash t None)
           (Spec.all_strs hex_alphabet 64)).
  - intros x. apply get_text_hash_range.
  - intros x y. apply H.
Qed.

Fact hash_hello :
  get_text_hash (lit "hello") None
  = lit "2cf24dba5fb0a30e26e83b2ac5b9e29e1b161e5c1fa7425e73043362938b9824".
Proof. vm_compute. reflexivity. Qed.

Fact hash_world :
  get_text_hash (lit "world") None
  = lit "486ea46224d1bb4fb680f34f7c9ad96a8f24ec88be73ea8e5a6c65260e9cb8a7".
Proof. vm_compute. reflexivity. Qed.

Fact hash_hello_model :
  get_text_hash (lit "hello") (Some (lit "text-embedding-3-small"))
  = lit "dc58e24d27e9f9ec86d4d2d49e2dede654bbdc2b03b1fb9d15e32e8128bf585c".
Proof. vm_compute. reflexivity. Qed.

Fact hash_world_model :
  get_text_hash (lit "world") (Some (lit "text-embedding-3-small"))
  = lit "55b729d739f97a6cf0d77e1dd2c444e286f2996ff5d792e93cdac750cef4cb90".
Proof. vm_compute. reflexivity. Qed.

(** C8, amended.  [get_text_hash] is a function of the text and the model
    (equal arguments give equal hashes); every hash is a string of 64
    lowercase hexadecimal digits; and on the representative samples the
    test suite uses, ["hello"] and ["world"], the hashes differ, with and
    without a model, the model being part of what is hashed. *)
Theorem get_text_hash_deterministic_on_samples :
  (forall (t1 t2 : str) (m1 m2 : option str),
      t1 = t2 -> m1 = m2 -> get_text_hash t1 m1 = get_text_hash t2 m2)
  /\ (forall (t : str) (m : option str),
         List.length (get_text_hash t m) = 64
         /\ Forall (fun c => In c (lit "0123456789abcdef"))
                   (get_text_hash t m))
  /\ get_text_hash (lit "hello") None
     = lit "2cf24dba5fb0a30e26e83b2ac5b9e29e1b161e5c1fa7425e73043362938b9824"
  /\ get_text_hash (lit "hello") None <> get_text_hash (lit "world") None
  /\ get_text_hash (lit "hello") (Some (lit "text-embedding-3-small"))
     <> get_text_hash (lit "world") (Some (lit "text-embedding-3-small"))
  /\ get_text_hash (lit "hello") (Some (lit "text-embedding-3-small"))
     <> get_text_hash (lit "hello") None.
Proof.
  split; [intros t1 t2 m1 m2 -> ->; reflexivity |].
  split.
  { intros t m. split.
    - unfold get_text_hash. apply hexdigest_length.
    - unfold get_text_hash. apply hexdigest_chars. }
  split; [exact hash_hello |].
  rewrite hash_hello, hash_world, hash_hello_model, hash_world_model.
  repeat split; discriminate.
Qed.

End TextHash.

(** ** The context merger *)

Section ContextMerger.
Context {Score : Type} {SO : ScoreOps Score}.

Lemma insert_desc_perm (x : Match Score) (l : list (Match Score)) :
  Permutation (insert_desc x l) (x :: l).
Proof.
  induction l as [|y l IH]; simpl; [reflexivity |].
  destruct (score_leb (score_of y) (score_of x)); [reflexivity |].
  rewrite IH. apply perm_swap.
Qed.

Lemma sorted_desc_perm (l : list (Match Score)) :
  Permutation (sorted_desc l) l.
Proof.
  induction l as [|x l IH]; simpl; [reflexivity |].
  rewrite insert_desc_perm. now constructor.
Qed.

Section Ordered.
Hypothesis leb_total :
  forall a b : Score, score_leb a b = true \/ score_leb b a = true.
Hypothesis leb_trans :
  forall a b c : Score,
    score_leb a b = true -> score_leb b c = true -> score_leb a c = true.

Lemma insert_desc_sorted (x : Match Score) (l : list (Match Score)) :
  StronglySorted Spec.ge_score l ->
  StronglySorted Spec.ge_score (insert_desc x l).
Proof.
  induction 1 as [|y l Hs IH Hy]; simpl.
  - repeat constructor.
  - destruct (score_leb (score_of y) (score_of x)) eqn:E.
    + constructor; [constructor; assumption |].
      constructor; [exact E |].
      eapply Forall_impl; [| exact Hy].
      intros z Hz. unfold Spec.ge_score in *. eapply leb_trans; eassumption.
    + constructor; [exact IH |].
      apply Forall_forall. intros z Hz.
      apply (Permutation_in _ (insert_desc_perm x l)) in Hz.
      destruct Hz as [<- | Hz].
      * unfold Spec.ge_score.
        destruct (leb_total (score_of x) (score_of y)); congruence.
      * rewrite Forall_forall in Hy. now apply Hy.
Qed.

Lemma sorted_desc_sorted (l : list (Match Score)) :
  StronglySorted Spec.ge_score (sorted_desc l).
Proof.
  induction l as [|x l IH]; simpl; [constructor |].
  now apply insert_desc_sorted.
Qed.

Lemma sorted_app_cross (R : Match Score -> Match Score -> Prop)
      (front back : list (Match Score)) :
  StronglySorted R (front ++ back) ->
  forall a b, In a front -> In b back -> R a b.
Proof.
  induction front as [|x front IH]; simpl; intros Hs a b Ha Hb; [easy |].
  apply StronglySorted_inv in Hs as [Hs Hx].
  destruct Ha as [<- | Ha].
  - rewrite Forall_forall in Hx. apply Hx, in_or_app. now right.
  - now apply IH.
Qed.


End Ordered.

End ContextMerger.


(** ** The matcher *)

Section Matcher.
Import Re.

Lemma star_splits_app (p : ascii -> bool) (s : str) :
  forall m r, In (m, r) (star_splits p s) -> m ++ r = s.
Proof.
  induction s as [|c s IH]; simpl; intros m r H.
  - destruct H as [H | []]. now inversion H.
  - destruct (p c).
    + apply in_app_or in H as [H | [H | []]].
      * apply in_map_iff in H as [[m' r'] [E H]]. inversion E; subst.
        simpl. f_equal. now apply IH.
      * now inversion H.
    + destruct H as [H | []]. now inversion H.
Qed.

(** What a match consumes and what it leaves make up the input. *)
Lemma run_app (r : regex) :
  forall s cs m rest cs',
    In (m, rest, cs') (run r s cs) -> m ++ rest = s.
Proof.
  induction r as [| p | a IHa b IHb | a IHa b IHb | p | n a IHa];
    intros s cs m rest cs' H; simpl in H.
  - destruct H as [H | []]. now inversion H.
  - destruct s as [|c s]; [easy |].
    destruct (p c); [| easy]. destruct H as [H | []]. now inversion H.
  - apply in_flat_map in H as [[[m1 s1] c1] [H1 H2]].
    apply in_map_iff in H2 as [[[m2 s2] c2] [E H2]]. inversion E; subst.
    apply IHa in H1. apply IHb in H2. subst. now rewrite app_assoc.
  - apply in_app_or in H as [H | H]; eauto.
  - apply in_map_iff in H as [[m' r'] [E H]]. inversion E; subst.
    now apply star_splits_app in H.
  - apply in_map_iff in H as [[[m' r'] c'] [E H]]. inversion E; subst. eauto.
Qed.

Lemma match_app (r : regex) (s m rest : str) (cs : caps) :
  match_ r s = Some (m, rest, cs) -> m ++ rest = s.
Proof.
  unfold match_. intros H.
  destruct (run r s []) as [|x l] eqn:E; [discriminate |].
  simpl in H. inversion H; subst.
  apply (run_app r s [] m rest cs). rewrite E. now left.
Qed.

(** The scan of [re.sub] does not depend on the fuel it is given, once that
    exceeds the length of the text. *)
Lemma sub_from_fuel (r : regex) (repl : str -> caps -> str) :
  forall fuel fuel' s,
    List.length s < fuel -> List.length s < fuel' ->
    sub_from fuel r repl s = sub_from fuel' r repl s.
Proof.
  induction fuel as [|fuel IH]; intros fuel' s H H'; [lia |].
  destruct fuel' as [|fuel']; [lia |].
  simpl. destruct (match_ r s) as [[[m rest] cs] |] eqn:E.
  - destruct m as [|c m].
    + destruct s as [|d s]; [reflexivity |].
      simpl in H, H'. do 2 f_equal. apply IH; lia.
    + apply match_app in E. subst s. simpl in H, H'.
      rewrite length_app in H, H'. f_equal. apply IH; lia.
  - destruct s as [|d s]; [reflexivity |].
    simpl in H, H'. f_equal. apply IH; lia.
Qed.

(** One step of [re.sub]. *)
Lemma sub_step (r : regex) (repl : str -> caps -> str) (s : str) :
  sub r repl s =
  match match_ r s with
  | Some (c :: m, rest, cs) => repl (c :: m) cs ++ sub r repl rest
  | Some ([], _, cs) =>
      repl [] cs ++
      match s with
      | [] => []
      | c :: s' => c :: sub r repl s'
      end
  | None =>
      match s with
      | [] => []
      | c :: s' => c :: sub r repl s'
      end
  end.
Proof.
  unfold sub at 1. cbn [sub_from].
  destruct (match_ r s) as [[[m rest] cs] |] eqn:E.
  - destruct m as [|c m].
    + destruct s as [|d s]; reflexivity.
    + apply match_app in E. subst s. f_equal.
      apply sub_from_fuel; simpl; rewrite ?length_app; simpl; lia.
  - destruct s as [|d s]; reflexivity.
Qed.

(** A replacement that gives back what was matched changes nothing. *)
Lemma sub_identity (r : regex) (repl : str -> caps -> str) :
  (forall g0 cs, repl g0 cs = g0) ->
  forall s, sub r repl s = s.
Proof.
  intros Hid s.
  remember (List.length s) as n eqn:Hn. revert s Hn.
  induction n as [n IH] using lt_wf_ind. intros s Hn.
  rewrite sub_step.
  destruct (match_ r s) as [[[m rest] cs] |] eqn:E.
  - destruct m as [|c m].
    + rewrite Hid. destruct s as [|d s]; [reflexivity |].
      simpl. f_equal. apply (IH (List.length s)); simpl in Hn; lia.
    + rewrite Hid. apply match_app in E. rewrite <- E. f_equal.
      apply (IH (List.length rest)); [| reflexivity].
      subst n s. simpl. rewrite length_app. lia.
  - destruct s as [|d s]; [reflexivity |].
    f_equal. apply (IH (List.length s)); simpl in Hn; lia.
Qed.

(** Where the pattern matches nowhere, [re.sub] changes nothing. *)
Lemma sub_no_match (r : regex) (repl : str -> caps -> str) (s : str) :
  search r s = None -> sub r repl s = s.
Proof.
  induction s as [|c s IH]; intros H; rewrite sub_step; simpl in H;
    destruct (match_ r _) as [x |]; try discriminate; [reflexivity |].
  f_equal. now apply IH.
Qed.

End Matcher.

(** ** The citation expander: lookup tables *)

Section Lookup.
Context {Score : Type} {SO : ScoreOps Score}.

Lemma meta_step_falsy (d : dict Metadata) (m : Match Score) :
  truthy (m_id m) = false -> Spec.meta_step d m = d.
Proof. unfold Spec.meta_step. destruct (m_id m); [intros -> |]; reflexivity. Qed.

Lemma fact_step_falsy (d : dict GraphFact) (f : GraphFact) :
  truthy (target_id f) = false -> Spec.fact_step d f = d.
Proof. unfold Spec.fact_step. destruct (target_id f); [intros -> |]; reflexivity. Qed.

(** Entries without an identifier leave a table as it is. *)
Lemma fold_skips_falsy {A V : Type} (step : dict V -> A -> dict V)
      (keep : A -> bool) :
  (forall d a, keep a = false -> step d a = d) ->
  forall l d, fold_left step l d = fold_left step (filter keep l) d.
Proof.
  intros Hskip. induction l as [|a l IH]; intros d; simpl; [reflexivity |].
  destruct (keep a) eqn:E; simpl.
  - apply IH.
  - rewrite (Hskip d a E). apply IH.
Qed.

Lemma meta_by_id_filter (ms : list (Match Score)) :
  meta_by_id_of ms = meta_by_id_of (filter (fun m => truthy (m_id m)) ms).
Proof.
  unfold meta_by_id_of.
  apply (fold_skips_falsy (@Spec.meta_step Score) (fun m => truthy (m_id m))).
  intros d m. apply meta_step_falsy.
Qed.

Lemma facts_by_id_filter (gf : list GraphFact) :
  facts_by_id_of gf
  = facts_by_id_of (filter (fun f => truthy (target_id f)) gf).
Proof.
  unfold facts_by_id_of.
  apply (fold_skips_falsy Spec.fact_step (fun f => truthy (target_id f))).
  intros d f. apply fact_step_falsy.
Qed.

Lemma filter_none {A : Type} (keep : A -> bool) (l : list A) :
  Forall (fun a => keep a = false) l -> filter keep l = [].
Proof. induction 1 as [|a l E _ IH]; simpl; [| rewrite E]; auto. Qed.

(** With both tables empty the callback gives every placeholder back. *)
Lemma repl_empty (g0 : str) (cs : Re.caps) : repl [] [] g0 cs = g0.
Proof. reflexivity. Qed.

(** C10.  With the matches and graph facts omitted, [None] or empty,
    [expand_citations] returns the response unchanged; the same holds when
    no match has an id and no fact a target id; and in general matches
    without an id and facts without a target id can be left out without
    changing the result. *)
Theorem expand_citations_without_sources :
  forall response : str,
    expand_citations response (@None (list (Match Score))) None = response
    /\ expand_citations response (Some (@nil (Match Score))) (Some [])
       = response
    /\ (forall (ms : list (Match Score)) (gf : list GraphFact),
           Forall (fun m => truthy (m_id m) = false) ms ->
           Forall (fun f => truthy (target_id f) = false) gf ->
           expand_citations response (Some ms) (Some gf) = response)
    /\ (forall (ms : list (Match Score)) (gf : list GraphFact),
           expand_citations response (Some ms) (Some gf)
           = expand_citations response
               (Some (filter (fun m => truthy (m_id m)) ms))
               (Some (filter (fun f => truthy (target_id f)) gf))).
Proof.
  intros response.
  assert (E : Re.sub placeholder_re (repl [] []) response = response)
    by (apply sub_identity; intros; apply repl_empty).
  split; [exact E |]. split; [exact E |]. split.
  - intros ms gf Hm Hf. unfold expand_citations.
    rewrite meta_by_id_filter, facts_by_id_filter.
    rewrite (filter_none _ Hm), (filter_none _ Hf). exact E.
  - intros ms gf. unfold expand_citations.
    now rewrite <- meta_by_id_filter, <- facts_by_id_filter.
Qed.

End Lookup.

(** ** Stripping *)

Section Stripping.



Lemma lstrip_split (s : str) :
  exists ws, s = ws ++ lstrip s /\ Spec.spaces ws.
Proof.
  induction s as [|c s [ws [E H]]]; simpl.
  - exists []. split; [reflexivity | constructor].
  - destruct (is_space c) eqn:C.
    + exists (c :: ws). split; [simpl; congruence | now constructor].
    + exists []. split; [reflexivity | constructor].
Qed.

Lemma lstrip_stops (s : str) : Spec.stops is_space (lstrip s).
Proof.
  induction s as [|c s IH]; simpl; [exact I |].
  destruct (is_space c) eqn:C; [exact IH | exact C].
Qed.

Lemma lstrip_fixed (s : str) : Spec.stops is_space s -> lstrip s = s.
Proof. destruct s as [|c s]; simpl; [reflexivity | now intros ->]. Qed.

Lemma lstrip_idem (s : str) : lstrip (lstrip s) = lstrip s.
Proof. apply lstrip_fixed, lstrip_stops. Qed.

Lemma lstrip_spaces (ws : str) : Spec.spaces ws -> lstrip ws = [].
Proof. induction 1 as [|c ws C _ IH]; simpl; [| rewrite C]; auto. Qed.

Lemma lstrip_spaces_app (ws s : str) :
  Spec.spaces ws -> lstrip (ws ++ s) = lstrip s.
Proof. induction 1 as [|c ws C _ IH]; simpl; [| rewrite C]; auto. Qed.

Lemma lstrip_nil_spaces (s : str) : lstrip s = [] -> Spec.spaces s.
Proof.
  intros H. destruct (lstrip_split s) as [ws [E Hw]].
  rewrite H, app_nil_r in E. now subst.
Qed.

Lemma strip_lstrip (s : str) : strip (lstrip s) = strip s.
Proof. unfold strip. now rewrite lstrip_idem. Qed.

Lemma strip_spaces (ws : str) : Spec.spaces ws -> strip ws = [].
Proof. intros H. unfold strip. now rewrite (lstrip_spaces H). Qed.

End Stripping.

(** ** First matches *)

Unset Implicit Arguments.

Section FirstMatch.
Import Re.

Lemma first_is_hd {A : Type} (x : A) (l : list A) :
  Spec.first_is x l -> hd_error l = Some x.
Proof. intros [o ->]. reflexivity. Qed.

Lemma first_is_map {A B : Type} (f : A -> B) (x : A) (l : list A) :
  Spec.first_is x l -> Spec.first_is (f x) (map f l).
Proof. intros [o ->]. now exists (map f o). Qed.

Lemma first_is_app {A : Type} (x : A) (l l' : list A) :
  Spec.first_is x l -> Spec.first_is x (l ++ l').
Proof. intros [o ->]. now exists (o ++ l'). Qed.

Lemma star_splits_stops (p : ascii -> bool) (t : str) :
  Spec.stops p t -> star_splits p t = [([], t)].
Proof.
  destruct t as [|d t]; simpl; [reflexivity |]. now intros ->.
Qed.

(** The greedy choice: a repetition first takes the whole run. *)
Lemma star_splits_first (p : ascii -> bool) (ws t : str) :
  Forall (fun c => p c = true) ws -> Spec.stops p t ->
  Spec.first_is (ws, t) (star_splits p (ws ++ t)).
Proof.
  intros Hw Ht. induction Hw as [|c ws C _ IH]; simpl.
  - rewrite (star_splits_stops p t Ht). now exists [].
  - rewrite C. apply first_is_app.
    apply (first_is_map (fun mr => (c :: fst mr, snd mr)) _ _ IH).
Qed.

(** The first retreat: the run without its last character. *)
Lemma star_splits_second (p : ascii -> bool) (ws : str) (w : ascii) (t : str) :
  Forall (fun c => p c = true) ws -> p w = true -> Spec.stops p t ->
  exists others,
    star_splits p (ws ++ w :: t) = (ws ++ [w], t) :: (ws, w :: t) :: others.
Proof.
  intros Hw Cw Ht. induction Hw as [|c ws C _ [o IH]]; simpl.
  - rewrite Cw, (star_splits_stops p t Ht). now exists [].
  - rewrite C, IH. simpl. eexists. reflexivity.
Qed.

Lemma run_star_first (p : ascii -> bool) (ws t : str) (cs : caps) :
  Forall (fun c => p c = true) ws -> Spec.stops p t ->
  Spec.first_is (ws, t, cs) (run (Star p) (ws ++ t) cs).
Proof.
  intros Hw Ht. cbn [run].
  apply (first_is_map (fun mr => (fst mr, snd mr, cs)) _ _
                      (star_splits_first p ws t Hw Ht)).
Qed.

Lemma run_cat_first (a b : regex) (s : str) (cs : caps)
      (m1 s1 : str) (c1 : caps) (m2 s2 : str) (c2 : caps) :
  Spec.first_is (m1, s1, c1) (run a s cs) ->
  Spec.first_is (m2, s2, c2) (run b s1 c1) ->
  Spec.first_is (m1 ++ m2, s2, c2) (run (Cat a b) s cs).
Proof.
  intros [o1 E1] [o2 E2]. cbn [run]. rewrite E1. cbn [flat_map].
  rewrite E2. cbn [map app]. eexists. reflexivity.
Qed.

Lemma run_cat_second (a b : regex) (s : str) (cs : caps)
      (x y : result) (o1 : list result) (m2 s2 : str) (c2 : caps) :
  run a s cs = x :: y :: o1 ->
  run b (snd (fst x)) (snd x) = [] ->
  Spec.first_is (m2, s2, c2) (run b (snd (fst y)) (snd y)) ->
  Spec.first_is (fst (fst y) ++ m2, s2, c2) (run (Cat a b) s cs).
Proof.
  intros E1 Ex [o2 E2]. cbn [run]. rewrite E1.
  destruct x as [[mx sx] cx], y as [[my sy] cy]. cbn [fst snd] in *.
  cbn [flat_map]. rewrite Ex, E2. cbn [map app]. eexists. reflexivity.
Qed.

Lemma run_chr_same (c : ascii) (s : str) (cs : caps) :
  run (chr c) (c :: s) cs = [([c], s, cs)].
Proof. unfold chr. cbn [run]. now rewrite eqb_char_refl. Qed.

Lemma run_chr_other (c d : ascii) (s : str) (cs : caps) :
  c <> d -> run (chr c) (d :: s) cs = [].
Proof.
  intros N. unfold chr. cbn [run].
  destruct (eqb_char c d) eqn:E; [| reflexivity].
  apply eqb_char_iff in E. contradiction.
Qed.

Lemma run_cat_chr_other (c d : ascii) (b : regex) (s : str) (cs : caps) :
  c <> d -> run (Cat (chr c) b) (d :: s) cs = [].
Proof. intros N. cbn [run]. fold (chr c). now rewrite run_chr_other. Qed.

Lemma run_grp_first (n : nat) (a : regex) (s : str) (cs : caps)
      (m s' : str) (c' : caps) :
  Spec.first_is (m, s', c') (run a s cs) ->
  Spec.first_is (m, s', (n, m) :: c') (run (Grp n a) s cs).
Proof.
  intros H. cbn [run].
  apply (first_is_map
           (fun x : result => let '(m, s', c) := x in (m, s', (n, m) :: c))
           _ _ H).
Qed.

Lemma run_plus_first (p : ascii -> bool) (c : ascii) (g t : str) (cs : caps) :
  p c = true -> Forall (fun d => p d = true) g -> Spec.stops p t ->
  Spec.first_is (c :: g, t, cs) (run (Plus p) (c :: g ++ t) cs).
Proof.
  intros C Hg Ht. unfold Plus.
  apply (run_cat_first (Cls p) (Star p) (c :: g ++ t) cs
           [c] (g ++ t) cs g t cs).
  - cbn [run]. rewrite C. now exists [].
  - now apply run_star_first.
Qed.

Lemma run_plus_stops (p : ascii -> bool) (t : str) (cs : caps) :
  Spec.stops p t -> run (Plus p) t cs = [].
Proof.
  intros Ht. unfold Plus. cbn [run].
  destruct t as [|d t]; [reflexivity |]. simpl in Ht. now rewrite Ht.
Qed.

Lemma run_cat_nil (a b : regex) (s : str) (cs : caps) :
  run a s cs = [] -> run (Cat a b) s cs = [].
Proof. intros E. cbn [run]. rewrite E. reflexivity. Qed.

Lemma run_cat_single (a b : regex) (s : str) (cs : caps) (x : result) :
  run a s cs = [x] -> run b (snd (fst x)) (snd x) = [] ->
  run (Cat a b) s cs = [].
Proof.
  intros E1 E2. cbn [run]. rewrite E1. destruct x as [[m1 s1] c1].
  cbn [fst snd flat_map] in *. rewrite E2. reflexivity.
Qed.

Lemma run_cls_false (p : ascii -> bool) (c : ascii) (t : str) (cs : caps) :
  p c = false -> run (Cls p) (c :: t) cs = [].
Proof. intros E. cbn [run]. now rewrite E. Qed.

Lemma run_cls_true (p : ascii -> bool) (c : ascii) (t : str) (cs : caps) :
  p c = true -> run (Cls p) (c :: t) cs = [([c], t, cs)].
Proof. intros E. cbn [run]. now rewrite E. Qed.

End FirstMatch.

(** ** The citation expander: placeholders *)

Section Placeholders.
Import Re.

Lemma space_is_not_bracket (w : ascii) :
  is_space w = true -> none_of "]" w = true.
Proof.
  intros H. unfold none_of. destruct (eqb_char "]" w) eqn:E; [| reflexivity].
  apply eqb_char_iff in E. subst w. discriminate H.
Qed.

Lemma no_bracket_class (s : str) :
  ~ In "]"%char s -> Forall (fun d => none_of "]" d = true) s.
Proof.
  intros H. apply Forall_forall. intros d Hd. unfold none_of.
  destruct (eqb_char "]" d) eqn:E; [| reflexivity].
  apply eqb_char_iff in E. subst d. contradiction.
Qed.

Lemma run_closing (post : str) (cs : caps) :
  run Spec.closing ("]"%char :: post) cs = [(["]"%char], post, cs)].
Proof. reflexivity. Qed.

Lemma run_from_group (c : ascii) (g post : str) (cs : caps) :
  Forall (fun d => none_of "]" d = true) (c :: g) ->
  Spec.first_is ((c :: g) ++ ["]"%char], post, (1, c :: g) :: cs)
                (run Spec.from_group ((c :: g) ++ "]"%char :: post) cs).
Proof.
  intros H. inversion H as [|? ? Hc Hg]; subst.
  apply (run_cat_first (Grp 1 (Plus (none_of "]"))) Spec.closing _ cs
           (c :: g) ("]"%char :: post) ((1, c :: g) :: cs)).
  - apply run_grp_first. apply run_plus_first; [exact Hc | exact Hg |].
    reflexivity.
  - rewrite run_closing. now exists [].
Qed.

Lemma run_from_group_closed (post : str) (cs : caps) :
  run Spec.from_group ("]"%char :: post) cs = [].
Proof. reflexivity. Qed.

(** The placeholder pattern at an opening bracket: it takes everything up
    to the first closing bracket, and group 1 strips to the same text as
    what stands between the brackets. *)
Lemma placeholder_match (inner post : str) :
  inner <> [] -> ~ In "]"%char inner ->
  exists g,
    match_ placeholder_re ("["%char :: inner ++ "]"%char :: post)
    = Some ("["%char :: inner ++ ["]"%char], post, [(1, g)])
    /\ strip g = strip inner.
Proof.
  intros Hne Hnb.
  pose proof (no_bracket_class inner Hnb) as Hcls.
  destruct (lstrip_split inner) as [ws [E Hws]].
  assert (A : exists g,
             Spec.first_is (inner ++ ["]"%char], post, [(1, g)])
               (run Spec.after_open (inner ++ "]"%char :: post) [])
             /\ strip g = strip inner).
  { destruct (lstrip inner) as [|c g] eqn:L.
    - (* only whitespace between the brackets *)
      rewrite app_nil_r in E. subst ws.
      destruct (exists_last Hne) as [ws' [w Ew]].
      exists [w]. subst inner. pose proof Hws as Hall.
      apply Forall_app in Hws as [Hws' Hw].
      inversion Hw as [|? ? Cw _]; subst.
      split.
      + destruct (star_splits_second is_space ws' w ("]"%char :: post)
                    Hws' Cw eq_refl) as [o S].
        rewrite <- app_assoc. cbn [app].
        replace (ws' ++ [w; "]"%char]) with (ws' ++ [w] ++ ["]"%char])
          by reflexivity.
        apply (run_cat_second (Star is_space) Spec.from_group _ []
                 (ws' ++ [w], "]"%char :: post, [])
                 (ws', w :: "]"%char :: post, []) 
                 (map (fun mr => (fst mr, snd mr, @nil (nat * str))) o)).
        * cbn [run]. rewrite <- app_assoc. cbn [app]. rewrite S. reflexivity.
        * apply run_from_group_closed.
        * cbn [fst snd].
          apply (run_from_group w [] post []).
          constructor; [now apply space_is_not_bracket | constructor].
      + rewrite (strip_spaces Hall).
        apply strip_spaces. constructor; [exact Cw | constructor].
    - (* text between the brackets *)
      exists (c :: g). split.
      + rewrite E. rewrite <- !app_assoc.
        apply (run_cat_first (Star is_space) Spec.from_group _ []
                 ws ((c :: g) ++ "]"%char :: post) []).
        * apply run_star_first; [exact Hws |].
          pose proof (lstrip_stops inner) as St. rewrite L in St. exact St.
        * apply run_from_group.
          rewrite E in Hcls. now apply Forall_app in Hcls as [_ ?].
      + rewrite <- L. apply strip_lstrip. }
  destruct A as [g [[o R] Hg]]. exists g. split; [| exact Hg].
  unfold match_, placeholder_re. cbn [cats].
  change (Cat (chr "[") (Cat (Star is_space)
            (Cat (Grp 1 (Plus (none_of "]"))) (Cat (Star is_space) (chr "]")))))
    with (Cat (chr "[") Spec.after_open).
  cbn [run]. fold (chr "["). rewrite run_chr_same. cbn [flat_map].
  rewrite R. reflexivity.
Qed.

(** Before the first opening bracket nothing matches. *)
Lemma placeholder_no_match (c : ascii) (s : str) :
  c <> "["%char -> match_ placeholder_re (c :: s) = None.
Proof.
  intros N. unfold match_, placeholder_re. cbn [cats].
  rewrite run_cat_chr_other; [reflexivity | congruence].
Qed.

Lemma sub_placeholder_prefix (f : str -> caps -> str) (pre s : str) :
  ~ In "["%char pre ->
  sub placeholder_re f (pre ++ s) = pre ++ sub placeholder_re f s.
Proof.
  induction pre as [|c pre IH]; intros H; [reflexivity |].
  cbn [app]. rewrite sub_step, placeholder_no_match.
  - f_equal. apply IH. intros Hin. apply H. now right.
  - intros ->. apply H. now left.
Qed.

(** The expander on a text whose first opening bracket starts a
    placeholder. *)
Lemma sub_placeholder_at (f : str -> caps -> str) (pre inner post : str) :
  ~ In "["%char pre -> inner <> [] -> ~ In "]"%char inner ->
  exists g,
    strip g = strip inner
    /\ sub placeholder_re f (pre ++ "["%char :: inner ++ "]"%char :: post)
       = pre ++ f ("["%char :: inner ++ ["]"%char]) [(1, g)]
         ++ sub placeholder_re f post.
Proof.
  intros Hpre Hne Hnb.
  destruct (placeholder_match inner post Hne Hnb) as [g [M Hg]].
  exists g. split; [exact Hg |].
  rewrite sub_placeholder_prefix by exact Hpre.
  f_equal. rewrite sub_step, M. reflexivity.
Qed.

End Placeholders.

(** ** The citation expander: what a placeholder becomes *)

Section Citations.
Context {Score : Type} {SO : ScoreOps Score}.

Lemma has_id_true (k : str) (m : Match Score) :
  Spec.has_id k m = true -> m_id m = Some k /\ k <> [].
Proof.
  unfold Spec.has_id. destruct (m_id m) as [i |]; [| discriminate].
  rewrite andb_true_iff. intros [T E]. apply eqb_iff in E. subst i.
  split; [reflexivity |]. intros ->. discriminate.
Qed.

Lemma last_with_id_some (k : str) (ms : list (Match Score)) (m : Match Score) :
  Spec.last_with_id k ms = Some m -> In m ms /\ m_id m = Some k /\ k <> [].
Proof.
  induction ms as [|x ms IH]; simpl; [discriminate |].
  destruct (Spec.last_with_id k ms) as [m' |].
  - intros E. inversion E; subst. destruct (IH eq_refl) as [H1 H2]. auto.
  - destruct (Spec.has_id k x) eqn:H; [| discriminate].
    intros E. inversion E; subst. split; [now left | now apply has_id_true].
Qed.

Lemma last_with_id_none (k : str) (ms : list (Match Score)) :
  Forall (fun m => m_id m <> Some k) ms -> Spec.last_with_id k ms = None.
Proof.
  induction 1 as [|x ms N _ IH]; simpl; [reflexivity |].
  rewrite IH. destruct (Spec.has_id k x) eqn:H; [| reflexivity].
  apply has_id_true in H as [H _]. contradiction.
Qed.

Lemma last_with_id_exists (k : str) (ms : list (Match Score))
      (m0 : Match Score) :
  In m0 ms -> m_id m0 = Some k -> k <> [] ->
  exists m, Spec.last_with_id k ms = Some m.
Proof.
  intros Hin Hid Hk. induction ms as [|x ms IH]; [contradiction |].
  simpl. destruct (Spec.last_with_id k ms) as [m' |] eqn:E; [now exists m' |].
  destruct Hin as [-> | Hin].
  - unfold Spec.has_id. rewrite Hid, eqb_refl.
    destruct k; [congruence |]. simpl. now exists m0.
  - destruct (IH Hin) as [m Hm]. discriminate.
Qed.

(** Reading [meta_by_id]: the metadata of the last match with the id. *)
Lemma dict_get_meta (k : str) (ms : list (Match Score)) :
  forall d : dict Metadata,
    dict_get k (fold_left Spec.meta_step ms d)
    = match Spec.last_with_id k ms with
      | Some m => Some (meta_of m)
      | None => dict_get k d
      end.
Proof.
  induction ms as [|x ms IH]; intros d; simpl; [reflexivity |].
  rewrite IH. destruct (Spec.last_with_id k ms); [reflexivity |].
  unfold Spec.meta_step, Spec.has_id.
  destruct (m_id x) as [i |]; [| reflexivity].
  destruct (truthy (Some i)); [| reflexivity].
  simpl. destruct (Py.eqb k i); reflexivity.
Qed.

Lemma dict_get_facts_none (k : str) (gf : list GraphFact) :
  Forall (fun f => target_id f <> Some k) gf ->
  forall d : dict GraphFact,
    dict_get k (fold_left Spec.fact_step gf d) = dict_get k d.
Proof.
  induction 1 as [|f gf N _ IH]; intros d; simpl; [reflexivity |].
  rewrite IH. unfold Spec.fact_step.
  destruct (target_id f) as [i |]; [| reflexivity].
  destruct (truthy (Some i)); [| reflexivity].
  simpl. destruct (Py.eqb k i) eqn:E; [| reflexivity].
  apply eqb_iff in E. subst i. contradiction.
Qed.


End Citations.



(** ** The sanitizer: collapsing spaces *)

Section Collapse.
Import Re.

Lemma span (p : ascii -> bool) (s : str) :
  exists ws t,
    s = ws ++ t /\ Forall (fun c => p c = true) ws /\ Spec.stops p t.
Proof.
  induction s as [|c s [ws [t [E [Hw Ht]]]]].
  - exists [], []. repeat split. constructor.
  - destruct (p c) eqn:C.
    + exists (c :: ws), t. subst s. repeat split; [now constructor | exact Ht].
    + exists [], (c :: s). repeat split; [constructor | exact C].
Qed.

Lemma starts_space_stops (t : str) :
  Spec.stops (eqb_char " ") t -> Spec.starts_space t = false.
Proof. destruct t; simpl; auto. Qed.

Lemma stops_starts_space (t : str) :
  Spec.starts_space t = false -> Spec.stops (eqb_char " ") t.
Proof. destruct t; simpl; auto. Qed.

(** No match where the text does not begin with two spaces. *)
Lemma spaces_no_match (c : ascii) (t : str) :
  eqb_char " " c && Spec.starts_space t = false ->
  match_ spaces_re (c :: t) = None.
Proof.
  intros H. unfold match_, spaces_re, AtLeast2.
  destruct (eqb_char " " c) eqn:C.
  - cbn [andb] in H.
    rewrite (run_cat_single (Cls (eqb_char " ")) (Plus (eqb_char " "))
               (c :: t) [] ([c], t, [])); [reflexivity | |].
    + now apply run_cls_true.
    + apply run_plus_stops, stops_starts_space, H.
  - rewrite run_cat_nil; [reflexivity |]. now apply run_cls_false.
Qed.

Lemma spaces_no_match_nil : match_ spaces_re [] = None.
Proof. reflexivity. Qed.

(** Where it begins with two, the match takes the whole run. *)
Lemma spaces_match (ws t : str) :
  Forall (fun c => eqb_char " " c = true) ws ->
  Spec.stops (eqb_char " ") t ->
  match_ spaces_re (" "%char :: " "%char :: ws ++ t)
  = Some (" "%char :: " "%char :: ws, t, []).
Proof.
  intros Hw Ht. unfold match_. apply first_is_hd.
  unfold spaces_re, AtLeast2.
  apply (run_cat_first (Cls (eqb_char " ")) (Plus (eqb_char " "))
           (" "%char :: " "%char :: ws ++ t) []
           [" "%char] (" "%char :: ws ++ t) [] (" "%char :: ws) t []).
  - cbn [run]. rewrite eqb_char_refl. now exists [].
  - apply run_plus_first; [apply eqb_char_refl | exact Hw | exact Ht].
Qed.

Lemma collapse_nil : Spec.collapse [] = [].
Proof. reflexivity. Qed.

Lemma collapse_keep (c : ascii) (t : str) :
  eqb_char " " c && Spec.starts_space t = false ->
  Spec.collapse (c :: t) = c :: Spec.collapse t.
Proof.
  intros H. unfold Spec.collapse, sub_const.
  rewrite sub_step, (spaces_no_match c t H). reflexivity.
Qed.

Lemma collapse_run (ws t : str) :
  Forall (fun c => eqb_char " " c = true) ws ->
  Spec.stops (eqb_char " ") t ->
  Spec.collapse (" "%char :: " "%char :: ws ++ t)
  = " "%char :: Spec.collapse t.
Proof.
  intros Hw Ht. unfold Spec.collapse, sub_const.
  rewrite sub_step, (spaces_match ws t Hw Ht). reflexivity.
Qed.

(** After the step no two spaces stand in a row, and the result begins with
    a space only if the text did. *)
Lemma collapse_spec (n : nat) :
  forall s : str,
    List.length s <= n ->
    Spec.has_dbl (Spec.collapse s) = false
    /\ (Spec.starts_space (Spec.collapse s) = true ->
        Spec.starts_space s = true).
Proof.
  induction n as [n IH] using lt_wf_ind. intros s Hn.
  destruct s as [|c t]; [split; [reflexivity | discriminate] |].
  destruct (eqb_char " " c && Spec.starts_space t) eqn:D.
  - apply andb_true_iff in D as [Dc Dt].
    apply eqb_char_iff in Dc. subst c.
    destruct t as [|d u]; [discriminate |]. cbn [Spec.starts_space] in Dt.
    apply eqb_char_iff in Dt. subst d.
    destruct (span (eqb_char " ") u) as [ws [t' [E [Hw Ht]]]]. subst u.
    rewrite (collapse_run ws t' Hw Ht).
    assert (L : List.length t' < n).
    { simpl in Hn. rewrite length_app in Hn. lia. }
    destruct (IH (List.length t') L t' (le_n _)) as [H1 H2].
    split; [| reflexivity].
    cbn [Spec.has_dbl]. rewrite H1, orb_false_r, eqb_char_refl. cbn [andb].
    destruct (Spec.starts_space (Spec.collapse t')) eqn:S; [| reflexivity].
    rewrite (starts_space_stops t' Ht) in H2. discriminate (H2 eq_refl).
  - rewrite (collapse_keep c t D).
    assert (L : List.length t < n) by (simpl in Hn; lia).
    destruct (IH (List.length t) L t (le_n _)) as [H1 H2].
    split; [| intros H; exact H].
    cbn [Spec.has_dbl]. rewrite H1, orb_false_r.
    destruct (eqb_char " " c) eqn:C; [| reflexivity]. cbn [andb] in *.
    destruct (Spec.starts_space (Spec.collapse t)) eqn:S; [| reflexivity].
    rewrite (H2 eq_refl) in D. discriminate.
Qed.

Lemma collapse_no_dbl (s : str) : Spec.has_dbl (Spec.collapse s) = false.
Proof. apply (collapse_spec (List.length s) s (le_n _)). Qed.

(** A text without two spaces in a row has no match and stays as it is. *)
Lemma search_spaces_none (s : str) :
  Spec.has_dbl s = false -> search spaces_re s = None.
Proof.
  induction s as [|c t IH]; intros H; [reflexivity |].
  cbn [Spec.has_dbl] in H. apply orb_false_iff in H as [H1 H2].
  cbn [search]. rewrite (spaces_no_match c t H1). now apply IH.
Qed.

Lemma collapse_fixed (s : str) : Spec.has_dbl s = false -> Spec.collapse s = s.
Proof.
  intros H. unfold Spec.collapse, sub_const.
  apply sub_no_match, search_spaces_none, H.
Qed.

End Collapse.

(** ** The sanitizer: lines *)

Section Lines.

Lemma rstrip_rev (s : str) : rstrip (rev s) = rev (lstrip s).
Proof. unfold rstrip. now rewrite rev_involutive. Qed.

Lemma rstrip_prefix (s : str) :
  exists ws, s = rstrip s ++ ws /\ Spec.spaces ws.
Proof.
  destruct (lstrip_split (rev s)) as [ws [E H]].
  exists (rev ws). split.
  - unfold rstrip. rewrite <- rev_app_distr, <- E. now rewrite rev_involutive.
  - unfold Spec.spaces in *. now apply Forall_rev.
Qed.

Lemma rstrip_idem (s : str) : rstrip (rstrip s) = rstrip s.
Proof. unfold rstrip. now rewrite rev_involutive, lstrip_idem. Qed.

Lemma rstrip_stops (s : str) :
  Spec.stops is_space s -> Spec.stops is_space (rstrip s).
Proof.
  intros H. destruct (rstrip_prefix s) as [ws [E _]].
  destruct (rstrip s) as [|c t]; [exact I |].
  rewrite E in H. exact H.
Qed.

Lemma strip_idem (s : str) : strip (strip s) = strip s.
Proof.
  unfold strip.
  rewrite (lstrip_fixed _ (rstrip_stops _ (lstrip_stops s))).
  apply rstrip_idem.
Qed.

Lemma lstrip_app_keep (l r : str) :
  lstrip l <> [] -> lstrip (l ++ r) = lstrip l ++ r.
Proof.
  induction l as [|c l IH]; simpl; [congruence |].
  destruct (is_space c); [exact IH | reflexivity].
Qed.

(** *** Joining *)

Lemma join_cons (sep l : str) (L : list str) :
  L <> [] -> join sep (l :: L) = l ++ sep ++ join sep L.
Proof. destruct L; [congruence | reflexivity]. Qed.

Lemma join_snoc (sep l : str) (L : list str) :
  L <> [] -> join sep (L ++ [l]) = join sep L ++ sep ++ l.
Proof.
  induction L as [|x L IH]; [congruence |]. intros _.
  destruct L as [|y L]; [reflexivity |].
  change ((x :: y :: L) ++ [l]) with (x :: ((y :: L) ++ [l])).
  rewrite join_cons by (destruct L; discriminate).
  rewrite IH by discriminate.
  rewrite (join_cons sep x (y :: L)) by discriminate.
  now rewrite <- !app_assoc.
Qed.

Lemma rev_join (L : list str) :
  rev (join nl L) = join nl (rev (map (@rev ascii) L)).
Proof.
  induction L as [|l L IH]; [reflexivity |].
  destruct L as [|y L]; [reflexivity |].
  rewrite join_cons by discriminate.
  rewrite !rev_app_distr, IH.
  change (rev (map (@rev ascii) (l :: y :: L)))
    with (rev (map (@rev ascii) (y :: L)) ++ [rev l]).
  rewrite join_snoc.
  - now rewrite <- app_assoc.
  - simpl. intros H. apply app_eq_nil in H as [_ H]. discriminate.
Qed.

(** *** Stripping a joined text, line by line *)

Lemma lstrip_join (W : list str) :
  lstrip (join nl W) = join nl (Spec.ltrimL W).
Proof.
  induction W as [|l W IH]; [reflexivity |].
  destruct W as [|y W].
  - simpl. destruct (lstrip l); reflexivity.
  - rewrite join_cons by discriminate. cbn [Spec.ltrimL].
    destruct (lstrip l) as [|c t] eqn:L.
    + rewrite (lstrip_spaces_app _ (lstrip_nil_spaces _ L)). exact IH.
    + rewrite lstrip_app_keep by (rewrite L; discriminate).
      rewrite L. reflexivity.
Qed.

Lemma rstrip_join (W : list str) :
  rstrip (join nl W) = join nl (Spec.rtrimL W).
Proof.
  unfold rstrip, Spec.rtrimL. now rewrite rev_join, lstrip_join, rev_join.
Qed.

Lemma strip_join (W : list str) :
  strip (join nl W) = join nl (Spec.rtrimL (Spec.ltrimL W)).
Proof. unfold strip. now rewrite lstrip_join, rstrip_join. Qed.

(** What holds of every line and survives stripping holds of the lines
    that are left. *)
Lemma ltrimL_Forall (Q : str -> Prop) (W : list str) :
  (forall l, Q l -> Q (lstrip l)) ->
  Forall Q W -> Forall Q (Spec.ltrimL W).
Proof.
  intros HQ. induction 1 as [|l W Hl HW IH]; simpl; [constructor |].
  destruct (lstrip l) as [|c t] eqn:L; [exact IH |].
  constructor; [| exact HW]. rewrite <- L. now apply HQ.
Qed.

Lemma rtrimL_Forall (Q : str -> Prop) (W : list str) :
  (forall l, Q l -> Q (rstrip l)) ->
  Forall Q W -> Forall Q (Spec.rtrimL W).
Proof.
  intros HQ HW. unfold Spec.rtrimL.
  apply Forall_rev. apply Forall_map.
  apply (ltrimL_Forall (fun x => Q (rev x))).
  - intros x Hx. rewrite <- rstrip_rev. now apply HQ.
  - apply Forall_rev. apply Forall_map.
    eapply Forall_impl; [| exact HW].
    intros l Hl. now rewrite rev_involutive.
Qed.

Lemma ltrimL_head (W : list str) :
  match Spec.ltrimL W with
  | [] => True
  | h :: _ => h <> []
  end.
Proof.
  induction W as [|l W IH]; simpl; [exact I |].
  destruct (lstrip l); [exact IH | discriminate].
Qed.

Lemma rtrimL_ends_ok (W : list str) : Spec.ends_ok (Spec.rtrimL W).
Proof.
  unfold Spec.ends_ok, Spec.rtrimL.
  pose proof (ltrimL_head (rev (map (@rev ascii) W))) as H.
  destruct (Spec.ltrimL (rev (map (@rev ascii) W))) as [|h t].
  - simpl. discriminate.
  - simpl. rewrite last_last. intros E. apply H.
    apply (f_equal (@rev ascii)) in E. now rewrite rev_involutive in E.
Qed.

End Lines.

(** ** The sanitizer: note lines *)

Section Notes.
Import Re.

Lemma star_splits_class (p : ascii -> bool) (s : str) :
  forall m r, In (m, r) (star_splits p s) -> Forall (fun c => p c = true) m.
Proof.
  induction s as [|c s IH]; simpl; intros m r H.
  - destruct H as [H | []]. inversion H. constructor.
  - destruct (p c) eqn:C.
    + apply in_app_or in H as [H | [H | []]].
      * apply in_map_iff in H as [[m' r'] [E H]]. inversion E; subst.
        constructor; [exact C | eauto].
      * inversion H. constructor.
    + destruct H as [H | []]. inversion H. constructor.
Qed.

Lemma star_splits_in (p : ascii -> bool) (m r : str) :
  Forall (fun c => p c = true) m -> In (m, r) (star_splits p (m ++ r)).
Proof.
  induction 1 as [|c m C _ IH]; simpl.
  - destruct r as [|d r]; simpl; [now left |].
    destruct (p d); [apply in_or_app; right |]; now left.
  - rewrite C. apply in_or_app. left.
    apply in_map_iff. exists (m, r). split; [reflexivity | exact IH].
Qed.

(** A match of a text is a match of every longer text. *)
Lemma run_app_more (r : regex) (b : str) :
  forall a cs m rest cs',
    In (m, rest, cs') (run r a cs) ->
    In (m, rest ++ b, cs') (run r (a ++ b) cs).
Proof.
  induction r as [| p | x IHx y IHy | x IHx y IHy | p | n x IHx];
    intros a cs m rest cs' H; cbn [run] in *.
  - destruct H as [H | []]. inversion H; subst. now left.
  - destruct a as [|c a]; [easy |]. cbn [app].
    destruct (p c); [| easy].
    destruct H as [H | []]. inversion H; subst. now left.
  - apply in_flat_map in H as [[[m1 s1] c1] [H1 H2]].
    apply in_map_iff in H2 as [[[m2 s2] c2] [E H2]]. inversion E; subst.
    apply in_flat_map. exists (m1, s1 ++ b, c1). split; [now apply IHx |].
    apply in_map_iff. exists (m2, rest ++ b, cs'). split; [reflexivity |].
    now apply IHy.
  - apply in_or_app. apply in_app_or in H as [H | H]; [left | right]; eauto.
  - apply in_map_iff in H as [[m' r'] [E H]]. cbn [fst snd] in E.
    injection E as -> -> ->.
    apply in_map_iff. exists (m, rest ++ b). split; [reflexivity |].
    pose proof (star_splits_app _ _ _ _ H) as A.
    pose proof (star_splits_class _ _ _ _ H) as C.
    subst a. rewrite <- app_assoc. now apply star_splits_in.
  - apply in_map_iff in H as [[[m' r'] c'] [E H]]. inversion E; subst.
    apply in_map_iff. exists (m, rest ++ b, c'). split; [reflexivity |].
    now apply IHx.
Qed.

Lemma note_re_parts : note_re = Cat (Star is_space) Spec.note_words.
Proof. reflexivity. Qed.

Lemma is_note_run (l : str) : is_note l = true <-> run note_re l [] <> [].
Proof.
  unfold is_note, match_. destruct (run note_re l []); simpl.
  - split; [discriminate | congruence].
  - split; [discriminate | reflexivity].
Qed.

(** A note line: whitespace, then one of the two words. *)
Lemma is_note_iff (l : str) :
  is_note l = true <->
  exists m r, l = m ++ r /\ Spec.spaces m /\ run Spec.note_words r [] <> [].
Proof.
  rewrite is_note_run, note_re_parts. split.
  - intros H. destruct (run _ l []) as [|[[m0 s0] c0] o] eqn:E; [congruence |].
    assert (I : In (m0, s0, c0) (run (Cat (Star is_space) Spec.note_words) l []))
      by (rewrite E; now left).
    cbn [run] in I.
    apply in_flat_map in I as [[[m1 s1] c1] [H1 H2]].
    apply in_map_iff in H1 as [[m r] [E1 H1]]. cbn [fst snd] in E1.
    injection E1 as <- <- <-.
    exists m, r. split; [| split].
    + symmetry. eapply star_splits_app; eassumption.
    + eapply star_splits_class; eassumption.
    + apply in_map_iff in H2 as [x [_ H2]]. intros N. now rewrite N in H2.
  - intros [m [r [E [Hm Hr]]]]. subst l.
    destruct (run Spec.note_words r []) as [|[[m2 s2] c2] o] eqn:R;
      [congruence |].
    assert (I : In (m ++ m2, s2, c2)
                   (run (Cat (Star is_space) Spec.note_words) (m ++ r) [])).
    { cbn [run]. apply in_flat_map. exists (m, r, []). split.
      - apply in_map_iff. exists (m, r). split; [reflexivity |].
        now apply star_splits_in.
      - apply in_map_iff. exists (m2, s2, c2). split; [reflexivity |].
        rewrite R. now left. }
    intros N. now rewrite N in I.
Qed.

(** Neither word begins with whitespace. *)
Lemma note_words_not_space (c : ascii) (r : str) :
  is_space c = true -> run Spec.note_words (c :: r) [] = [].
Proof.
  intros H. unfold Spec.note_words.
  cbv [word seq_of lit list_ascii_of_string].
  cbn [run]. fold (chr "N") (chr "V").
  rewrite !run_chr_other; [reflexivity | |]; intros <-; discriminate H.
Qed.

Lemma note_words_stops (r : str) :
  run Spec.note_words r [] <> [] -> Spec.stops is_space r.
Proof.
  destruct r as [|c r]; cbn [Spec.stops]; [trivial |]. intros H.
  destruct (is_space c) eqn:C; [| reflexivity].
  now rewrite (note_words_not_space c r C) in H.
Qed.

Lemma is_note_lstrip (l : str) : is_note (lstrip l) = is_note l.
Proof.
  apply eq_true_iff_eq. rewrite !is_note_iff. split.
  - intros [m [r [E [Hm Hr]]]].
    destruct (lstrip_split l) as [ws [El Hws]].
    exists (ws ++ m), r. split; [| split; [| exact Hr]].
    + rewrite El at 1. rewrite E. now rewrite app_assoc.
    + apply Forall_app. split; assumption.
  - intros [m [r [E [Hm Hr]]]]. subst l.
    exists [], r. split; [| split; [constructor | exact Hr]].
    rewrite (lstrip_spaces_app r Hm).
    apply lstrip_fixed. now apply note_words_stops.
Qed.

Lemma is_note_prefix (a b : str) :
  is_note a = true -> is_note (a ++ b) = true.
Proof.
  rewrite !is_note_run. intros H.
  destruct (run note_re a []) as [|[[m s] c] o] eqn:E; [congruence |].
  assert (I : In (m, s ++ b, c) (run note_re (a ++ b) [])).
  { apply run_app_more. rewrite E. now left. }
  intros N. now rewrite N in I.
Qed.

Lemma not_note_lstrip (l : str) :
  is_note l = false -> is_note (lstrip l) = false.
Proof. now rewrite is_note_lstrip. Qed.

Lemma not_note_rstrip (l : str) :
  is_note l = false -> is_note (rstrip l) = false.
Proof.
  intros H. destruct (is_note (rstrip l)) eqn:E; [| reflexivity].
  destruct (rstrip_prefix l) as [ws [El _]].
  apply (is_note_prefix _ ws) in E. rewrite <- El in E. congruence.
Qed.

End Notes.

(** ** The sanitizer: splitting into lines *)

Section Splitting.

Lemma splitlines_lbfree (s : str) : Forall Spec.lbfree (splitlines s).
Proof.
  induction s as [|c s IH]; cbn [splitlines]; [constructor |].
  destruct (is_linebreak c) eqn:C.
  - destruct (eqb_char c "013" && startswith ["010"%char] s); [exact IH |].
    constructor; [constructor | exact IH].
  - destruct (splitlines s) as [|l ls].
    + repeat constructor. exact C.
    + inversion IH; subst. constructor; [| assumption].
      constructor; assumption.
Qed.

(** The first line begins as the text does. *)
Lemma splitlines_first_char (s : str) (d : ascii) (l : str) (ls : list str) :
  splitlines s = (d :: l) :: ls -> exists s', s = d :: s'.
Proof.
  destruct s as [|c s]; cbn [splitlines]; [discriminate |].
  destruct (is_linebreak c) eqn:C.
  - destruct (eqb_char c "013" && startswith ["010"%char] s) eqn:R;
      [| discriminate].
    apply andb_true_iff in R as [_ R].
    apply startswith_iff in R as [t ->]. discriminate.
  - destruct (splitlines s); intros H; inversion H; subst; now exists s.
Qed.

Lemma has_dbl_tail (c : ascii) (s : str) :
  Spec.has_dbl (c :: s) = false -> Spec.has_dbl s = false.
Proof. cbn [Spec.has_dbl]. intros H. now apply orb_false_iff in H. Qed.

Lemma splitlines_no_dbl (s : str) :
  Spec.has_dbl s = false ->
  Forall (fun l => Spec.has_dbl l = false) (splitlines s).
Proof.
  induction s as [|c s IH]; intros H; cbn [splitlines]; [constructor |].
  pose proof (IH (has_dbl_tail c s H)) as IH'.
  destruct (is_linebreak c).
  - destruct (eqb_char c "013" && startswith ["010"%char] s); [exact IH' |].
    constructor; [reflexivity | exact IH'].
  - destruct (splitlines s) as [|l ls] eqn:E.
    + constructor; [| constructor]. cbn. now rewrite andb_false_r.
    + inversion IH' as [|? ? Hl Hls]; subst. constructor; [| exact Hls].
      cbn [Spec.has_dbl]. rewrite Hl, orb_false_r.
      cbn [Spec.has_dbl] in H. apply orb_false_iff in H as [H _].
      destruct l as [|d l]; [now rewrite andb_false_r |].
      destruct (splitlines_first_char s d l ls E) as [s' ->]. exact H.
Qed.

Lemma splitlines_line (l : str) :
  Spec.lbfree l -> l <> [] -> splitlines l = [l].
Proof.
  induction 1 as [|c l C Hl IH]; [congruence |]. intros _.
  cbn [splitlines]. rewrite C.
  destruct l as [|d l]; [reflexivity |].
  rewrite IH by discriminate. reflexivity.
Qed.

Lemma splitlines_app_nl (l rest : str) :
  Spec.lbfree l -> splitlines (l ++ nl ++ rest) = l :: splitlines rest.
Proof.
  induction 1 as [|c l C Hl IH]; [reflexivity |].
  cbn [app splitlines]. rewrite C. cbn [app] in IH. now rewrite IH.
Qed.

Lemma splitlines_join (L : list str) :
  Forall Spec.lbfree L -> Spec.ends_ok L -> splitlines (join nl L) = L.
Proof.
  induction 1 as [|l L Hl HL IH]; intros E; [reflexivity |].
  destruct L as [|y L].
  - apply splitlines_line; [exact Hl | exact E].
  - rewrite join_cons by discriminate.
    rewrite (splitlines_app_nl l _ Hl). f_equal. apply IH. exact E.
Qed.

(** *** Two spaces in a row *)

Lemma has_dbl_app (a b : str) :
  Spec.has_dbl (a ++ b) = false ->
  Spec.has_dbl a = false /\ Spec.has_dbl b = false.
Proof.
  induction a as [|c a IH]; cbn [app]; intros H; [now split |].
  cbn [Spec.has_dbl] in *. apply orb_false_iff in H as [H1 H2].
  destruct (IH H2) as [Ha Hb]. split; [| exact Hb].
  rewrite Ha, orb_false_r.
  destruct a as [|d a]; [now rewrite andb_false_r | exact H1].
Qed.

Lemma has_dbl_app_nl (a b : str) :
  Spec.has_dbl a = false -> Spec.has_dbl b = false ->
  Spec.has_dbl (a ++ nl ++ b) = false.
Proof.
  intros Ha Hb. induction a as [|c a IH]; cbn [app].
  - cbn [Spec.has_dbl app nl]. exact Hb.
  - cbn [Spec.has_dbl] in *. apply orb_false_iff in Ha as [H1 H2].
    rewrite (IH H2), orb_false_r.
    destruct a as [|d a]; [now rewrite andb_false_r | exact H1].
Qed.

Lemma has_dbl_join (L : list str) :
  Forall (fun l => Spec.has_dbl l = false) L ->
  Spec.has_dbl (join nl L) = false.
Proof.
  induction 1 as [|l L Hl HL IH]; [reflexivity |].
  destruct L as [|y L]; [exact Hl |].
  rewrite join_cons by discriminate. now apply has_dbl_app_nl.
Qed.

Lemma no_dbl_lstrip (l : str) :
  Spec.has_dbl l = false -> Spec.has_dbl (lstrip l) = false.
Proof.
  intros H. destruct (lstrip_split l) as [ws [E _]].
  rewrite E in H. now apply has_dbl_app in H.
Qed.

Lemma no_dbl_rstrip (l : str) :
  Spec.has_dbl l = false -> Spec.has_dbl (rstrip l) = false.
Proof.
  intros H. destruct (rstrip_prefix l) as [ws [E _]].
  rewrite E in H. now apply has_dbl_app in H.
Qed.

Lemma lbfree_lstrip (l : str) : Spec.lbfree l -> Spec.lbfree (lstrip l).
Proof.
  intros H. destruct (lstrip_split l) as [ws [E _]].
  unfold Spec.lbfree in *. rewrite E in H. now apply Forall_app in H.
Qed.

Lemma lbfree_rstrip (l : str) : Spec.lbfree l -> Spec.lbfree (rstrip l).
Proof.
  intros H. destruct (rstrip_prefix l) as [ws [E _]].
  unfold Spec.lbfree in *. rewrite E in H. now apply Forall_app in H.
Qed.

End Splitting.

(** ** The sanitizer *)

Section Sanitizer.

Lemma filter_all {A : Type} (f : A -> bool) (l : list A) :
  Forall (fun a => f a = true) l -> filter f l = l.
Proof. induction 1 as [|a l E _ IH]; simpl; [| rewrite E, IH]; auto. Qed.

Lemma filter_Forall {A : Type} (Q : A -> Prop) (f : A -> bool) (l : list A) :
  Forall Q l -> Forall Q (filter f l).
Proof.
  induction 1 as [|a l Ha _ IH]; simpl; [constructor |].
  destruct (f a); [constructor |]; assumption.
Qed.

Lemma filter_holds {A : Type} (f : A -> bool) (l : list A) :
  Forall (fun a => f a = true) (filter f l).
Proof.
  induction l as [|a l IH]; simpl; [constructor |].
  destruct (f a) eqn:E; [constructor |]; assumption.
Qed.

(** The lines of a finished text. *)
Lemma finish_lines (z : str) :
  exists W : list str,
    Spec.finish z = join nl W
    /\ Forall Spec.lbfree W
    /\ Forall (fun l => negb (is_note l) = true) W
    /\ Spec.ends_ok W
    /\ (Spec.has_dbl z = false ->
        Forall (fun l => Spec.has_dbl l = false) W).
Proof.
  set (keep := fun ln => negb (is_note ln)).
  set (V := filter keep (splitlines z)).
  exists (Spec.rtrimL (Spec.ltrimL V)).
  split; [apply strip_join |].
  split.
  { apply rtrimL_Forall; [apply lbfree_rstrip |].
    apply ltrimL_Forall; [apply lbfree_lstrip |].
    apply filter_Forall, splitlines_lbfree. }
  split.
  { apply (rtrimL_Forall (fun l => negb (is_note l) = true)).
    - intros l H. apply negb_true_iff in H. apply negb_true_iff.
      now apply not_note_rstrip.
    - apply (ltrimL_Forall (fun l => negb (is_note l) = true)).
      + intros l H. apply negb_true_iff in H. apply negb_true_iff.
        now apply not_note_lstrip.
      + apply (filter_holds keep). }
  split; [apply rtrimL_ends_ok |].
  intros H.
  apply rtrimL_Forall; [apply no_dbl_rstrip |].
  apply ltrimL_Forall; [apply no_dbl_lstrip |].
  apply filter_Forall, splitlines_no_dbl, H.
Qed.

(** The last steps of the sanitizer change nothing when done again. *)
Lemma finish_fixed (z : str) : Spec.finish (Spec.finish z) = Spec.finish z.
Proof.
  destruct (finish_lines z) as [W [E [Hlb [Hk [He _]]]]].
  unfold Spec.finish at 1. rewrite E.
  rewrite (splitlines_join W Hlb He), (filter_all _ W Hk).
  rewrite <- E. unfold Spec.finish. apply strip_idem.
Qed.

Lemma finish_no_dbl (z : str) :
  Spec.has_dbl z = false -> Spec.has_dbl (Spec.finish z) = false.
Proof.
  intros H. destruct (finish_lines z) as [W [E [_ [_ [_ Hd]]]]].
  rewrite E. apply has_dbl_join, Hd, H.
Qed.

Lemma sanitize_answer_steps (x : str) :
  sanitize_answer x
  = Spec.finish
      (Spec.collapse
         (Re.sub_const paren_leak_re []
            (Re.sub_const bracket_leak_re []
               (Re.sub_const score_re [] x)))).
Proof. reflexivity. Qed.

(** C1, amended.  When the sanitized text has no ["score: N.NN"] token and
    no bracketed or parenthesized ["node_id: ..."] leak left in it,
    sanitizing it again returns it unchanged. *)
Theorem sanitize_answer_idempotent_when_clean :
  forall x : str,
    let y := sanitize_answer x in
    Re.search score_re y = None ->
    Re.search bracket_leak_re y = None ->
    Re.search paren_leak_re y = None ->
    sanitize_answer y = y.
Proof.
  intros x y H1 H2 H3.
  assert (D : Spec.has_dbl y = false).
  { subst y. rewrite sanitize_answer_steps.
    apply finish_no_dbl, collapse_no_dbl. }
  rewrite (sanitize_answer_steps y).
  unfold Re.sub_const.
  rewrite (sub_no_match score_re _ y H1).
  rewrite (sub_no_match bracket_leak_re _ y H2).
  rewrite (sub_no_match paren_leak_re _ y H3).
  rewrite (collapse_fixed y D).
  subst y. rewrite sanitize_answer_steps. apply finish_fixed.
Qed.

End Sanitizer.

(** C1, as stated, fails.  Removing the score token inside
    ["scoscore: 1.1re: 2.2"] joins what stands around it into a new score
    token, which only a second pass removes. *)
Lemma sanitize_answer_not_idempotent :
  let x := lit "scoscore: 1.1re: 2.2" in
  sanitize_answer x = lit "score: 2.2"
  /\ sanitize_answer (sanitize_answer x) = []
  /\ sanitize_answer (sanitize_answer x) <> sanitize_answer x.
Proof.
  intros x.
  assert (A : sanitize_answer x = lit "score: 2.2")
    by (vm_compute; reflexivity).
  assert (B : sanitize_answer (lit "score: 2.2") = [])
    by (vm_compute; reflexivity).
  split; [exact A |]. rewrite A, B. split; [reflexivity | discriminate].
Qed.

(** The amended statement at work on an answer with a score, a leak, a run
    of spaces and a note line. *)
Lemma sanitize_answer_idempotent_witness :
  let x :=
    lit "Day 1:  beach (score: 0.91)" ++ nl ++ lit "Note: internal" ++ nl
    ++ lit " [node_id: n1] done " in
  sanitize_answer (sanitize_answer x) = sanitize_answer x.
Proof.
  intros x.
  apply (sanitize_answer_idempotent_when_clean x);
    vm_compute; reflexivity.
Defined.

(** * Further properties *)

(** ** The matcher: what a match must contain *)

Section Contains.
Import Re.

Lemma run_cat_inv (a b : regex) (s : str) (cs : caps) (x : result) :
  In x (run (Cat a b) s cs) ->
  exists m1 s1 c1 m2,
    In (m1, s1, c1) (run a s cs)
    /\ In (m2, snd (fst x), snd x) (run b s1 c1)
    /\ fst (fst x) = m1 ++ m2.
Proof.
  cbn [run]. intros H.
  apply in_flat_map in H as [[[m1 s1] c1] [H1 H2]].
  apply in_map_iff in H2 as [[[m2 s2] c2] [E H2]]. subst x.
  exists m1, s1, c1, m2. cbn [fst snd]. auto.
Qed.

Lemma always_has_chr (c : ascii) : Notions.always_has c (chr c).
Proof.
  intros s cs m rest cs' H. unfold chr in H. cbn [run] in H.
  destruct s as [|d s]; [contradiction |].
  destruct (eqb_char c d) eqn:E; [| contradiction].
  apply eqb_char_iff in E. subst d.
  destruct H as [H | []]. injection H as <- _ _. now left.
Qed.

Lemma always_has_cat_l (c : ascii) (a b : regex) :
  Notions.always_has c a -> Notions.always_has c (Cat a b).
Proof.
  intros Ha s cs m rest cs' H.
  apply run_cat_inv in H as [m1 [s1 [c1 [m2 [H1 [_ E]]]]]].
  cbn [fst] in E. subst m. apply in_or_app. left. eapply Ha, H1.
Qed.

Lemma always_has_cat_r (c : ascii) (a b : regex) :
  Notions.always_has c b -> Notions.always_has c (Cat a b).
Proof.
  intros Hb s cs m rest cs' H.
  apply run_cat_inv in H as [m1 [s1 [c1 [m2 [_ [H2 E]]]]]].
  cbn [fst snd] in *. subst m. apply in_or_app. right. eapply Hb, H2.
Qed.

(** A pattern whose matches all contain [c] matches nowhere in a text
    without [c]. *)
Lemma always_has_search (c : ascii) (r : regex) (s : str) :
  Notions.always_has c r -> ~ In c s -> search r s = None.
Proof.
  intros Hr. induction s as [|d s IH]; intros Hc.
  - cbn [search]. unfold match_.
    destruct (run r [] []) as [|[[m rest] cs] o] eqn:E; [reflexivity |].
    exfalso. assert (I : In (m, rest, cs) (run r [] [])) by (rewrite E; now left).
    pose proof (run_app r _ _ _ _ _ I) as A.
    apply Hr in I. destruct m; [contradiction | discriminate].
  - cbn [search]. unfold match_.
    destruct (run r (d :: s) []) as [|[[m rest] cs] o] eqn:E.
    + apply IH. intros H. apply Hc. now right.
    + exfalso.
      assert (I : In (m, rest, cs) (run r (d :: s) []))
        by (rewrite E; now left).
      pose proof (run_app r _ _ _ _ _ I) as A.
      apply Hr in I. apply Hc. rewrite <- A. apply in_or_app. now left.
Qed.

Lemma placeholder_has_open : Notions.always_has "[" placeholder_re.
Proof. apply always_has_cat_l, always_has_chr. Qed.

Lemma placeholder_has_close : Notions.always_has "]" placeholder_re.
Proof. do 4 apply always_has_cat_r. apply always_has_chr. Qed.

Lemma id_prefix_has_colon : Notions.always_has ":" Notions.id_prefix.
Proof.
  unfold Notions.id_prefix. cbn [cats].
  do 2 apply always_has_cat_r. apply always_has_cat_l, always_has_chr.
Qed.

End Contains.

(** ** The citation expander: text without placeholders *)

Section NoPlaceholder.
Context {Score : Type}.

(** X1.  A response in which no opening bracket, or no closing bracket, occurs
    is returned as it is, whatever the matches and the graph facts. *)
Theorem expand_citations_without_brackets :
  forall (response : str) (ms : option (list (Match Score)))
         (gf : option (list GraphFact)),
    ~ In "["%char response \/ ~ In "]"%char response ->
    expand_citations response ms gf = response.
Proof.
  intros response ms gf H. unfold expand_citations.
  apply sub_no_match. destruct H as [H | H].
  - exact (always_has_search "[" placeholder_re response placeholder_has_open H).
  - exact (always_has_search "]" placeholder_re response placeholder_has_close H).
Qed.

End NoPlaceholder.

(** An answer in plain prose, with parentheses but no brackets. *)
Lemma expand_citations_without_brackets_witness :
  expand_citations (lit "Day 1: Hoi An (old town), then the beach.")
    (Some [{| m_id := Some (lit "a"); m_score := Some 1%Z;
              m_metadata := None |}])
    None
  = lit "Day 1: Hoi An (old town), then the beach.".
Proof.
  apply (@expand_citations_without_brackets Z). left.
  intros H. vm_compute in H.
  repeat (destruct H as [H | H]; [discriminate H |]). exact H.
Defined.

(** ** The citation expander: placeholders that name a graph fact *)

Section FactPlaceholder.
Context {Score : Type}.

Lemma has_target_true (k : str) (f : GraphFact) :
  Notions.has_target k f = true -> target_id f = Some k /\ k <> [].
Proof.
  unfold Notions.has_target. destruct (target_id f) as [i |]; [| discriminate].
  rewrite andb_true_iff. intros [T E]. apply eqb_iff in E. subst i.
  split; [reflexivity |]. intros ->. discriminate.
Qed.

Lemma last_fact_with_id_some (k : str) (gf : list GraphFact) (f : GraphFact) :
  Notions.last_fact_with_id k gf = Some f ->
  In f gf /\ target_id f = Some k /\ k <> [].
Proof.
  induction gf as [|x gf IH]; simpl; [discriminate |].
  destruct (Notions.last_fact_with_id k gf) as [f' |].
  - intros E. injection E as ->. destruct (IH eq_refl) as [H1 H2]. auto.
  - destruct (Notions.has_target k x) eqn:H; [| discriminate].
    intros E. injection E as ->. split; [now left | now apply has_target_true].
Qed.

(** Reading [facts_by_id]: the last fact with the target id. *)
Lemma dict_get_facts (k : str) (gf : list GraphFact) :
  forall d : dict GraphFact,
    dict_get k (fold_left Spec.fact_step gf d)
    = match Notions.last_fact_with_id k gf with
      | Some f => Some f
      | None => dict_get k d
      end.
Proof.
  induction gf as [|x gf IH]; intros d; simpl; [reflexivity |].
  rewrite IH. destruct (Notions.last_fact_with_id k gf); [reflexivity |].
  unfold Spec.fact_step, Notions.has_target.
  destruct (target_id x) as [i |]; [| reflexivity].
  destruct (truthy (Some i)); [| reflexivity].
  simpl. destruct (Py.eqb k i); reflexivity.
Qed.

Lemma found_keywords_sound (f : GraphFact) :
  Forall (fun kw => In kw keywords /\ Spec.occurs kw (lower (target_desc f)))
         (Notions.found_keywords f).
Proof.
  apply Forall_forall. intros kw H. unfold Notions.found_keywords in H.
  apply filter_In in H as [H1 H2]. split; [exact H1 |].
  now apply contains_iff.
Qed.


End FactPlaceholder.


(** ** The citation expander: reading the identifier *)

Section Identifier.
Import Re.

Lemma id_re_parts : id_re = Cat (Opt Notions.id_prefix) Notions.id_group.
Proof. reflexivity. Qed.

Lemma id_char_not_space (c : ascii) :
  is_id_char c = true -> is_space c = false.
Proof.
  destruct c as [[] [] [] [] [] [] [] []]; intros H;
    try reflexivity; discriminate H.
Qed.

Lemma id_chars_stop_spaces (x : str) :
  Forall (fun c => is_id_char c = true) x -> Spec.stops is_space x.
Proof.
  destruct 1 as [|c x C _]; [exact I |]. now apply id_char_not_space.
Qed.

Lemma id_chars_no_colon (x : str) :
  Forall (fun c => is_id_char c = true) x -> ~ In ":"%char x.
Proof.
  intros H Hc. rewrite Forall_forall in H. apply H in Hc. discriminate Hc.
Qed.

Lemma search_hit (r : regex) (s : str) (x : result) :
  match_ r s = Some x -> search r s = Some x.
Proof. intros H. destruct s; cbn [search]; now rewrite H. Qed.

Lemma run_opt (a : regex) (s : str) (cs : caps) :
  run (Opt a) s cs = run a s cs ++ [([], s, cs)].
Proof. reflexivity. Qed.

(** The group takes a whole run of identifier characters. *)
Lemma run_id_group (c : ascii) (x t : str) (cs : caps) :
  Forall (fun d => is_id_char d = true) (c :: x) ->
  Spec.stops is_id_char t ->
  Spec.first_is (c :: x, t, (1, c :: x) :: cs)
                (run Notions.id_group (c :: x ++ t) cs).
Proof.
  intros H Ht. inversion H as [|? ? Hc Hx]; subst.
  apply run_grp_first. now apply run_plus_first.
Qed.

(** Without a colon the prefix does not match. *)
Lemma run_id_prefix_no_colon (s : str) (cs : caps) :
  ~ In ":"%char s -> run Notions.id_prefix s cs = [].
Proof.
  intros H. destruct (run Notions.id_prefix s cs) as [|[[m rest] c'] o] eqn:E;
    [reflexivity |].
  exfalso.
  assert (I : In (m, rest, c') (run Notions.id_prefix s cs))
    by (rewrite E; now left).
  pose proof (run_app _ _ _ _ _ _ I) as A.
  apply id_prefix_has_colon in I. apply H. rewrite <- A.
  apply in_or_app. now left.
Qed.

Lemma node_id_of_run (x t : str) :
  x <> [] -> Forall (fun c => is_id_char c = true) x ->
  Spec.stops is_id_char t -> ~ In ":"%char t ->
  node_id_of (x ++ t) = x.
Proof.
  intros Hne Hx Ht Hc. destruct x as [|c x]; [congruence |].
  assert (N : ~ In ":"%char ((c :: x) ++ t)).
  { intros H. apply in_app_or in H as [H | H]; [| now apply Hc].
    now apply (id_chars_no_colon _ Hx). }
  assert (M : match_ id_re ((c :: x) ++ t)
              = Some (c :: x, t, [(1, c :: x)])).
  { unfold match_. apply first_is_hd. rewrite id_re_parts.
    apply (run_cat_first (Opt Notions.id_prefix) Notions.id_group
             ((c :: x) ++ t) [] [] ((c :: x) ++ t) [] (c :: x) t
             [(1, c :: x)]).
    - rewrite run_opt, (run_id_prefix_no_colon _ [] N). now exists [].
    - apply (run_id_group c x t [] Hx Ht). }
  unfold node_id_of. rewrite (search_hit _ _ _ M). reflexivity.
Qed.

Lemma node_id_of_bare (x : str) :
  x <> [] -> Forall (fun c => is_id_char c = true) x -> node_id_of x = x.
Proof.
  intros Hne Hx. rewrite <- (app_nil_r x) at 1.
  apply node_id_of_run; [exact Hne | exact Hx | exact I | intros []].
Qed.

Lemma run_id_keyword (kw : str) (t : str) (cs : caps) :
  In kw Notions.id_keywords ->
  Spec.first_is (kw, t, cs)
    (run (Alt (cats [iword "node";
                     Opt (Cls (fun c => eqb_char c "_" || eqb_char c " "));
                     iword "id"])
              (Alt (iword "nodeid") (iword "id")))
         (kw ++ t) cs).
Proof.
  intros H. unfold Notions.id_keywords in H.
  repeat (destruct H as [<- | H]; [eexists; reflexivity |]).
  contradiction.
Qed.

Lemma node_id_of_prefixed (kw ws1 ws2 x : str) :
  In kw Notions.id_keywords -> Spec.spaces ws1 -> Spec.spaces ws2 ->
  x <> [] -> Forall (fun c => is_id_char c = true) x ->
  node_id_of (kw ++ ws1 ++ ":"%char :: ws2 ++ x) = x.
Proof.
  intros Hkw H1 H2 Hne Hx. destruct x as [|c x]; [congruence |].
  set (raw := kw ++ ws1 ++ ":"%char :: ws2 ++ c :: x).
  assert (P : Spec.first_is (kw ++ ws1 ++ [":"%char] ++ ws2, c :: x, [])
                (run Notions.id_prefix raw [])).
  { unfold Notions.id_prefix. cbn [cats].
    apply (run_cat_first _ _ raw [] kw
             (ws1 ++ ":"%char :: ws2 ++ c :: x) []).
    - apply run_id_keyword, Hkw.
    - apply (run_cat_first (Star is_space) _ _ [] ws1
               (":"%char :: ws2 ++ c :: x) []).
      + apply run_star_first; [exact H1 | reflexivity].
      + apply (run_cat_first (chr ":") (Star is_space) _ []
                 [":"%char] (ws2 ++ c :: x) [] ws2 (c :: x) []).
        * rewrite run_chr_same. now exists [].
        * apply run_star_first; [exact H2 |].
          now apply (id_chars_stop_spaces (c :: x)). }
  assert (M : Spec.first_is
                ((kw ++ ws1 ++ [":"%char] ++ ws2) ++ c :: x, [],
                 [(1, c :: x)])
                (run id_re raw [])).
  { rewrite id_re_parts.
    apply (run_cat_first (Opt Notions.id_prefix) Notions.id_group raw []
             (kw ++ ws1 ++ [":"%char] ++ ws2) (c :: x) []).
    - rewrite run_opt. now apply first_is_app.
    - pose proof (run_id_group c x [] [] Hx I) as R.
      rewrite app_nil_r in R. exact R. }
  unfold node_id_of. fold raw.
  rewrite (search_hit id_re raw _ (first_is_hd _ _ M)). reflexivity.
Qed.

(** X3.  The identifier the expander reads.  From a content that is a non-empty
    run of the characters [A-Za-z0-9_-] it reads the content itself; and a
    prefix ["id"], ["nodeid"], ["node_id"] or ["node id"], in either case,
    followed by a colon with optional whitespace on both sides, is skipped,
    so that [[city_hue]], [[id: city_hue]] and [[NODE_ID : city_hue]] all
    name ["city_hue"]. *)
Theorem node_id_of_reads_identifier :
  forall x : str,
    x <> [] -> Forall (fun c => is_id_char c = true) x ->
    node_id_of x = x
    /\ forall kw ws1 ws2 : str,
         In kw Notions.id_keywords -> Spec.spaces ws1 -> Spec.spaces ws2 ->
         node_id_of (kw ++ ws1 ++ ":"%char :: ws2 ++ x) = x.
Proof.
  intros x Hne Hx. split; [now apply node_id_of_bare |].
  intros kw ws1 ws2 Hkw H1 H2. now apply node_id_of_prefixed.
Qed.

(** X4.  Only the first run of identifier characters is read: when the content
    starts with such a run and goes on with another character, without
    colon, what follows the run is ignored, so that [[Ha Long Bay]] names
    ["Ha"]. *)
Theorem node_id_of_first_run :
  forall x t : str,
    x <> [] -> Forall (fun c => is_id_char c = true) x ->
    Spec.stops is_id_char t -> ~ In ":"%char t ->
    node_id_of (x ++ t) = x.
Proof.
  intros x t Hne Hx Ht Hc.
  destruct t as [|d t]; [rewrite app_nil_r; now apply node_id_of_bare |].
  now apply node_id_of_run.
Qed.

End Identifier.

(** The three spellings of the comment in the source. *)
Lemma node_id_of_reads_identifier_witness :
  node_id_of (lit "city_hue") = lit "city_hue"
  /\ node_id_of (lit "id: city_hue") = lit "city_hue"
  /\ node_id_of (lit "NODE_ID : city_hue") = lit "city_hue".
Proof.
  assert (Hne : lit "city_hue" <> []) by discriminate.
  assert (Hx : Forall (fun c => is_id_char c = true) (lit "city_hue"))
    by (repeat constructor).
  destruct (node_id_of_reads_identifier (lit "city_hue") Hne Hx) as [A B].
  split; [exact A |]. split.
  - apply (B (lit "id") [] (lit " ")).
    + left. reflexivity.
    + constructor.
    + repeat constructor.
  - apply (B (lit "NODE_ID") (lit " ") (lit " ")).
    + do 5 right. left. reflexivity.
    + repeat constructor.
    + repeat constructor.
Defined.

(** A name of three words is read as its first word. *)
Lemma node_id_of_first_run_witness :
  node_id_of (lit "Ha Long Bay") = lit "Ha".
Proof.
  apply (node_id_of_first_run (lit "Ha") (lit " Long Bay")).
  - discriminate.
  - repeat constructor.
  - reflexivity.
  - simpl. intros H. repeat (destruct H as [H | H]; [discriminate H |]).
    exact H.
Defined.

(** ** The sanitizer: what its output looks like *)

Section SanitizerOutput.
Import Re.

Lemma has_dbl_contains (s : str) :
  Spec.has_dbl s = contains (lit "  ") s.
Proof.
  induction s as [|c s IH]; [reflexivity |].
  cbn [Spec.has_dbl contains]. rewrite IH. f_equal.
  change (lit "  ") with [" "%char; " "%char]. cbn [startswith].
  destruct s as [|d s]; cbn [Spec.starts_space startswith];
    [reflexivity | now rewrite andb_true_r].
Qed.

Lemma join_only_nl (W : list str) :
  Forall Spec.lbfree W ->
  Forall (fun c => is_linebreak c = true -> c = "010"%char) (join nl W).
Proof.
  induction 1 as [|l W Hl HW IH]; [constructor |].
  assert (L : Forall (fun c => is_linebreak c = true -> c = "010"%char) l).
  { eapply Forall_impl; [| exact Hl]. intros c E H. congruence. }
  destruct W as [|y W]; [exact L |].
  rewrite join_cons by discriminate.
  apply Forall_app. split; [exact L |].
  apply Forall_app. split; [| exact IH].
  constructor; [reflexivity | constructor].
Qed.

(** A literal word matches exactly where the text begins with it. *)
Lemma run_word (w s : str) (cs : caps) :
  run (seq_of chr w) s cs
  = if startswith w s then [(w, skipn (List.length w) s, cs)] else [].
Proof.
  revert s. induction w as [|c w IH]; intros s; [reflexivity |].
  destruct w as [|c2 w].
  - cbn [seq_of]. destruct s as [|d s]; [reflexivity |].
    unfold chr. cbn [run startswith]. rewrite andb_true_r.
    destruct (eqb_char c d) eqn:E; [| reflexivity].
    apply eqb_char_iff in E. now subst d.
  - change (seq_of chr (c :: c2 :: w))
      with (Cat (chr c) (seq_of chr (c2 :: w))).
    destruct s as [|d s]; [reflexivity |].
    change (startswith (c :: c2 :: w) (d :: s))
      with (eqb_char c d && startswith (c2 :: w) s).
    destruct (eqb_char c d) eqn:E.
    + apply eqb_char_iff in E. subst d.
      cbn [run]. fold (chr c). rewrite run_chr_same. cbn [flat_map].
      rewrite IH. cbn [andb].
      destruct (startswith (c2 :: w) s); reflexivity.
    + cbn [andb]. apply run_cat_chr_other. intros ->.
      now rewrite eqb_char_refl in E.
Qed.

Lemma note_words_startswith (r : str) :
  run Spec.note_words r [] <> [] <->
  startswith (lit "Note:") r || startswith (lit "Validation:") r = true.
Proof.
  unfold Spec.note_words, word. cbn [run]. rewrite !run_word.
  destruct (startswith (lit "Note:") r), (startswith (lit "Validation:") r);
    cbn [map app orb]; split; intros H; try reflexivity;
    try discriminate; now try apply H.
Qed.

(** A note line, in plain terms. *)
Lemma is_note_startswith (l : str) :
  is_note l
  = startswith (lit "Note:") (lstrip l)
    || startswith (lit "Validation:") (lstrip l).
Proof.
  rewrite <- is_note_lstrip. apply eq_true_iff_eq.
  rewrite is_note_iff, <- note_words_startswith. split.
  - intros [m [r [E [Hm Hr]]]].
    destruct m as [|c m]; [now rewrite E |].
    exfalso. pose proof (lstrip_stops l) as St. rewrite E in St.
    apply Forall_inv in Hm. cbn [app Spec.stops] in St. congruence.
  - intros H. exists [], (lstrip l). split; [reflexivity |].
    split; [constructor | exact H].
Qed.

(** X5.  Whatever the input, the sanitized answer has no whitespace at either
    end, no two spaces in a row and no line break other than the line
    feed, and none of its lines begins, after leading whitespace, with
    ["Note:"] or ["Validation:"]. *)
Theorem sanitize_answer_output :
  forall x : str,
    let y := sanitize_answer x in
    Spec.stops is_space y
    /\ Spec.stops is_space (rev y)
    /\ ~ Spec.occurs (lit "  ") y
    /\ Forall (fun c => is_linebreak c = true -> c = "010"%char) y
    /\ Forall (fun ln =>
                 startswith (lit "Note:") (lstrip ln) = false
                 /\ startswith (lit "Validation:") (lstrip ln) = false)
              (splitlines y).
Proof.
  intros x y. subst y. rewrite sanitize_answer_steps.
  set (z := Spec.collapse _).
  destruct (finish_lines z) as [W [E [Hlb [Hk [He Hd]]]]].
  split; [| split; [| split; [| split]]].
  - unfold Spec.finish, strip. apply rstrip_stops, lstrip_stops.
  - unfold Spec.finish, strip, rstrip. rewrite rev_involutive.
    apply lstrip_stops.
  - intros O. apply contains_iff in O. rewrite <- has_dbl_contains in O.
    rewrite (finish_no_dbl z (collapse_no_dbl _)) in O. discriminate.
  - rewrite E. now apply join_only_nl.
  - rewrite E, (splitlines_join W Hlb He).
    eapply Forall_impl; [| exact Hk].
    intros ln H. apply negb_true_iff in H.
    rewrite is_note_startswith in H. now apply orb_false_iff in H.
Qed.

End SanitizerOutput.

(** ** Cache keys and graph facts: where inputs run together or are cut *)

Section CacheKey.
Import Embed.

(** X6.  The cache key is the digest of the model, a colon and the text in a
    row, so it does not tell where the model ends: a text is keyed alike
    with its part up to any colon moved into the model, and a text asked
    for without a model is keyed like its part after a colon under the
    model before it; the two texts differ each time. *)
Theorem get_text_hash_boundary :
  forall m a b : str,
    get_text_hash (a ++ lit ":" ++ b) (Some m)
    = get_text_hash b (Some (m ++ lit ":" ++ a))
    /\ get_text_hash (m ++ lit ":" ++ b) None = get_text_hash b (Some m)
    /\ a ++ lit ":" ++ b <> b.
Proof.
  intros m a b. unfold get_text_hash.
  split; [| split].
  - now rewrite <- !app_assoc.
  - reflexivity.
  - intros E. apply (f_equal (@List.length ascii)) in E.
    rewrite !length_app in E. cbn [List.length lit] in E.
    change (List.length (lit ":")) with 1 in E. lia.
Qed.

End CacheKey.

Section GraphCut.
Import Graph.

Lemma flat_map_row_facts_length (recs : list Row) :
  List.length (flat_map Spec.row_facts recs) <= 2 * List.length recs.
Proof.
  induction recs as [|r recs IH]; [apply le_n |].
  cbn [flat_map]. rewrite length_app. unfold Spec.row_facts at 1.
  destruct (truthy (r_rel2 r)); cbn [List.length]; lia.
Qed.

Lemma in_firstn_front {A : Type} (n : nat) (x : A) (l r : list A) :
  In x l -> List.length l <= n -> In x (firstn n (l ++ r)).
Proof.
  intros H L. rewrite firstn_app.
  apply in_or_app. left. now rewrite firstn_all2.
Qed.

(** X7.  The cut to 50 facts never reaches the first 25 records of the query's
    result: the 1-hop fact of each of them is returned, and its 2-hop fact
    when the record has one; with at most 25 records the facts of all the
    records are returned, in order. *)
Theorem fetch_graph_context_first_records :
  forall (session_run : list str -> list Row) (node_ids : list str),
    let recs := session_run node_ids in
    let facts := fetch_graph_context session_run node_ids in
    (forall (i : nat) (r : Row),
        nth_error recs i = Some r -> i < 25 ->
        In (one_hop r) facts
        /\ (truthy (r_rel2 r) = true -> In (two_hop r) facts))
    /\ (List.length recs <= 25 -> facts = flat_map Spec.row_facts recs).
Proof.
  intros session_run node_ids recs facts. subst facts.
  unfold fetch_graph_context. fold recs. rewrite collect_facts_flat.
  split.
  - intros i r H Hi.
    destruct (nth_error_split _ _ H) as [l1 [l2 [E L]]].
    rewrite E, flat_map_app. cbn [flat_map]. rewrite app_assoc.
    pose proof (flat_map_row_facts_length l1) as B.
    assert (Len : List.length (flat_map Spec.row_facts l1 ++ Spec.row_facts r)
                  <= 50).
    { rewrite length_app. unfold Spec.row_facts at 2.
      destruct (truthy (r_rel2 r)); cbn [List.length]; lia. }
    split.
    + apply in_firstn_front; [| exact Len].
      apply in_or_app. right. now left.
    + intros T. apply in_firstn_front; [| exact Len].
      apply in_or_app. right. unfold Spec.row_facts. rewrite T.
      right. now left.
  - intros L. apply firstn_all2.
    pose proof (flat_map_row_facts_length recs). lia.
Qed.

Lemma fetch_graph_context_first_records_witness :
  let recs := [Samples.row_hue] in
  let facts := fetch_graph_context (fun _ => recs) [lit "city_hue"] in
  (In (one_hop Samples.row_hue) facts
   /\ (truthy (r_rel2 Samples.row_hue) = true
       -> In (two_hop Samples.row_hue) facts))
  /\ facts = flat_map Spec.row_facts recs.
Proof.
  destruct (fetch_graph_context_first_records
              (fun _ => [Samples.row_hue]) [lit "city_hue"]) as [H1 H2].
  split.
  - apply (H1 0 Samples.row_hue); [reflexivity | lia].
  - apply H2. cbn [List.length]. lia.
Defined.

End GraphCut.

(** ** One turn of the chat loop, run *)

Section TurnRun.
Import Cli.
Context {Score : Type} {SO : ScoreOps Score}.
Variable str_of_dict : dict str -> str.
Variable W : Type.
Variable query_pinecone :
  str -> nat -> W -> outcome (list (Match Score)) * W.
Variable session_run : list str -> W -> outcome (list Graph.Row) * W.
Variable chat_completion : list Turn -> Z -> W -> outcome str * W.

Local Abbreviation chat_turn :=
  (chat_turn str_of_dict query_pinecone session_run chat_completion).
Local Abbreviation chat_loop :=
  (chat_loop str_of_dict query_pinecone session_run chat_completion).
Local Abbreviation answer_turn :=
  (Turn.answer_turn str_of_dict chat_completion).

Lemma answer_turn_run (query : str) (preferences : dict str)
      (ms : list (Match Score)) (gf : list GraphFact) (w : world W) :
  bind
    (call_chat chat_completion
       (build_prompt str_of_dict query ms gf (Some preferences)) 1100)
    (fun answer =>
       bind
         (if negb (Py.eqb
                     (validate_response answer
                        (if contains (lit "4") query then 4%Z else 3%Z))
                     (lit "Valid"))
          then call_chat chat_completion
                 (build_prompt str_of_dict query ms gf (Some preferences)
                  ++ followup) 1200
          else ret answer)
         (fun answer =>
            bind (print (nl ++ lit "=== Assistant Answer ===" ++ nl))
              (fun _ =>
                 bind (print (sanitize_answer
                                (expand_citations answer (Some ms) (Some gf))))
                   (fun _ => print (nl ++ lit "=== End ===" ++ nl))))) w
  = answer_turn query preferences ms gf (collab w) (stdin w) (trace w).
Proof.
  unfold Turn.answer_turn, Turn.days, Turn.answer_block.
  cbv [bind call_chat call emit print ret].
  cbn [fst snd trace collab stdin].
  destruct (chat_completion _ 1100 (collab w)) as [[a1 | e] c3];
    cbn [fst snd trace collab stdin]; [| reflexivity].
  destruct (Py.eqb (validate_response a1 _) (lit "Valid")); cbn [negb];
    cbn [fst snd trace collab stdin].
  - now rewrite <- !app_assoc.
  - destruct (chat_completion _ 1200 c3) as [[a2 | e] c4];
      cbn [fst snd trace collab stdin]; [| reflexivity].
    now rewrite <- !app_assoc.
Qed.

(** The whole turn, case by case. *)
Lemma chat_turn_run (query : str) (preferences : dict str) (w : world W) :
  chat_turn query preferences w
  = match query_pinecone query 10 (collab w) with
    | (Raise e, c1) => (Raise e, World c1 (stdin w) (trace w))
    | (Ok ms, c1) =>
        match ids_of ms with
        | Raise e => (Raise e, World c1 (stdin w) (trace w))
        | Ok ids =>
            match session_run ids c1 with
            | (Ok recs, c2) =>
                answer_turn query preferences ms (Graph.collect_facts recs)
                            c2 (stdin w) (trace w)
            | (Raise e, c2) =>
                answer_turn query preferences ms [] c2 (stdin w)
                            (trace w ++ [Printed (Turn.warning e)])
            end
        end
    end.
Proof.
  unfold Cli.chat_turn.
  unfold bind at 1. unfold call at 1.
  destruct (query_pinecone query 10 (collab w)) as [[ms | e] c1];
    [| reflexivity].
  unfold bind at 1. unfold of_outcome at 1.
  destruct (ids_of ms) as [ids | e]; [| reflexivity].
  unfold bind at 1. unfold try_ at 1. unfold fetch_graph_context at 1.
  unfold bind at 1. unfold call at 1. cbn [collab stdin trace].
  destruct (session_run ids c1) as [[recs | e] c2].
  - unfold ret at 1. apply (answer_turn_run query preferences ms _
                              (World c2 (stdin w) (trace w))).
  - unfold bind at 1. unfold print at 1. unfold emit at 1.
    unfold ret at 1. cbn [collab stdin trace].
    apply (answer_turn_run query preferences ms []
             (World c2 (stdin w) (trace w ++ [Printed (Turn.warning e)]))).
Qed.

End TurnRun.

(** ** The chat loop: failures, the fallback, what is printed *)

Section TurnFacts.
Import Cli.
Context {Score : Type} {SO : ScoreOps Score}.
Variable str_of_dict : dict str -> str.
Variable W : Type.
Variable query_pinecone :
  str -> nat -> W -> outcome (list (Match Score)) * W.
Variable session_run : list str -> W -> outcome (list Graph.Row) * W.
Variable chat_completion : list Turn -> Z -> W -> outcome str * W.

Local Abbreviation chat_turn :=
  (chat_turn str_of_dict query_pinecone session_run chat_completion).
Local Abbreviation chat_loop :=
  (chat_loop str_of_dict query_pinecone session_run chat_completion).
Local Abbreviation answer_turn :=
  (Turn.answer_turn str_of_dict chat_completion).

(** One round of the loop. *)
Lemma chat_loop_step (fuel : nat) (preferences : dict str) (w : world W)
      (line : str) (rest : list str) :
  stdin w = line :: rest ->
  chat_loop (S fuel) preferences w
  = let w1 := World (collab w) rest
                    (trace w ++ [Printed Turn.question_prompt]) in
    if is_exit (strip line) then (Ok tt, w1)
    else match chat_turn (strip line) preferences w1 with
         | (Ok _, w2) => chat_loop fuel preferences w2
         | (Raise e, w2) => (Raise e, w2)
         end.
Proof.
  intros E. cbn [Cli.chat_loop].
  unfold bind at 1. unfold input at 1. unfold bind at 1. unfold emit at 1.
  cbn [collab stdin trace]. rewrite E. cbv zeta.
  destruct (is_exit (strip line)); [reflexivity |].
  unfold bind at 1. reflexivity.
Qed.

Lemma chat_loop_eof (fuel : nat) (preferences : dict str) (w : world W) :
  stdin w = [] ->
  chat_loop (S fuel) preferences w
  = (Raise (lit "EOFError"),
     World (collab w) [] (trace w ++ [Printed Turn.question_prompt])).
Proof.
  intros E. cbn [Cli.chat_loop].
  unfold bind at 1. unfold input at 1. unfold bind at 1. unfold emit at 1.
  cbn [collab stdin trace]. now rewrite E.
Qed.

Lemma ids_of_missing (ms : list (Match Score)) :
  Exists (fun m => m_id m = None) ms ->
  ids_of ms = Raise (lit "KeyError: 'id'").
Proof.
  induction ms as [|m ms IH]; intros H; [inversion H |].
  cbn [ids_of]. destruct (m_id m) as [i |] eqn:E; [| reflexivity].
  inversion H as [? ? H0 | ? ? H0]; subst; [congruence |].
  now rewrite (IH H0).
Qed.

Lemma ids_of_present (ms : list (Match Score)) (ids : list str) :
  ids_of ms = Ok ids -> map (@m_id Score) ms = map Some ids.
Proof.
  revert ids. induction ms as [|m ms IH]; intros ids H; cbn [ids_of] in H.
  - now injection H as <-.
  - destruct (m_id m) as [i |] eqn:E; [| discriminate].
    destruct (ids_of ms) as [l | e]; [| discriminate].
    injection H as <-. cbn [map]. now rewrite E, (IH l eq_refl).
Qed.

(** X8.  A failing vector search ends the session: when the search for a
    question raises, or one of its matches has no ["id"], the error leaves
    the loop; no completion is asked for, nothing is printed after the
    question prompt, and the lines that follow are never read. *)
Theorem chat_loop_search_failure :
  forall (fuel : nat) (preferences : dict str) (w : world W)
         (line : str) (rest : list str),
    stdin w = line :: rest ->
    is_exit (strip line) = false ->
    (forall e c,
        query_pinecone (strip line) 10 (collab w) = (Raise e, c) ->
        chat_loop (S fuel) preferences w
        = (Raise e,
           World c rest (trace w ++ [Printed Turn.question_prompt])))
    /\ (forall ms c,
           query_pinecone (strip line) 10 (collab w) = (Ok ms, c) ->
           Exists (fun m => m_id m = None) ms ->
           chat_loop (S fuel) preferences w
           = (Raise (lit "KeyError: 'id'"),
              World c rest (trace w ++ [Printed Turn.question_prompt]))).
Proof.
  intros fuel preferences w line rest E X.
  rewrite (chat_loop_step fuel preferences w line rest E). cbv zeta.
  rewrite X, chat_turn_run. cbn [collab stdin trace].
  split.
  - intros e c Q. now rewrite Q.
  - intros ms c Q M. now rewrite Q, (ids_of_missing ms M).
Qed.

(** X9.  The graph query is the one collaborator whose failure a turn
    survives: when it raises, the turn prints one warning that quotes the
    error and goes on exactly as it would have gone had the query returned
    no record, with a prompt built from the matches alone. *)
Theorem chat_turn_graph_fallback :
  forall (query : str) (preferences : dict str) (w : world W)
         (ms : list (Match Score)) (c1 : W) (ids : list str)
         (e : str) (c2 : W),
    query_pinecone query 10 (collab w) = (Ok ms, c1) ->
    ids_of ms = Ok ids ->
    session_run ids c1 = (Raise e, c2) ->
    let prompt := build_prompt str_of_dict query ms [] (Some preferences) in
    exists (o : outcome unit) (c' : W) (t : list event),
      chat_turn query preferences w
      = (o, World c' (stdin w)
              (trace w ++ Printed (Turn.warning e)
                 :: Completion prompt 1100 :: t))
      /\ Cli.chat_turn str_of_dict query_pinecone (Turn.quiet session_run)
                       chat_completion query preferences w
         = (o, World c' (stdin w) (trace w ++ Completion prompt 1100 :: t)).
Proof.
  intros query preferences w ms c1 ids e c2 Q I S prompt.
  rewrite !chat_turn_run, Q, I, S. unfold Turn.quiet. rewrite S.
  cbn [snd]. change (Graph.collect_facts []) with (@nil GraphFact).
  unfold Turn.answer_turn. fold prompt.
  destruct (chat_completion prompt 1100 c2) as [[a1 | e1] c3].
  - destruct (Py.eqb (validate_response a1 _) (lit "Valid")).
    + exists (Ok tt), c3, (Turn.answer_block a1 ms []).
      rewrite <- !app_assoc. split; reflexivity.
    + destruct (chat_completion (prompt ++ followup) 1200 c3)
        as [[a2 | e2] c4].
      * exists (Ok tt), c4,
          (Completion (prompt ++ followup) 1200
             :: Turn.answer_block a2 ms []).
        rewrite <- !app_assoc. split; reflexivity.
      * exists (Raise e2), c4, [Completion (prompt ++ followup) 1200].
        rewrite <- !app_assoc. split; reflexivity.
  - exists (Raise e1), c3, []. rewrite <- !app_assoc. split; reflexivity.
Qed.

(** X10.  A turn that ends well prints three lines, after its last completion
    call: the header, the answer of that call with its citations expanded
    from the matches and facts of this turn and then sanitized, and the
    footer.  The call is the first one when its answer was valid, and else
    the retry, whose answer is printed as it comes: the first answer is
    dropped and the second is not validated. *)
Theorem chat_turn_prints_last_answer :
  forall (query : str) (preferences : dict str) (w : world W),
    let r := chat_turn query preferences w in
    fst r = Ok tt ->
    exists (ms : list (Match Score)) (c1 : W) (gf : list GraphFact)
           (n : Z) (c : W) (a : str) (t : list event),
      let prompt := build_prompt str_of_dict query ms gf (Some preferences) in
      let p := if (n =? 1100)%Z then prompt else prompt ++ followup in
      query_pinecone query 10 (collab w) = (Ok ms, c1)
      /\ chat_completion p n c = (Ok a, collab (snd r))
      /\ trace (snd r)
         = trace w ++ t ++ Completion p n :: Turn.answer_block a ms gf
      /\ stdin (snd r) = stdin w
      /\ ((n = 1100%Z
           /\ validate_response a (Turn.days query) = lit "Valid")
          \/ (n = 1200%Z
              /\ exists a1 c0,
                   chat_completion prompt 1100 c0 = (Ok a1, c)
                   /\ validate_response a1 (Turn.days query)
                      <> lit "Valid")).
Proof.
  intros query preferences w r. subst r. rewrite chat_turn_run.
  destruct (query_pinecone query 10 (collab w)) as [[ms | e] c1];
    [| discriminate].
  destruct (ids_of ms) as [ids | e]; [| discriminate].
  assert (G : forall gf c2 t0,
             fst (answer_turn query preferences ms gf c2 (stdin w)
                    (trace w ++ t0)) = Ok tt ->
             exists n c a t,
               let prompt :=
                 build_prompt str_of_dict query ms gf (Some preferences) in
               let p := if (n =? 1100)%Z then prompt
                        else prompt ++ followup in
               let r := answer_turn query preferences ms gf c2 (stdin w)
                          (trace w ++ t0) in
               chat_completion p n c = (Ok a, collab (snd r))
               /\ trace (snd r)
                  = trace w ++ t ++ Completion p n
                      :: Turn.answer_block a ms gf
               /\ stdin (snd r) = stdin w
               /\ ((n = 1100%Z
                    /\ validate_response a (Turn.days query) = lit "Valid")
                   \/ (n = 1200%Z
                       /\ exists a1 c0,
                            chat_completion prompt 1100 c0 = (Ok a1, c)
                            /\ validate_response a1 (Turn.days query)
                               <> lit "Valid"))).
  { intros gf c2 t0. cbv zeta. unfold Turn.answer_turn.
    set (prompt := build_prompt str_of_dict query ms gf (Some preferences)).
    destruct (chat_completion prompt 1100 c2) as [[a1 | e1] c3] eqn:C1;
      [| discriminate].
    destruct (Py.eqb (validate_response a1 _) (lit "Valid")) eqn:V.
    - intros _. exists 1100%Z, c2, a1, t0.
      change (1100 =? 1100)%Z with true. cbn [fst snd collab trace stdin].
      split; [exact C1 |]. split; [now rewrite <- !app_assoc |].
      split; [reflexivity |]. left. split; [reflexivity |].
      now apply eqb_iff.
    - destruct (chat_completion (prompt ++ followup) 1200 c3)
        as [[a2 | e2] c4] eqn:C2; [| discriminate].
      intros _. exists 1200%Z, c3, a2, (t0 ++ [Completion prompt 1100]).
      change (1200 =? 1100)%Z with false. cbn [fst snd collab trace stdin].
      split; [exact C2 |]. split; [now rewrite <- !app_assoc |].
      split; [reflexivity |]. right. split; [reflexivity |].
      exists a1, c2. split; [exact C1 |].
      intros H. apply eqb_iff in H. congruence. }
  destruct (session_run ids c1) as [[recs | e] c2]; intros H.
  - rewrite <- (app_nil_r (trace w)) in H.
    destruct (G _ _ _ H) as [n [c [a [t G']]]]. cbv zeta in G'.
    rewrite app_nil_r in G'.
    exists ms, c1, (Graph.collect_facts recs), n, c, a, t.
    cbv zeta. split; [reflexivity | exact G'].
  - destruct (G _ _ _ H) as [n [c [a [t G']]]]. cbv zeta in G'.
    exists ms, c1, [], n, c, a, t.
    cbv zeta. split; [reflexivity | exact G'].
Qed.

End TurnFacts.

Lemma chat_loop_search_failure_witness :
  let w := Cli.World tt [lit "Plan a trip"; lit "exit"] [] in
  Cli.chat_loop Script.braces Samples2.search_down Script.no_rows
                Script.three_days 3 [] w
  = (Cli.Raise (lit "timeout"),
     Cli.World tt [lit "exit"] [Cli.Printed Turn.question_prompt])
  /\ Cli.chat_loop Script.braces Samples2.bad_match Script.no_rows
                   Script.three_days 3 [] w
     = (Cli.Raise (lit "KeyError: 'id'"),
        Cli.World tt [lit "exit"] [Cli.Printed Turn.question_prompt]).
Proof.
  split.
  - refine (proj1 (chat_loop_search_failure Script.braces unit
                     Samples2.search_down Script.no_rows Script.three_days
                     2 [] (Cli.World tt [lit "Plan a trip"; lit "exit"] [])
                     (lit "Plan a trip") [lit "exit"] eq_refl eq_refl)
                  (lit "timeout") tt eq_refl).
  - refine (proj2 (chat_loop_search_failure Script.braces unit
                     Samples2.bad_match Script.no_rows Script.three_days
                     2 [] (Cli.World tt [lit "Plan a trip"; lit "exit"] [])
                     (lit "Plan a trip") [lit "exit"] eq_refl eq_refl)
                  [Samples2.hue; Samples2.nameless] tt eq_refl _).
    apply Exists_cons_tl, Exists_cons_hd. reflexivity.
Defined.

Lemma chat_turn_graph_fallback_witness :
  let w := Cli.World tt [] [] in
  let prompt :=
    Prompting.build_prompt Script.braces (lit "Plan a trip")
      [Samples2.hue] [] (Some []) in
  exists (o : Cli.outcome unit) (c' : unit) (t : list Cli.event),
    Cli.chat_turn Script.braces Samples2.one_match Samples2.graph_down
                  Samples2.cited (lit "Plan a trip") [] w
    = (o, Cli.World c' []
            ([] ++ Cli.Printed (Turn.warning (lit "ServiceUnavailable"))
               :: Cli.Completion prompt 1100 :: t))
    /\ Cli.chat_turn Script.braces Samples2.one_match
                     (Turn.quiet Samples2.graph_down) Samples2.cited
                     (lit "Plan a trip") [] w
       = (o, Cli.World c' [] ([] ++ Cli.Completion prompt 1100 :: t)).
Proof.
  exact (chat_turn_graph_fallback Script.braces unit Samples2.one_match
           Samples2.graph_down Samples2.cited (lit "Plan a trip") []
           (Cli.World tt [] []) [Samples2.hue] tt [lit "city_hue"]
           (lit "ServiceUnavailable") tt eq_refl eq_refl eq_refl).
Defined.

Lemma chat_turn_prints_last_answer_witness :
  let r := Cli.chat_turn Script.braces Samples2.one_match Script.no_rows
             Samples2.cited (lit "Plan a trip") [] (Cli.World tt [] []) in
  exists (ms : list (Match Z)) (c1 : unit) (gf : list GraphFact)
         (n : Z) (c : unit) (a : str) (t : list Cli.event),
    let prompt :=
      Prompting.build_prompt Script.braces (lit "Plan a trip") ms gf
        (Some []) in
    let p := if (n =? 1100)%Z then prompt else prompt ++ Cli.followup in
    Samples2.one_match (lit "Plan a trip") 10 tt = (Cli.Ok ms, c1)
    /\ Samples2.cited p n c = (Cli.Ok a, Cli.collab (snd r))
    /\ Cli.trace (snd r)
       = [] ++ t ++ Cli.Completion p n :: Turn.answer_block a ms gf
    /\ Cli.stdin (snd r) = []
    /\ ((n = 1100%Z
         /\ Prompting.validate_response a (Turn.days (lit "Plan a trip"))
            = lit "Valid")
        \/ (n = 1200%Z
            /\ exists a1 c0,
                 Samples2.cited prompt 1100 c0 = (Cli.Ok a1, c)
                 /\ Prompting.validate_response a1
                      (Turn.days (lit "Plan a trip")) <> lit "Valid")).
Proof.
  apply (chat_turn_prints_last_answer Script.braces unit Samples2.one_match
           Script.no_rows Samples2.cited (lit "Plan a trip") []
           (Cli.World tt [] [])).
  vm_compute. reflexivity.
Defined.

(** ** The session: how it ends and what it asks *)

Section Padding.

Lemma lower_char_space (c : ascii) : is_space (lower_char c) = is_space c.
Proof. destruct c as [[] [] [] [] [] [] [] []]; reflexivity. Qed.

Lemma lower_stops (s : str) :
  Spec.stops is_space (lower s) -> Spec.stops is_space s.
Proof.
  destruct s as [|c s]; [trivial |]. cbn [lower map Spec.stops].
  now rewrite lower_char_space.
Qed.

Lemma lower_rev (s : str) : lower (rev s) = rev (lower s).
Proof. unfold lower. apply map_rev. Qed.

(** Stripping a padded word gives the word back. *)
Lemma strip_padded (ws1 word ws2 : str) :
  Spec.spaces ws1 -> Spec.spaces ws2 -> word <> [] ->
  Spec.stops is_space word -> Spec.stops is_space (rev word) ->
  strip (ws1 ++ word ++ ws2) = word.
Proof.
  intros H1 H2 N S1 S2. unfold strip.
  rewrite (lstrip_spaces_app _ H1).
  assert (L : lstrip (word ++ ws2) = word ++ ws2).
  { apply lstrip_fixed. destruct word; [congruence | exact S1]. }
  rewrite L. unfold rstrip. rewrite rev_app_distr.
  rewrite lstrip_spaces_app.
  - rewrite (lstrip_fixed _ S2). apply rev_involutive.
  - unfold Spec.spaces. apply Forall_rev. exact H2.
Qed.

Lemma exit_word_shape (word : str) :
  In (lower word) Turn.exit_words ->
  word <> [] /\ Spec.stops is_space word /\ Spec.stops is_space (rev word)
  /\ Cli.is_exit word = true.
Proof.
  intros H.
  assert (N : word <> []).
  { intros ->. cbn in H. destruct H as [H | [H | []]]; discriminate. }
  assert (S1 : Spec.stops is_space (lower word)).
  { destruct H as [<- | [<- | []]]; reflexivity. }
  assert (S2 : Spec.stops is_space (lower (rev word))).
  { rewrite lower_rev. destruct H as [<- | [<- | []]]; reflexivity. }
  split; [exact N |].
  split; [now apply lower_stops |].
  split; [now apply lower_stops |].
  destruct word as [|c word]; [congruence |].
  unfold Cli.is_exit.
  destruct H as [<- | [<- | []]]; rewrite eqb_refl;
    [reflexivity | apply orb_true_r].
Qed.

End Padding.

Section Session.
Import Cli.
Context {Score : Type} {SO : ScoreOps Score}.
Variable str_of_dict : dict str -> str.
Variable W : Type.
Variable query_pinecone :
  str -> nat -> W -> outcome (list (Match Score)) * W.
Variable session_run : list str -> W -> outcome (list Graph.Row) * W.
Variable chat_completion : list Turn -> Z -> W -> outcome str * W.

Local Abbreviation chat_turn :=
  (chat_turn str_of_dict query_pinecone session_run chat_completion).
Local Abbreviation chat_loop :=
  (chat_loop str_of_dict query_pinecone session_run chat_completion).
Local Abbreviation interactive_chat :=
  (interactive_chat str_of_dict query_pinecone session_run chat_completion).
Local Abbreviation answer_turn :=
  (Turn.answer_turn str_of_dict chat_completion).
Local Abbreviation asked := (@Turn.asked Score SO str_of_dict).

(** A turn reads no line, and only adds to the trace events of the kinds
    a session asks. *)
Lemma answer_turn_trace (query : str) (preferences : dict str)
      (ms : list (Match Score)) (gf : list GraphFact) (c : W)
      (inp : list str) (t : list event) :
  let r := answer_turn query preferences ms gf c inp t in
  stdin (snd r) = inp
  /\ exists t', trace (snd r) = t ++ t' /\ Forall (asked preferences) t'.
Proof.
  cbv zeta. unfold Turn.answer_turn.
  set (prompt := build_prompt str_of_dict query ms gf (Some preferences)).
  assert (A1 : asked preferences (Completion prompt 1100)).
  { exists query, ms, gf. left. split; reflexivity. }
  assert (A2 : asked preferences (Completion (prompt ++ followup) 1200)).
  { exists query, ms, gf. right. split; reflexivity. }
  assert (B : forall a, Forall (asked preferences)
                          (Turn.answer_block a ms gf)).
  { intros a. repeat constructor. }
  destruct (chat_completion prompt 1100 c) as [[a1 | e1] c3].
  - destruct (Py.eqb (validate_response a1 _) (lit "Valid")).
    + cbn [snd stdin trace]. split; [reflexivity |].
      exists (Completion prompt 1100 :: Turn.answer_block a1 ms gf).
      split; [now rewrite <- app_assoc |]. constructor; [exact A1 | apply B].
    + destruct (chat_completion (prompt ++ followup) 1200 c3)
        as [[a2 | e2] c4]; cbn [snd stdin trace];
        (split; [reflexivity |]).
      * exists (Completion prompt 1100
                  :: Completion (prompt ++ followup) 1200
                  :: Turn.answer_block a2 ms gf).
        split; [now rewrite <- !app_assoc |].
        constructor; [exact A1 |]. constructor; [exact A2 | apply B].
      * exists [Completion prompt 1100;
                Completion (prompt ++ followup) 1200].
        split; [now rewrite <- !app_assoc |].
        constructor; [exact A1 |]. constructor; [exact A2 | constructor].
  - cbn [snd stdin trace]. split; [reflexivity |].
    exists [Completion prompt 1100]. split; [reflexivity |].
    constructor; [exact A1 | constructor].
Qed.

Lemma chat_turn_trace (query : str) (preferences : dict str) (w : world W) :
  let r := chat_turn query preferences w in
  stdin (snd r) = stdin w
  /\ exists t', trace (snd r) = trace w ++ t'
                /\ Forall (asked preferences) t'.
Proof.
  cbv zeta. rewrite chat_turn_run.
  destruct (query_pinecone query 10 (collab w)) as [[ms | e] c1].
  2: { cbn [snd stdin trace]. split; [reflexivity |]. exists [].
       split; [now rewrite app_nil_r | constructor]. }
  destruct (ids_of ms) as [ids | e].
  2: { cbn [snd stdin trace]. split; [reflexivity |]. exists [].
       split; [now rewrite app_nil_r | constructor]. }
  destruct (session_run ids c1) as [[recs | e] c2].
  - apply answer_turn_trace.
  - destruct (answer_turn_trace query preferences ms [] c2 (stdin w)
                (trace w ++ [Printed (Turn.warning e)])) as [S [t' [E F]]].
    split; [exact S |]. exists (Printed (Turn.warning e) :: t').
    split; [now rewrite E, <- app_assoc |]. constructor; [exact I | exact F].
Qed.

(** The loop, by induction on its rounds: it only adds asked events, and
    when it returns it has read up to the first exit line and no further. *)
Lemma chat_loop_trace (fuel : nat) (preferences : dict str) (w : world W) :
  let r := chat_loop fuel preferences w in
  (exists t', trace (snd r) = trace w ++ t'
              /\ Forall (asked preferences) t')
  /\ (List.length (stdin w) < fuel -> fst r = Ok tt ->
      exists qs line,
        stdin w = qs ++ line :: stdin (snd r)
        /\ Forall (fun q => is_exit (strip q) = false) qs
        /\ is_exit (strip line) = true).
Proof.
  revert w. induction fuel as [|fuel IH]; intros w; cbv zeta.
  - split; [| intros L; inversion L].
    exists []. cbn. split; [now rewrite app_nil_r | constructor].
  - destruct (stdin w) as [|line rest] eqn:E.
    + rewrite (chat_loop_eof _ _ _ _ _ fuel preferences w E).
      cbn [fst snd trace stdin]. split; [| discriminate].
      exists [Printed Turn.question_prompt]. split; [reflexivity |].
      repeat constructor.
    + rewrite (chat_loop_step _ _ _ _ _ fuel preferences w line rest E).
      cbv zeta. destruct (is_exit (strip line)) eqn:X.
      * cbn [fst snd trace stdin]. split.
        -- exists [Printed Turn.question_prompt]. split; [reflexivity |].
           repeat constructor.
        -- intros _ _. exists [], line. split; [reflexivity |].
           split; [constructor | exact X].
      * set (w1 := World (collab w) rest
                         (trace w ++ [Printed Turn.question_prompt])).
        destruct (chat_turn_trace (strip line) preferences w1)
          as [S [t1 [T1 F1]]].
        destruct (chat_turn (strip line) preferences w1) as [[u | e] w2].
        -- cbn [snd] in S, T1.
           destruct (IH w2) as [[t2 [T2 F2]] K]. split.
           ++ exists (Printed Turn.question_prompt :: t1 ++ t2).
              split.
              ** rewrite T2, T1. unfold w1. cbn [trace].
                 now rewrite <- !app_assoc.
              ** constructor; [exact I |]. apply Forall_app. now split.
           ++ intros L O. rewrite S in K. unfold w1 in K. cbn [stdin] in K.
              cbn [List.length] in L.
              destruct (K ltac:(lia) O) as [qs [l' [E' [Fq X']]]].
              exists (line :: qs), l'. split; [now rewrite E' at 1 |].
              split; [constructor; assumption | exact X'].
        -- cbn [fst snd] in *. split; [| discriminate].
           exists (Printed Turn.question_prompt :: t1). split.
           ++ rewrite T1. unfold w1. cbn [trace].
              now rewrite <- !app_assoc.
           ++ constructor; [exact I | exact F1].
Qed.

(** The session up to the loop. *)
Lemma interactive_chat_run (w : world W) (b i : str) (rest : list str) :
  stdin w = b :: i :: rest ->
  interactive_chat w
  = chat_loop (S (List.length rest)) (Turn.preferences_of b i)
              (World (collab w) rest (trace w ++ Turn.opening)).
Proof.
  intros E. unfold Cli.interactive_chat.
  cbv [bind print input emit]. cbn [collab stdin trace]. rewrite E.
  cbn [collab stdin trace]. rewrite <- !app_assoc. reflexivity.
Qed.

Lemma interactive_chat_short (w : world W) :
  List.length (stdin w) < 2 ->
  fst (interactive_chat w) = Raise (lit "EOFError")
  /\ exists t', trace (snd (interactive_chat w)) = trace w ++ t'
                /\ Forall (fun e => is_completion e = false) t'.
Proof.
  intros L. unfold Cli.interactive_chat.
  cbv [bind print input emit]. cbn [collab stdin trace].
  destruct (stdin w) as [|b [|i rest]] eqn:E.
  - cbn [fst snd trace]. split; [reflexivity |].
    eexists. rewrite <- !app_assoc. split; [reflexivity |].
    repeat constructor.
  - cbn [fst snd trace collab stdin]. split; [reflexivity |].
    eexists. rewrite <- !app_assoc. split; [reflexivity |].
    repeat constructor.
  - cbn [List.length] in L. lia.
Qed.

(** X11.  When the user leaves the question blank or types an exit word, in any
    case and with any blanks around it, the loop ends at once: it returns
    without a call to any collaborator, and the lines after it stay
    unread. *)
Theorem chat_loop_stops_at_exit :
  forall (fuel : nat) (preferences : dict str) (w : world W)
         (ws1 word ws2 : str) (rest : list str),
    stdin w = (ws1 ++ word ++ ws2) :: rest ->
    Spec.spaces ws1 -> Spec.spaces ws2 ->
    word = [] \/ In (lower word) Turn.exit_words ->
    chat_loop (S fuel) preferences w
    = (Ok tt,
       World (collab w) rest (trace w ++ [Printed Turn.question_prompt])).
Proof.
  intros fuel preferences w ws1 word ws2 rest E H1 H2 Hw.
  rewrite (chat_loop_step _ _ _ _ _ fuel preferences w _ rest E). cbv zeta.
  assert (X : is_exit (strip (ws1 ++ word ++ ws2)) = true).
  { destruct Hw as [-> | Hw].
    - rewrite strip_spaces; [reflexivity |].
      apply Forall_app. split; [exact H1 | exact H2].
    - destruct (exit_word_shape word Hw) as [N [S1 [S2 X]]].
      now rewrite strip_padded. }
  now rewrite X.
Qed.

(** X12.  A session returns only by an exit line.  When [interactive_chat]
    returns, the input began with the budget and the interests, then
    questions none of which is blank or an exit word, then a line that is;
    what follows that line is still unread.  Every other session ends in
    an error, as the one whose input runs out. *)
Theorem interactive_chat_returns_at_exit :
  forall (w : world W),
    let r := interactive_chat w in
    (fst r = Ok tt ->
     exists b i qs line,
       stdin w = b :: i :: qs ++ line :: stdin (snd r)
       /\ Forall (fun q => is_exit (strip q) = false) qs
       /\ is_exit (strip line) = true)
    /\ (Forall (fun q => is_exit (strip q) = false) (skipn 2 (stdin w)) ->
        exists e, fst r = Raise e).
Proof.
  intros w r. subst r.
  destruct (stdin w) as [|b [|i rest]] eqn:E.
  1,2: destruct (interactive_chat_short w) as [R _];
    [rewrite E; cbn [List.length]; lia |];
    rewrite R; split; [discriminate | intros _; now eexists].
  rewrite (interactive_chat_run w b i rest E).
  set (w1 := World (collab w) rest (trace w ++ Turn.opening)).
  destruct (chat_loop_trace (S (List.length rest))
              (Turn.preferences_of b i) w1) as [_ K].
  cbn [stdin w1] in K. split.
  - intros O. destruct (K (Nat.lt_succ_diag_r _) O) as [qs [line [E' [F X]]]].
    exists b, i, qs, line. split; [now rewrite E' at 1 |]. now split.
  - cbn [skipn]. intros F.
    destruct (fst (chat_loop (S (List.length rest))
                     (Turn.preferences_of b i) w1)) as [[] | e] eqn:O;
      [| now exists e].
    exfalso. destruct (K (Nat.lt_succ_diag_r _) eq_refl)
      as [qs [line [E' [_ X]]]].
    rewrite E' in F. apply Forall_app in F as [_ F].
    apply Forall_inv in F. congruence.
Qed.

Lemma no_template_is_concise (query : str) (ms : list (Match Score))
      (gf : list GraphFact) (preferences : dict str) :
  dict_get (lit "template") preferences = None ->
  exists u,
    build_prompt str_of_dict query ms gf (Some preferences)
    = [Turn.concise_system (Turn.days query);
       {| role := lit "user"; content := u |}].
Proof.
  intros H. unfold build_prompt.
  destruct preferences as [|x d]; cbv beta iota zeta.
  - eexists. reflexivity.
  - rewrite H. eexists. reflexivity.
Qed.

(** X13.  A session only ever asks with the concise template.  Every completion
    call that [interactive_chat] makes, whatever is typed and whatever the
    collaborators answer, has a prompt of a system turn and a user turn,
    the system turn being that of the concise template for 3 or 4 days; it
    has a budget of 1100 tokens, or carries the follow-up as a third turn
    and has a budget of 1200 tokens. *)
Theorem interactive_chat_asks_concise :
  forall (w : world W),
  exists t : list event,
    trace (snd (interactive_chat w)) = trace w ++ t
    /\ forall (p : list Turn) (n : Z),
         In (Completion p n) t ->
         exists (days : Z) (u : str),
           (days = 3%Z \/ days = 4%Z)
           /\ ((p = [Turn.concise_system days;
                     {| role := lit "user"; content := u |}]
                /\ n = 1100%Z)
               \/ (p = [Turn.concise_system days;
                        {| role := lit "user"; content := u |}]
                       ++ followup
                   /\ n = 1200%Z)).
Proof.
  intros w.
  destruct (stdin w) as [|b [|i rest]] eqn:E.
  1,2: destruct (interactive_chat_short w) as [_ [t [T F]]];
    [rewrite E; cbn [List.length]; lia |];
    exists t; split; [exact T |]; intros p n H;
    rewrite Forall_forall in F; specialize (F _ H); discriminate.
  rewrite (interactive_chat_run w b i rest E).
  set (w1 := World (collab w) rest (trace w ++ Turn.opening)).
  destruct (chat_loop_trace (S (List.length rest))
              (Turn.preferences_of b i) w1) as [[t [T F]] _].
  exists (Turn.opening ++ t). split.
  - rewrite T. unfold w1. cbn [trace]. now rewrite <- app_assoc.
  - intros p n H. apply in_app_or in H as [H | H].
    { destruct H as [H | [H | [H | []]]]; discriminate. }
    rewrite Forall_forall in F. specialize (F _ H).
    destruct F as [query [ms [gf F]]]. cbv zeta in F.
    destruct (no_template_is_concise query ms gf
                (Turn.preferences_of b i) eq_refl) as [u U].
    rewrite U in F. exists (Turn.days query), u. split.
    + unfold Turn.days. destruct (contains _ _); auto.
    + exact F.
Qed.

End Session.

Lemma chat_loop_stops_at_exit_witness :
  Cli.chat_loop Script.braces Script.no_matches Script.no_rows
                Script.three_days 1 []
                (Cli.World tt [lit "  QuIt "; lit "Plan a trip"] [])
  = (Cli.Ok tt,
     Cli.World tt [lit "Plan a trip"]
               ([] ++ [Cli.Printed Turn.question_prompt])).
Proof.
  apply (chat_loop_stops_at_exit Script.braces unit Script.no_matches
           Script.no_rows Script.three_days 0 []
           (Cli.World tt [lit "  QuIt "; lit "Plan a trip"] [])
           (lit "  ") (lit "QuIt") (lit " ") [lit "Plan a trip"]).
  - reflexivity.
  - repeat constructor.
  - repeat constructor.
  - right. right. left. reflexivity.
Defined.

Lemma interactive_chat_returns_at_exit_witness :
  let w := Cli.World tt [lit "low"; lit "beach"; lit "Plan a trip";
                         lit "Exit"; lit "unread"] [] in
  let r := Cli.interactive_chat Script.braces Script.no_matches
             Script.no_rows Script.three_days w in
  exists b i qs line,
    Cli.stdin w = b :: i :: qs ++ line :: Cli.stdin (snd r)
    /\ Forall (fun q => Cli.is_exit (strip q) = false) qs
    /\ Cli.is_exit (strip line) = true.
Proof.
  apply (proj1 (interactive_chat_returns_at_exit Script.braces unit
                  Script.no_matches Script.no_rows Script.three_days
                  (Cli.World tt [lit "low"; lit "beach"; lit "Plan a trip";
                                 lit "Exit"; lit "unread"] []))).
  vm_compute. reflexivity.
Defined.

(** ** Batches: [range], slices and [chunked] *)

Section Batches.
Import Cli Seq.

Lemma clamp_inside (len i : Z) : (0 <= i <= len)%Z -> clamp len i = i.
Proof. unfold clamp. intros H. destruct (Z.ltb_spec i 0); lia. Qed.

Lemma clamp_beyond (len i : Z) : (0 <= len <= i)%Z -> clamp len i = len.
Proof. unfold clamp. intros H. destruct (Z.ltb_spec i 0); lia. Qed.

(** A slice of positive width that starts inside the list. *)
Lemma slice_from {A : Type} (l : list A) (i : nat) (n : Z) :
  (0 < n)%Z -> i <= List.length l ->
  slice l (Z.of_nat i) (Z.of_nat i + n) = firstn (Z.to_nat n) (skipn i l).
Proof.
  intros Hn Hi. unfold slice.
  rewrite (clamp_inside (Z.of_nat (List.length l)) (Z.of_nat i)) by lia.
  rewrite Nat2Z.id.
  destruct (Z.le_gt_cases (Z.of_nat i + n) (Z.of_nat (List.length l))).
  - rewrite clamp_inside by lia. f_equal. lia.
  - rewrite clamp_beyond by lia.
    rewrite !firstn_all2; [reflexivity | |]; rewrite length_skipn; lia.
Qed.

(** The slices at the starts [i], [i + n], ... tile the list from [i] on:
    together they are its rest, none is empty or longer than [n], and all
    but the last have exactly [n] items. *)
Lemma slices_tile {A : Type} (l : list A) (n : Z) :
  (0 < n)%Z ->
  forall (fuel i : nat),
    List.length l - i <= fuel ->
    let cs := map (fun k => slice l k (k + n)%Z)
                  (range_up fuel (Z.of_nat i)
                            (Z.of_nat (List.length l)) n) in
    List.concat cs = skipn i l
    /\ Forall (fun c => c <> [] /\ List.length c <= Z.to_nat n) cs
    /\ Forall (fun c => List.length c = Z.to_nat n) (removelast cs).
Proof.
  intros Hn fuel. induction fuel as [|fuel IH]; intros i Hf; cbv zeta.
  - cbn [range_up map List.concat removelast].
    rewrite skipn_all2 by lia. repeat split; constructor.
  - cbn [range_up].
    destruct (Z.ltb_spec (Z.of_nat i) (Z.of_nat (List.length l))) as [Lt | Ge].
    2: { cbn [map List.concat removelast]. rewrite skipn_all2 by lia.
         repeat split; constructor. }
    cbn [map List.concat].
    replace (Z.of_nat i + n)%Z with (Z.of_nat (i + Z.to_nat n)) by lia.
    destruct (IH (i + Z.to_nat n)) as [C [F R]]; [lia |].
    replace (Z.of_nat (i + Z.to_nat n)) with (Z.of_nat i + n)%Z in * by lia.
    rewrite slice_from by lia.
    split; [| split].
    + rewrite C. rewrite Nat.add_comm, <- skipn_skipn.
      apply firstn_skipn.
    + constructor; [| exact F]. split.
      * intros E. apply (f_equal (@List.length A)) in E.
        rewrite length_firstn, length_skipn in E. cbn [List.length] in E.
        lia.
      * rewrite length_firstn. lia.
    + set (rest := map _ (range_up fuel _ _ n)) in *.
      destruct rest as [|c cs'] eqn:Er; [constructor |].
      change (removelast (?x :: c :: cs'))
        with (x :: removelast (c :: cs')).
      constructor; [| exact R].
      rewrite length_firstn, length_skipn.
      assert (Lc : List.length (List.concat (c :: cs')) <> 0).
      { inversion F as [|? ? [Nc _] _]; subst. cbn [List.concat].
        rewrite length_app. destruct c; [congruence | cbn; lia]. }
      rewrite C, length_skipn in Lc. lia.
Qed.

(** The batches of a positive size. *)
Lemma chunked_tiles {A : Type} (l : list A) (n : Z) :
  (0 < n)%Z ->
  let starts := range_up (List.length l) 0 (Z.of_nat (List.length l)) n in
  let cs := map (fun i => slice l i (i + n)%Z) starts in
  Upload.chunked l n = Ok cs
  /\ List.concat cs = l
  /\ Forall (fun c => c <> [] /\ (Z.of_nat (List.length c) <= n)%Z) cs.
Proof.
  intros H. cbv zeta.
  destruct (slices_tile l n H (List.length l) 0) as [C [F _]]; [lia |].
  cbv zeta in C, F. change (Z.of_nat 0) with 0%Z in *.
  split; [| split].
  - unfold Upload.chunked, range.
    destruct (Z.eqb_spec n 0) as [-> | _]; [lia |].
    destruct (Z.ltb_spec 0 n) as [_ | ?]; [| lia].
    now rewrite Z.sub_0_r, Nat2Z.id.
  - exact C.
  - eapply Forall_impl; [| exact F]. cbv beta. intros c [N L].
    split; [exact N | lia].
Qed.

(** X14.  [chunked] cuts a list into consecutive batches.  For a positive size
    the batches put end to end are the list, no batch is empty or longer
    than the size, and every batch but the last is full.  A size of zero
    raises, and a negative size yields no batch at all, whatever the
    list. *)
Theorem chunked_partition :
  forall (A : Type) (iterable : list A) (n : Z),
    ((0 < n)%Z ->
     exists cs,
       Upload.chunked iterable n = Ok cs
       /\ List.concat cs = iterable
       /\ Forall (fun c => c <> [] /\ (Z.of_nat (List.length c) <= n)%Z) cs
       /\ Forall (fun c => Z.of_nat (List.length c) = n) (removelast cs))
    /\ (n = 0%Z -> exists e, Upload.chunked iterable n = Raise e)
    /\ ((n < 0)%Z -> Upload.chunked iterable n = Ok []).
Proof.
  intros A iterable n. unfold Upload.chunked, range.
  split; [| split].
  - intros Hn.
    destruct (Z.eqb_spec n 0) as [-> | _]; [lia |].
    destruct (Z.ltb_spec 0 n) as [_ | ?]; [| lia].
    eexists. split; [reflexivity |].
    destruct (slices_tile iterable n Hn
                (Z.to_nat (Z.of_nat (List.length iterable) - 0)) 0)
      as [C [F R]]; [lia |].
    cbv zeta in C, F, R. change (Z.of_nat 0) with 0%Z in *.
    split; [exact C |]. split.
    + eapply Forall_impl; [| exact F]. cbv beta. intros c [N L].
      split; [exact N | lia].
    + eapply Forall_impl; [| exact R]. cbv beta. intros c L. lia.
  - intros ->. eexists. reflexivity.
  - intros Hn.
    destruct (Z.eqb_spec n 0) as [-> | _]; [lia |].
    destruct (Z.ltb_spec 0 n) as [? | _]; [lia |].
    replace (Z.to_nat (0 - Z.of_nat (List.length iterable))) with 0 by lia.
    reflexivity.
Qed.

Lemma chunked_partition_witness :
  exists cs,
    Upload.chunked [1; 2; 3; 4; 5; 6; 7] 3%Z = Ok cs
    /\ List.concat cs = [1; 2; 3; 4; 5; 6; 7]
    /\ Forall (fun c => c <> [] /\ (Z.of_nat (List.length c) <= 3)%Z) cs
    /\ Forall (fun c => Z.of_nat (List.length c) = 3%Z) (removelast cs).
Proof.
  apply (proj1 (chunked_partition nat [1; 2; 3; 4; 5; 6; 7] 3%Z)). lia.
Defined.

End Batches.

(** ** The benchmark's node ids *)

Section NodeIds.
Import Seq.

Lemma split_nonempty (sep : ascii) (s : str) : split sep s <> [].
Proof.
  destruct s as [|c s]; cbn [split]; [discriminate |].
  destruct (split sep s) as [|p ps]; [discriminate |].
  destruct (eqb_char c sep); discriminate.
Qed.

(** The parts of a split are made of characters of the text other than
    the separator. *)
Lemma split_parts (sep : ascii) (s : str) :
  Forall (fun p => forall c, In c p -> In c s /\ c <> sep) (split sep s).
Proof.
  induction s as [|c s IH]; cbn [split].
  - constructor; [intros c [] | constructor].
  - destruct (split sep s) as [|p ps]; [constructor; [intros x [] | constructor] |].
    inversion IH as [|? ? Hp Hps]; subst.
    assert (T : Forall (fun p => forall x, In x p -> In x (c :: s) /\ x <> sep) ps).
    { eapply Forall_impl; [| exact Hps]. cbv beta. intros q H x Hx.
      destruct (H x Hx). split; [now right | assumption]. }
    assert (Tp : forall x, In x p -> In x (c :: s) /\ x <> sep).
    { intros x Hx. destruct (Hp x Hx). split; [now right | assumption]. }
    destruct (eqb_char c sep) eqn:E.
    + constructor; [intros x [] |]. constructor; assumption.
    + constructor; [| exact T].
      intros x [<- | Hx]; [| now apply Tp].
      split; [now left |]. intros ->. now rewrite eqb_char_refl in E.
Qed.

(** Splitting a joined list gives the list back, when no part contains
    the separator. *)
Lemma split_join (sep : ascii) (l : list str) :
  l <> [] -> Forall (fun p => ~ In sep p) l ->
  split sep (join [sep] l) = l.
Proof.
  assert (P : forall p rest, ~ In sep p ->
              split sep (p ++ sep :: rest) = p :: split sep rest).
  { intros p rest. induction p as [|c p IH]; intros N.
    - cbn [app split]. pose proof (split_nonempty sep rest) as Ne.
      destruct (split sep rest) as [|q qs]; [congruence |].
      now rewrite eqb_char_refl.
    - cbn [app split]. rewrite IH by (intros H; apply N; now right).
      destruct (eqb_char c sep) eqn:E; [| reflexivity].
      apply eqb_char_iff in E. subst c. exfalso. apply N. now left. }
  assert (Q : forall p, ~ In sep p -> split sep p = [p]).
  { intros p. induction p as [|c p IH]; intros N; [reflexivity |].
    cbn [split]. rewrite IH by (intros H; apply N; now right).
    destruct (eqb_char c sep) eqn:E; [| reflexivity].
    apply eqb_char_iff in E. subst c. exfalso. apply N. now left. }
  induction l as [|p l IH]; intros Ne F; [congruence |].
  inversion F as [|? ? Hp Hl]; subst.
  destruct l as [|q l]; [now apply Q |].
  rewrite join_cons by discriminate. cbn [app].
  rewrite (P p _ Hp). f_equal. apply IH; [discriminate | exact Hl].
Qed.

Lemma in_strip (c : ascii) (s : str) : In c (strip s) -> In c s.
Proof.
  intros H. destruct (lstrip_split s) as [ws [E _]].
  destruct (rstrip_prefix (lstrip s)) as [ws' [E' _]].
  rewrite E, E'. apply in_or_app. right. apply in_or_app. now left.
Qed.

(** X15.  The node ids of the benchmark.  When [BENCH_NODE_IDS] is unset or
    empty they are the three sample ids.  Otherwise they are the stripped
    parts between the commas that are not blank: each is non-empty, has no
    comma and no whitespace at its ends; a value of commas and whitespace
    alone gives no id at all, not the samples; and ids of that shape,
    joined by commas, are read back as they were. *)
Theorem parse_node_ids_shape :
  forall env : option str,
    let ids := Bench.parse_node_ids env in
    (truthy env = false ->
     ids = [lit "sample1"; lit "sample2"; lit "sample3"])
    /\ (truthy env = true ->
        Forall (fun i => i <> [] /\ ~ In ","%char i /\ strip i = i) ids)
    /\ (truthy env = true ->
        (forall s, env = Some s ->
                   Forall (fun c => c = ","%char \/ is_space c = true) s) ->
        ids = [])
    /\ (forall l : list str,
           l <> [] ->
           Forall (fun i => i <> [] /\ ~ In ","%char i /\ strip i = i) l ->
           env = Some (join [","%char] l) -> ids = l).
Proof.
  intros env ids. subst ids. unfold Bench.parse_node_ids.
  split; [intros ->; reflexivity |].
  split; [| split].
  - intros ->. apply Forall_forall. intros i Hi.
    apply in_map_iff in Hi as [p [<- Hp]].
    apply filter_In in Hp as [Hp T].
    pose proof (split_parts ","%char
                  match env with Some s => s | None => [] end) as F.
    rewrite Forall_forall in F. specialize (F _ Hp).
    split; [| split].
    + destruct (strip p); [discriminate | discriminate].
    + intros H. apply in_strip in H. destruct (F _ H) as [_ N]. congruence.
    + apply strip_idem.
  - intros -> B. destruct env as [s |]; [| reflexivity].
    specialize (B s eq_refl).
    rewrite filter_none; [reflexivity |].
    pose proof (split_parts ","%char s) as F.
    eapply Forall_impl; [| exact F]. cbv beta. intros p H.
    rewrite strip_spaces; [reflexivity |].
    apply Forall_forall. intros c Hc. destruct (H c Hc) as [Hs N].
    rewrite Forall_forall in B. destruct (B c Hs); congruence.
  - intros l Ne F ->.
    assert (T : truthy (Some (join [","%char] l)) = true).
    { destruct l as [|p l]; [congruence |].
      inversion F as [|? ? [Np _] _]; subst.
      destruct l as [|q l].
      - cbn [join]. destruct p; [congruence | reflexivity].
      - rewrite join_cons by discriminate.
        destruct p; [congruence | reflexivity]. }
    rewrite T, split_join.
    + rewrite filter_all.
      * rewrite <- (map_id l) at 2. apply map_ext_in. intros p Hp.
        rewrite Forall_forall in F. now destruct (F p Hp) as [_ [_ S]].
      * eapply Forall_impl; [| exact F]. cbv beta. intros p [N [_ S]].
        rewrite S. destruct p; [congruence | reflexivity].
    + exact Ne.
    + eapply Forall_impl; [| exact F]. cbv beta. now intros p [_ [N _]].
Qed.

Lemma parse_node_ids_shape_witness :
  Bench.parse_node_ids (Some (lit " , ,")) = []
  /\ Bench.parse_node_ids (Some (lit "city_hue,city_hanoi"))
     = [lit "city_hue"; lit "city_hanoi"].
Proof.
  split.
  - apply (proj1 (proj2 (proj2 (parse_node_ids_shape (Some (lit " , ,")))))).
    + reflexivity.
    + intros s E. injection E as <-.
      repeat constructor; (now left) || (now right).
  - apply (proj2 (proj2 (proj2 (parse_node_ids_shape
                                  (Some (lit "city_hue,city_hanoi")))))).
    + discriminate.
    + repeat constructor; try discriminate;
        intros H; repeat (destruct H as [H | H]; [discriminate |]);
        exact H.
    + reflexivity.
Defined.

End NodeIds.

(** ** The file cache of the embeddings *)

Section CacheFacts.
Import Cli Seq EmbedSync CacheNotions.
Variables Emb W : Type.
Variable create : str -> list str -> W -> outcome (list Emb) * W.
Variable json_dump : Emb -> str.
Variable json_load : str -> option Emb.

Local Abbreviation embed_text :=
  (@EmbedSync.embed_text Emb W create json_dump json_load).
Local Abbreviation embed_texts :=
  (@EmbedSync.embed_texts Emb W create json_dump json_load).
Local Abbreviation embed_batches :=
  (@EmbedSync.embed_batches Emb W create json_dump json_load).
Local Abbreviation process_batch :=
  (@EmbedSync.process_batch Emb W create json_dump json_load).
Local Abbreviation scan_batch :=
  (@EmbedSync.scan_batch Emb W json_load).
Local Abbreviation store_batch :=
  (@EmbedSync.store_batch Emb W json_dump).
Local Abbreviation cached := (@CacheNotions.cached Emb json_load).
Local Abbreviation lookups := (@CacheNotions.lookups Emb json_load).
Local Abbreviation saved := (@CacheNotions.saved Emb json_dump).

Lemma env_eta (s : env W) : Env (files s) (client s) (requests s) = s.
Proof. now destruct s. Qed.

Lemma set_item_middle {A : Type} (p q : list A) (x y : A) :
  set_item (p ++ x :: q) (List.length p) y = Ok (p ++ y :: q).
Proof.
  induction p as [|a p IH]; [reflexivity |].
  cbn [app List.length set_item]. now rewrite IH.
Qed.

Lemma item_skipn {A : Type} (l : list A) (k : nat) :
  item l k = match skipn k l with
             | x :: _ => Ok x
             | [] => Raise (lit "IndexError: list index out of range")
             end.
Proof.
  unfold item. revert l. induction k as [|k IH]; intros [|a l];
    try reflexivity. cbn [nth_error skipn]. apply IH.
Qed.

Lemma skipn_S_tail {A : Type} (l : list A) (k : nat) (x : A) (r : list A) :
  skipn k l = x :: r -> skipn (S k) l = r.
Proof.
  revert l. induction k as [|k IH]; intros [|a l] H; try discriminate.
  - cbn [skipn] in *. now injection H as _ ->.
  - cbn [skipn] in H. now apply IH.
Qed.

Lemma load_lookup (use_cache : bool) (model text : str) (s : env W) :
  (if use_cache
   then load_cache json_load (Embed.get_text_hash text (Some model))
   else ret None) s
  = (Ok (if use_cache then cached (files s) model text else None), s).
Proof.
  destruct use_cache; [| reflexivity].
  unfold load_cache, CacheNotions.cached.
  now destruct (dict_get _ (files s)).
Qed.

Lemma cached_after_save (files : dict str) (text model : str) (e : Emb) :
  @round_trip Emb json_dump json_load ->
  cached (dict_set (Embed.get_text_hash text (Some model)) (json_dump e)
                   files) model text = Some e.
Proof.
  intros RT. unfold CacheNotions.cached, dict_set. cbn [dict_get].
  now rewrite eqb_refl.
Qed.

Lemma holes_length (j : nat) (batch : list str) (l : list (option Emb)) :
  List.length batch = List.length l ->
  List.length (misses batch l) = List.length (holes j l).
Proof.
  revert j l. induction batch as [|t batch IH]; intros j [|[e |] l] H;
    try discriminate; cbn [misses holes List.length]; auto.
Qed.

Lemma misses_incl (batch : list str) (l : list (option Emb)) :
  incl (misses batch l) batch /\ List.length (misses batch l) <= List.length batch.
Proof.
  revert l. induction batch as [|t batch IH]; intros [|[e |] l];
    cbn [misses List.length]; try (split; [apply incl_nil_l | lia]).
  - destruct (IH l) as [I L]. split; [now apply incl_tl | lia].
  - destruct (IH l) as [I L]. split; [| lia].
    apply incl_cons; [now left | now apply incl_tl].
Qed.

Lemma fill_nil (l : list (option Emb)) : fill l [] = l.
Proof. induction l as [|[e |] l IH]; cbn [fill]; now rewrite ?IH. Qed.

(** The first loop of a batch: it fills in what the cache holds and
    collects the rest, and leaves everything else as it was. *)
Lemma scan_batch_run (model : str) (use_cache : bool) (batch : list str) :
  forall (p : list (option Emb)) (ut : list str) (ui : list nat)
         (s : env W),
    let l := lookups use_cache (files s) model batch in
    scan_batch model use_cache (List.length p) batch
      (Scan (p ++ repeat None (List.length batch)) ut ui) s
    = (Ok (Scan (p ++ l) (ut ++ misses batch l)
                (ui ++ holes (List.length p) l)), s).
Proof.
  induction batch as [|text batch IH]; intros p ut ui s; cbv zeta.
  - cbn [lookups map misses holes List.length repeat EmbedSync.scan_batch].
    unfold CacheNotions.lookups. cbn [map misses holes].
    now rewrite !app_nil_r.
  - unfold CacheNotions.lookups. cbn [map List.length repeat].
    cbn [EmbedSync.scan_batch]. unfold bind at 1. rewrite load_lookup.
    destruct (if use_cache then cached (files s) model text else None)
      as [e |] eqn:C.
    + unfold bind at 1, of_outcome at 1.
      cbn [batch_embeddings_local uncached_texts_local
           uncached_indices_local].
      rewrite set_item_middle.
      replace (p ++ Some e :: repeat None (List.length batch))
        with ((p ++ [Some e]) ++ repeat None (List.length batch))
        by now rewrite <- app_assoc.
      replace (S (List.length p)) with (List.length (p ++ [Some e]))
        by (rewrite length_app; cbn [List.length]; lia).
      rewrite IH. cbv zeta. unfold CacheNotions.lookups.
      cbn [misses holes]. rewrite <- app_assoc, length_app.
      cbn [List.length app]. now rewrite Nat.add_1_r.
    + cbn [batch_embeddings_local uncached_texts_local
           uncached_indices_local].
      replace (p ++ None :: repeat None (List.length batch))
        with ((p ++ [None]) ++ repeat None (List.length batch))
        by now rewrite <- app_assoc.
      replace (S (List.length p)) with (List.length (p ++ [None]))
        by (rewrite length_app; cbn [List.length]; lia).
      rewrite IH. cbv zeta. unfold CacheNotions.lookups.
      cbn [misses holes]. rewrite <- !app_assoc, length_app.
      cbn [List.length app]. now rewrite Nat.add_1_r.
Qed.

Lemma holes_split (q : list (option Emb)) :
  forall (j i : nat) (hs : list nat),
    holes j q = i :: hs ->
    exists (somes : list Emb) (q' : list (option Emb)),
      q = map Some somes ++ None :: q'
      /\ i = j + List.length somes
      /\ hs = holes (S i) q'.
Proof.
  induction q as [|[e |] q IH]; intros j i hs H; cbn [holes] in H.
  - discriminate.
  - destruct (IH _ _ _ H) as [somes [q' [E [I Hs]]]].
    exists (e :: somes), q'. cbn [map app List.length].
    split; [now rewrite E |]. split; [lia | exact Hs].
  - injection H as <- <-. exists [], q. cbn [map app List.length].
    split; [reflexivity |]. split; [lia | reflexivity].
Qed.

Lemma fill_somes (somes : list Emb) (q : list (option Emb))
      (d : Emb) (ds : list Emb) :
  fill (map Some somes ++ None :: q) (d :: ds)
  = map Some somes ++ Some d :: fill q ds.
Proof.
  induction somes as [|e somes IH]; [reflexivity |].
  cbn [map app fill]. now rewrite IH.
Qed.

Lemma bind_ok {A B : Type} (a : A) (k : A -> M W B) (s : env W) :
  bind (of_outcome (Ok a)) k s = k a s.
Proof. reflexivity. Qed.

Lemma save_step (model : str) (use_cache : bool) (ut : list str)
      (k : nat) (t : str) (uts : list str) (d : Emb) (s : env W) :
  skipn k ut = t :: uts ->
  (if use_cache
   then bind (of_outcome (item ut k))
             (fun text =>
                save_cache json_dump
                  (Embed.get_text_hash text (Some model)) d)
   else ret tt) s
  = (Ok tt,
     Env (if use_cache
          then dict_set (Embed.get_text_hash t (Some model))
                        (json_dump d) (files s)
          else files s)
         (client s) (requests s)).
Proof.
  intros H. destruct use_cache.
  - rewrite item_skipn, H. reflexivity.
  - unfold ret. now rewrite env_eta.
Qed.

(** The second loop of a batch, entered with the holes of [q] still to
    fill: it fills them from the answer, in order, saving as it goes; an
    answer with more embeddings than holes raises. *)
Lemma store_batch_run (model : str) (use_cache : bool)
      (ut : list str) (ui : list nat) :
  forall (data : list Emb) (k : nat) (p q : list (option Emb))
         (uts : list str) (s : env W),
    skipn k ui = holes (List.length p) q ->
    skipn k ut = uts ->
    List.length uts = List.length (holes (List.length p) q) ->
    (List.length data <= List.length uts ->
     store_batch model use_cache k data ut ui (p ++ q) s
     = (Ok (p ++ fill q data),
        Env (if use_cache then saved model uts data (files s)
             else files s)
            (client s) (requests s)))
    /\ (List.length uts < List.length data ->
        exists s',
          store_batch model use_cache k data ut ui (p ++ q) s
          = (Raise (lit "IndexError: list index out of range"), s')
          /\ client s' = client s /\ requests s' = requests s).
Proof.
  induction data as [|d ds IH]; intros k p q uts s Hi Ht Hl.
  - split; [| cbn [List.length]; lia].
    intros _. cbn [EmbedSync.store_batch]. unfold ret.
    rewrite fill_nil. unfold CacheNotions.saved. rewrite combine_nil.
    cbn [fold_left]. destruct use_cache; now rewrite env_eta.
  - destruct (holes (List.length p) q) as [|i hs] eqn:Hh.
    + destruct uts; [| discriminate]. split; [cbn [List.length]; lia |].
      intros _. cbn [EmbedSync.store_batch]. rewrite item_skipn, Hi.
      exists s. split; [reflexivity |]. now split.
    + destruct (holes_split q _ _ _ Hh) as [somes [q' [Eq [Ei Ehs]]]].
      destruct uts as [|t uts]; [discriminate |].
      set (s1 := Env (if use_cache
                      then dict_set (Embed.get_text_hash t (Some model))
                                    (json_dump d) (files s)
                      else files s)
                     (client s) (requests s)).
      assert (Step : store_batch model use_cache k (d :: ds) ut ui
                       (p ++ q) s
                     = store_batch model use_cache (S k) ds ut ui
                         (((p ++ map Some somes) ++ [Some d]) ++ q') s1).
      { cbn [EmbedSync.store_batch]. rewrite item_skipn, Hi, bind_ok.
        assert (S1 : set_item (p ++ q) i (Some d)
                     = Ok (((p ++ map Some somes) ++ [Some d]) ++ q')).
        { rewrite Eq, app_assoc.
          replace i with (List.length (p ++ map Some somes))
            by (rewrite length_app, length_map; lia).
          rewrite set_item_middle. now rewrite <- !app_assoc. }
        rewrite S1, bind_ok. unfold bind at 1.
        now rewrite (save_step model use_cache ut k t uts d s Ht). }
      rewrite Step.
      assert (Lp : List.length ((p ++ map Some somes) ++ [Some d]) = S i).
      { rewrite !length_app, length_map. cbn [List.length]. lia. }
      destruct (IH (S k) ((p ++ map Some somes) ++ [Some d]) q' uts s1)
        as [I1 I2].
      * rewrite Lp, <- Ehs. now apply (skipn_S_tail ui k i).
      * now apply (skipn_S_tail ut k t).
      * rewrite Lp, <- Ehs. cbn [List.length] in Hl. lia.
      * split.
        -- intros L. cbn [List.length] in L. rewrite I1 by lia.
           f_equal.
           ++ f_equal. rewrite Eq, fill_somes. now rewrite <- !app_assoc.
           ++ unfold s1. cbn [files client requests].
              destruct use_cache; reflexivity.
        -- intros L. cbn [List.length] in L.
           destruct I2 as [s' [R [C Q]]]; [lia |].
           exists s'. split; [exact R |]. split; [exact C | exact Q].
Qed.

Lemma lookups_length (use_cache : bool) (files : dict str) (model : str)
      (batch : list str) :
  List.length (lookups use_cache files model batch) = List.length batch.
Proof. apply length_map. Qed.

(** A batch, run: nothing is asked when the cache holds every text; else
    one request goes out for the texts it does not hold. *)
Lemma process_batch_run (model : str) (use_cache : bool)
      (batch : list str) (s : env W) :
  let l := lookups use_cache (files s) model batch in
  let ut := misses batch l in
  process_batch model use_cache batch s
  = match ut with
    | [] => (Ok l, s)
    | _ :: _ =>
        let s1 := Env (files s) (snd (create model ut (client s)))
                      (requests s ++ [(model, ut)]) in
        match fst (create model ut (client s)) with
        | Raise e => (Raise e, s1)
        | Ok data =>
            store_batch model use_cache 0 data ut (holes 0 l) l s1
        end
    end.
Proof.
  cbv zeta. unfold EmbedSync.process_batch. unfold bind at 1.
  pose proof (scan_batch_run model use_cache batch [] [] [] s) as R.
  cbv zeta in R. cbn [app List.length] in R. rewrite R.
  cbn [uncached_texts_local uncached_indices_local
       batch_embeddings_local].
  destruct (misses batch (lookups use_cache (files s) model batch))
    as [|t ut] eqn:E; [reflexivity |].
  unfold bind at 1, embeddings_create at 1.
  destruct (create model (t :: ut) (client s)) as [[data | e] c];
    reflexivity.
Qed.

(** A batch whose answer is not too long. *)
Lemma process_batch_filled (model : str) (use_cache : bool)
      (batch : list str) (s : env W) (data : list Emb) (c : W) :
  let l := lookups use_cache (files s) model batch in
  let ut := misses batch l in
  ut <> [] ->
  create model ut (client s) = (Ok data, c) ->
  (List.length data <= List.length ut ->
   process_batch model use_cache batch s
   = (Ok (fill l data),
      Env (if use_cache then saved model ut data (files s) else files s)
          c (requests s ++ [(model, ut)])))
  /\ (List.length ut < List.length data ->
      exists s',
        process_batch model use_cache batch s
        = (Raise (lit "IndexError: list index out of range"), s')
        /\ client s' = c
        /\ requests s' = requests s ++ [(model, ut)]).
Proof.
  cbv zeta. intros N C. rewrite process_batch_run. cbv zeta.
  set (l := lookups use_cache (files s) model batch) in *.
  set (ut := misses batch l) in *.
  destruct ut as [|t ut'] eqn:E; [congruence |]. rewrite <- E in *.
  rewrite C. cbn [fst snd].
  destruct (store_batch_run model use_cache ut (holes 0 l) data 0 [] l ut
              (Env (files s) c (requests s ++ [(model, ut)])))
    as [S1 S2]; try reflexivity.
  { subst ut. apply holes_length. subst l. now rewrite lookups_length. }
  cbn [app files client requests] in S1, S2. split; assumption.
Qed.

Lemma fill_complete (batch : list str) :
  forall (l : list (option Emb)) (data : list Emb),
    List.length batch = List.length l ->
    List.length data = List.length (misses batch l) ->
    exists r, fill l data = map Some r /\ List.length r = List.length l.
Proof.
  induction batch as [|t batch IH]; intros [|[e |] l] data Hl Hd;
    try discriminate.
  - exists []. split; reflexivity.
  - cbn [misses] in Hd. cbn [List.length] in Hl.
    destruct (IH l data) as [r [F L]]; [lia | exact Hd |].
    exists (e :: r). cbn [fill map List.length]. now rewrite F, L.
  - cbn [misses List.length] in Hd. cbn [List.length] in Hl.
    destruct data as [|d data]; [discriminate |].
    cbn [List.length] in Hd.
    destruct (IH l data) as [r [F L]]; [lia | lia |].
    exists (d :: r). cbn [fill map List.length]. now rewrite F, L.
Qed.

Lemma misses_off (files : dict str) (model : str) (batch : list str) :
  misses batch (lookups false files model batch) = batch.
Proof.
  induction batch as [|t batch IH]; [reflexivity |].
  unfold CacheNotions.lookups in *. cbn [map misses]. now rewrite IH.
Qed.

Lemma fill_off (files : dict str) (model : str) (batch : list str)
      (data : list Emb) :
  List.length data <= List.length batch ->
  fill (lookups false files model batch) data
  = map Some data
    ++ repeat None (List.length batch - List.length data).
Proof.
  revert data. induction batch as [|t batch IH]; intros data L.
  - destruct data; [reflexivity | cbn [List.length] in L; lia].
  - unfold CacheNotions.lookups in *. cbn [map fill].
    destruct data as [|d data].
    + rewrite fill_nil. cbn [map app List.length Nat.sub repeat].
      f_equal. clear. induction batch; [reflexivity |].
      cbn [map List.length repeat]. now f_equal.
    + cbn [List.length] in L. rewrite IH by lia.
      cbn [map app List.length Nat.sub]. reflexivity.
Qed.

Lemma misses_hit (files : dict str) (model : str) (batch : list str) :
  (forall t, In t batch -> cached files model t <> None) ->
  misses batch (lookups true files model batch) = [].
Proof.
  induction batch as [|t batch IH]; intros H; [reflexivity |].
  unfold CacheNotions.lookups in *. cbn [map misses].
  destruct (cached files model t) eqn:C.
  - apply IH. intros t' Ht'. apply H. now right.
  - exfalso. apply (H t); [now left | exact C].
Qed.

Lemma embed_texts_starts (texts : list str) (model : str) (batch_size : Z)
      (use_cache : bool) (s : env W) :
  (0 < batch_size)%Z ->
  embed_texts texts model batch_size use_cache s
  = embed_batches texts model batch_size use_cache
      (range_up (List.length texts) 0 (Z.of_nat (List.length texts))
                batch_size) [] s.
Proof.
  intros H. unfold EmbedSync.embed_texts, range.
  destruct (Z.eqb_spec batch_size 0) as [-> | _]; [lia |].
  destruct (Z.ltb_spec 0 batch_size) as [_ | ?]; [| lia].
  rewrite bind_ok. now rewrite Z.sub_0_r, Nat2Z.id.
Qed.

Section Answering.
Hypothesis answers : @one_per_input Emb W create.

Lemma process_batch_total (model : str) (use_cache : bool)
      (batch : list str) (s : env W) :
  exists r s',
    process_batch model use_cache batch s = (Ok (map Some r), s')
    /\ List.length r = List.length batch
    /\ exists new,
         requests s' = requests s ++ new
         /\ Forall (fun rq => fst rq = model /\ snd rq <> []
                              /\ incl (snd rq) batch
                              /\ List.length (snd rq) <= List.length batch)
                   new.
Proof.
  set (l := lookups use_cache (files s) model batch).
  pose proof (lookups_length use_cache (files s) model batch) as Ll.
  fold l in Ll.
  destruct (misses batch l) as [|t ut'] eqn:E.
  - rewrite process_batch_run. cbv zeta. fold l. rewrite E.
    destruct (fill_complete batch l []) as [r [F L]];
      [now rewrite Ll | now rewrite E |].
    rewrite fill_nil in F. exists r, s. rewrite F.
    split; [reflexivity |]. split; [lia |].
    exists []. split; [now rewrite app_nil_r | constructor].
  - destruct (answers model (misses batch l) (client s))
      as [data [c [C Ld]]].
    destruct (process_batch_filled model use_cache batch s data c)
      as [P _]; [fold l; now rewrite E | exact C |].
    fold l in P. rewrite P by lia.
    destruct (fill_complete batch l data) as [r [F L]];
      [now rewrite Ll | exact Ld |].
    rewrite F. eexists. eexists. split; [reflexivity |].
    split; [lia |]. exists [(model, misses batch l)].
    split; [reflexivity |]. constructor; [| constructor].
    cbn [fst snd]. destruct (misses_incl batch l) as [I Lm].
    split; [reflexivity |]. split; [now rewrite E |]. now split.
Qed.

Lemma embed_batches_total (texts : list str) (model : str)
      (batch_size : Z) (use_cache : bool) :
  forall (starts : list Z) (acc : list (option Emb)) (s : env W),
    let bat := fun i => slice texts i (i + batch_size)%Z in
    exists r s',
      embed_batches texts model batch_size use_cache starts acc s
      = (Ok (acc ++ map Some r), s')
      /\ List.length r = List.length (List.concat (map bat starts))
      /\ exists new,
           requests s' = requests s ++ new
           /\ Forall (fun rq =>
                        fst rq = model /\ snd rq <> []
                        /\ exists i, In i starts
                                     /\ incl (snd rq) (bat i)
                                     /\ List.length (snd rq)
                                        <= List.length (bat i))
                     new.
Proof.
  induction starts as [|i starts IH]; intros acc s; cbv zeta.
  - exists [], s. cbn [EmbedSync.embed_batches map List.concat].
    unfold ret. rewrite app_nil_r. split; [reflexivity |].
    split; [reflexivity |]. exists []. split; [now rewrite app_nil_r |].
    constructor.
  - cbn [EmbedSync.embed_batches]. cbv zeta. unfold bind at 1.
    destruct (process_batch_total model use_cache
                (slice texts i (i + batch_size)%Z) s)
      as [r1 [s1 [P [L1 [new1 [Q1 F1]]]]]].
    rewrite P.
    destruct (IH (acc ++ map Some r1) s1) as [r2 [s2 [B [L2 [new2 [Q2 F2]]]]]].
    cbv zeta in B, L2, F2. rewrite B.
    exists (r1 ++ r2), s2. split; [now rewrite map_app, app_assoc |].
    split.
    + cbn [map List.concat]. rewrite !length_app. lia.
    + exists (new1 ++ new2). split; [now rewrite Q2, Q1, app_assoc |].
      apply Forall_app. split.
      * eapply Forall_impl; [| exact F1]. cbv beta.
        intros rq [M [N [I L]]]. split; [exact M |]. split; [exact N |].
        exists i. split; [now left |]. now split.
      * eapply Forall_impl; [| exact F2]. cbv beta.
        intros rq [M [N [i' [Hi' IL]]]]. split; [exact M |].
        split; [exact N |]. exists i'. split; [now right | exact IL].
Qed.

Lemma embed_texts_total (texts : list str) (model : str) (batch_size : Z)
      (use_cache : bool) (s : env W) :
  (0 < batch_size)%Z ->
  exists r s',
    embed_texts texts model batch_size use_cache s
    = (Ok (map Some r), s')
    /\ List.length r = List.length texts
    /\ exists new,
         requests s' = requests s ++ new
         /\ Forall (fun rq =>
                      fst rq = model /\ snd rq <> []
                      /\ (Z.of_nat (List.length (snd rq))
                          <= batch_size)%Z
                      /\ incl (snd rq) texts)
                   new.
Proof.
  intros H. rewrite (embed_texts_starts _ _ _ _ _ H).
  destruct (chunked_tiles texts batch_size H) as [_ [C F]].
  cbv zeta in C, F.
  destruct (embed_batches_total texts model batch_size use_cache
              (range_up (List.length texts) 0
                        (Z.of_nat (List.length texts)) batch_size) [] s)
    as [r [s' [B [L [new [Q G]]]]]].
  cbv zeta in B, L, G. exists r, s'. split; [exact B |].
  split; [now rewrite L, C |]. exists new. split; [exact Q |].
  eapply Forall_impl; [| exact G]. cbv beta.
  intros rq [M [N [i [Hi [I Li]]]]].
  split; [exact M |]. split; [exact N |].
  assert (Hb : In (slice texts i (i + batch_size)%Z)
                  (map (fun i => slice texts i (i + batch_size)%Z)
                       (range_up (List.length texts) 0
                                 (Z.of_nat (List.length texts))
                                 batch_size))).
  { apply in_map_iff. now exists i. }
  split.
  + rewrite Forall_forall in F. destruct (F _ Hb) as [_ Lb]. lia.
  + intros t Ht. rewrite <- C. apply in_concat.
    exists (slice texts i (i + batch_size)%Z). split; [exact Hb |].
    now apply I.
Qed.

End Answering.

(** X16.  With an endpoint that answers one embedding for each input,
    [embed_texts] with a positive batch size returns an embedding for
    every text, in as many entries as there are texts and none of them
    [None]; every request it sends names the model and carries between
    one text and a batch of them, all among the texts given.  A batch
    size of zero raises before anything is sent; a negative one returns
    the empty list, whatever the texts. *)
Theorem embed_texts_complete :
  @one_per_input Emb W create ->
  forall (texts : list str) (model : str) (batch_size : Z)
         (use_cache : bool) (s : env W),
    ((0 < batch_size)%Z ->
     exists r s',
       embed_texts texts model batch_size use_cache s
       = (Ok (map Some r), s')
       /\ List.length r = List.length texts
       /\ exists new,
            requests s' = requests s ++ new
            /\ Forall (fun rq =>
                         fst rq = model /\ snd rq <> []
                         /\ (Z.of_nat (List.length (snd rq))
                             <= batch_size)%Z
                         /\ incl (snd rq) texts)
                      new)
    /\ (batch_size = 0%Z ->
        exists e,
          embed_texts texts model batch_size use_cache s = (Raise e, s))
    /\ ((batch_size < 0)%Z ->
        embed_texts texts model batch_size use_cache s = (Ok [], s)).
Proof.
  intros answers texts model batch_size use_cache s.
  split; [| split].
  - intros H. now apply embed_texts_total.
  - intros ->. eexists. reflexivity.
  - intros H. unfold EmbedSync.embed_texts, range.
    destruct (Z.eqb_spec batch_size 0) as [-> | _]; [lia |].
    destruct (Z.ltb_spec 0 batch_size) as [? | _]; [lia |].
    replace (Z.to_nat (0 - Z.of_nat (List.length texts))) with 0 by lia.
    reflexivity.
Qed.

Section AnsweringOff.
Hypothesis answers : @one_per_input Emb W create.

Lemma process_batch_off (model : str) (batch : list str) (s : env W) :
  batch <> [] ->
  exists r c,
    process_batch model false batch s
    = (Ok (map Some r),
       Env (files s) c (requests s ++ [(model, batch)]))
    /\ List.length r = List.length batch.
Proof.
  intros N. destruct (answers model batch (client s)) as [data [c [C L]]].
  destruct (process_batch_filled model false batch s data c) as [P _].
  - now rewrite misses_off.
  - now rewrite misses_off.
  - rewrite misses_off in P. rewrite P by lia.
    rewrite fill_off by lia. rewrite L, Nat.sub_diag. cbn [repeat].
    rewrite app_nil_r. exists data, c. now split.
Qed.

Lemma embed_batches_off (texts : list str) (model : str) (batch_size : Z) :
  forall (starts : list Z) (acc : list (option Emb)) (s : env W),
    let bat := fun i => slice texts i (i + batch_size)%Z in
    Forall (fun c => c <> []) (map bat starts) ->
    exists r s',
      embed_batches texts model batch_size false starts acc s
      = (Ok (acc ++ map Some r), s')
      /\ List.length r = List.length (List.concat (map bat starts))
      /\ files s' = files s
      /\ requests s'
         = requests s ++ map (pair model) (map bat starts).
Proof.
  induction starts as [|i starts IH]; intros acc s; cbv zeta; intros F.
  - exists [], s. cbn [EmbedSync.embed_batches map List.concat].
    unfold ret. rewrite !app_nil_r. repeat split.
  - cbn [map] in F. inversion F as [|? ? N F']; subst.
    cbn [EmbedSync.embed_batches]. cbv zeta. unfold bind at 1.
    destruct (process_batch_off model _ s N) as [r1 [c [P L1]]].
    rewrite P.
    destruct (IH (acc ++ map Some r1)
                 (Env (files s) c
                      (requests s
                       ++ [(model, slice texts i (i + batch_size)%Z)]))
                 F')
      as [r2 [s2 [B [L2 [Fs Q]]]]].
    rewrite B. exists (r1 ++ r2), s2.
    split; [now rewrite map_app, app_assoc |].
    split; [cbn [map List.concat]; rewrite !length_app; lia |].
    split; [exact Fs |].
    rewrite Q. cbn [requests map]. now rewrite <- app_assoc.
Qed.

End AnsweringOff.

(** X17.  With the cache off and an endpoint that answers one embedding for
    each input, [embed_texts] sends exactly the batches that [chunked]
    cuts the texts into, one request each and in that order, returns an
    embedding for every text, and leaves the cache files alone. *)
Theorem embed_texts_without_cache :
  @one_per_input Emb W create ->
  forall (texts : list str) (model : str) (batch_size : Z) (s : env W),
    (0 < batch_size)%Z ->
    exists cs r s',
      Upload.chunked texts batch_size = Ok cs
      /\ embed_texts texts model batch_size false s = (Ok (map Some r), s')
      /\ List.length r = List.length texts
      /\ files s' = files s
      /\ requests s' = requests s ++ map (pair model) cs.
Proof.
  intros answers texts model batch_size s H.
  destruct (chunked_tiles texts batch_size H) as [K [C F]].
  cbv zeta in K, C, F.
  rewrite (embed_texts_starts _ _ _ _ _ H).
  destruct (embed_batches_off answers texts model batch_size
              (range_up (List.length texts) 0
                        (Z.of_nat (List.length texts)) batch_size) [] s)
    as [r [s' [B [L [Fs Q]]]]].
  { eapply Forall_impl; [| exact F]. cbv beta. now intros c [N _]. }
  eexists. exists r, s'. split; [exact K |]. split; [exact B |].
  split; [now rewrite L, C |]. split; [exact Fs | exact Q].
Qed.

Lemma embed_batches_hit (texts : list str) (model : str) (batch_size : Z)
      (s : env W) :
  forall (starts : list Z) (acc : list (option Emb)),
    let bat := fun i => slice texts i (i + batch_size)%Z in
    Forall (fun c => forall t, In t c ->
                               cached (files s) model t <> None)
           (map bat starts) ->
    embed_batches texts model batch_size true starts acc s
    = (Ok (acc ++ lookups true (files s) model
                    (List.concat (map bat starts))), s).
Proof.
  induction starts as [|i starts IH]; intros acc; cbv zeta; intros F.
  - cbn [EmbedSync.embed_batches map List.concat]. unfold ret.
    unfold CacheNotions.lookups. cbn [map]. now rewrite app_nil_r.
  - cbn [map] in F. inversion F as [|? ? N F']; subst.
    cbn [EmbedSync.embed_batches]. cbv zeta. unfold bind at 1.
    rewrite process_batch_run. cbv zeta. rewrite (misses_hit _ _ _ N).
    rewrite (IH _ F'). cbn [map List.concat].
    unfold CacheNotions.lookups. now rewrite map_app, app_assoc.
Qed.

Lemma embed_texts_hit (texts : list str) (model : str) (batch_size : Z)
      (s : env W) :
  (0 < batch_size)%Z ->
  (forall t, In t texts -> cached (files s) model t <> None) ->
  embed_texts texts model batch_size true s
  = (Ok (map (cached (files s) model) texts), s).
Proof.
  intros H Hc.
  destruct (chunked_tiles texts batch_size H) as [_ [C F]].
  cbv zeta in C, F.
  rewrite (embed_texts_starts _ _ _ _ _ H).
  rewrite embed_batches_hit.
  - now rewrite C.
  - apply Forall_forall. intros c Hin t Ht. apply Hc.
    rewrite <- C. apply in_concat. now exists c.
Qed.

(** X18.  When the cache holds an embedding for every text, [embed_texts]
    returns those embeddings, text by text; it sends no request and
    writes no file. *)
Theorem embed_texts_all_cached :
  forall (texts : list str) (model : str) (batch_size : Z) (s : env W),
    (0 < batch_size)%Z ->
    (forall t, In t texts -> cached (files s) model t <> None) ->
    embed_texts texts model batch_size true s
    = (Ok (map (cached (files s) model) texts), s).
Proof. exact embed_texts_hit. Qed.

Section Refill.
Hypothesis answers : @one_per_input Emb W create.
Hypothesis reads_back : @round_trip Emb json_dump json_load.

Lemma cached_kept (files : dict str) (model t h : str) (e : Emb) :
  cached files model t <> None ->
  cached (dict_set h (json_dump e) files) model t <> None.
Proof.
  unfold CacheNotions.cached, dict_set. cbn [dict_get].
  destruct (Py.eqb (Embed.get_text_hash t (Some model)) h);
    [| trivial].
  intros _. rewrite reads_back. discriminate.
Qed.

Lemma saved_keeps (model : str) (uts : list str) (t : str) :
  forall (data : list Emb) (files : dict str),
    cached files model t <> None ->
    cached (saved model uts data files) model t <> None.
Proof.
  unfold CacheNotions.saved.
  induction uts as [|u uts IH]; intros data files H; [exact H |].
  destruct data as [|d data]; [exact H |].
  cbn [combine fold_left fst snd]. apply IH. now apply cached_kept.
Qed.

Lemma saved_caches (model : str) (uts : list str) (t : str) :
  forall (data : list Emb) (files : dict str),
    List.length data = List.length uts ->
    In t uts ->
    cached (saved model uts data files) model t <> None.
Proof.
  induction uts as [|u uts IH]; intros data files L Hin; [inversion Hin |].
  destruct data as [|d data]; [discriminate |].
  cbn [List.length] in L. unfold CacheNotions.saved.
  cbn [combine fold_left fst snd]. fold (saved model uts data).
  destruct Hin as [-> | Hin].
  - apply saved_keeps. rewrite cached_after_save by exact reads_back.
    discriminate.
  - apply IH; [lia | exact Hin].
Qed.

Lemma missed_or_cached (files : dict str) (model : str)
      (batch : list str) (t : str) :
  In t batch ->
  In t (misses batch (lookups true files model batch))
  \/ cached files model t <> None.
Proof.
  induction batch as [|u batch IH]; intros Hin; [inversion Hin |].
  unfold CacheNotions.lookups in *. cbn [map misses].
  destruct (cached files model u) eqn:C.
  - destruct Hin as [<- | Hin]; [right; congruence | now apply IH].
  - destruct Hin as [<- | Hin]; [left; now left |].
    destruct (IH Hin) as [M | K]; [left; now right | now right].
Qed.

(** After a batch the cache holds every text of the batch, and all it
    held before. *)
Lemma process_batch_caches (model : str) (batch : list str) (s : env W) :
  exists r s',
    process_batch model true batch s = (Ok r, s')
    /\ (forall t, cached (files s) model t <> None ->
                  cached (files s') model t <> None)
    /\ (forall t, In t batch -> cached (files s') model t <> None).
Proof.
  set (l := lookups true (files s) model batch).
  destruct (misses batch l) as [|u ut'] eqn:E.
  - rewrite process_batch_run. cbv zeta. fold l. rewrite E.
    exists l, s. split; [reflexivity |]. split; [trivial |].
    intros t Hin. destruct (missed_or_cached (files s) model batch t Hin)
      as [M | K]; [| exact K]. fold l in M. rewrite E in M. inversion M.
  - destruct (answers model (misses batch l) (client s))
      as [data [c [C Ld]]].
    destruct (process_batch_filled model true batch s data c)
      as [P _]; [fold l; now rewrite E | exact C |].
    fold l in P. rewrite P by lia.
    eexists. eexists. split; [reflexivity |]. cbn [files]. split.
    + intros t H. now apply saved_keeps.
    + intros t Hin.
      destruct (missed_or_cached (files s) model batch t Hin) as [M | K].
      * apply saved_caches; [exact Ld | exact M].
      * now apply saved_keeps.
Qed.

Lemma embed_batches_caches (texts : list str) (model : str)
      (batch_size : Z) :
  forall (starts : list Z) (acc : list (option Emb)) (s : env W),
    let bat := fun i => slice texts i (i + batch_size)%Z in
    exists r s',
      embed_batches texts model batch_size true starts acc s = (Ok r, s')
      /\ (forall t, cached (files s) model t <> None ->
                    cached (files s') model t <> None)
      /\ (forall c t, In c (map bat starts) -> In t c ->
                      cached (files s') model t <> None).
Proof.
  induction starts as [|i starts IH]; intros acc s; cbv zeta.
  - exists acc, s. cbn [EmbedSync.embed_batches map].
    split; [reflexivity |]. split; [trivial |]. intros c t [].
  - cbn [EmbedSync.embed_batches]. cbv zeta. unfold bind at 1.
    destruct (process_batch_caches model
                (slice texts i (i + batch_size)%Z) s)
      as [r1 [s1 [P [K1 B1]]]].
    rewrite P.
    destruct (IH (acc ++ r1) s1) as [r2 [s2 [B [K2 B2]]]].
    cbv zeta in B2. rewrite B. exists r2, s2.
    split; [reflexivity |]. split; [intros t H; now apply K2, K1 |].
    intros c t [<- | Hc] Ht; [now apply K2, B1 | now apply (B2 c)].
Qed.

End Refill.

(** X29.  A second run costs nothing.  With an endpoint that answers one
    embedding for each input and a cache that reads back what was
    written, [embed_texts] with the cache on ends well, and the same call
    again, with any positive batch size, returns an embedding for every
    text without sending a request or writing a file. *)
Theorem embed_texts_then_cached :
  @one_per_input Emb W create ->
  @round_trip Emb json_dump json_load ->
  forall (texts : list str) (model : str) (batch_size batch_size' : Z)
         (s : env W),
    (0 < batch_size)%Z -> (0 < batch_size')%Z ->
    exists r s',
      embed_texts texts model batch_size true s = (Ok r, s')
      /\ embed_texts texts model batch_size' true s'
         = (Ok (map (cached (files s') model) texts), s')
      /\ Forall (fun t => cached (files s') model t <> None) texts.
Proof.
  intros answers reads_back texts model batch_size batch_size' s H H'.
  destruct (chunked_tiles texts batch_size H) as [_ [C _]].
  cbv zeta in C.
  rewrite (embed_texts_starts _ _ _ _ _ H).
  destruct (embed_batches_caches answers reads_back texts model batch_size
              (range_up (List.length texts) 0
                        (Z.of_nat (List.length texts)) batch_size) [] s)
    as [r [s' [B [_ K]]]].
  cbv zeta in K. exists r, s'. split; [exact B |].
  assert (A : forall t, In t texts -> cached (files s') model t <> None).
  { intros t Ht. rewrite <- C in Ht. apply in_concat in Ht
      as [c [Hc Hin]]. now apply (K c). }
  split; [now apply embed_texts_hit | now apply Forall_forall].
Qed.

(** X19.  [embed_texts] trusts the endpoint to answer one embedding for each
    text.  For one batch and the cache off: when the answer is short, the
    texts it does not cover get [None] in the result, and nothing is
    raised; when it is long, the surplus raises an [IndexError]. *)
Theorem embed_texts_trusts_endpoint :
  forall (texts : list str) (model : str) (batch_size : Z) (s : env W)
         (data : list Emb) (c : W),
    texts <> [] ->
    (Z.of_nat (List.length texts) <= batch_size)%Z ->
    create model texts (client s) = (Ok data, c) ->
    (List.length data <= List.length texts ->
     embed_texts texts model batch_size false s
     = (Ok (map Some data
            ++ repeat None (List.length texts - List.length data)),
        Env (files s) c (requests s ++ [(model, texts)])))
    /\ (List.length texts < List.length data ->
        exists s',
          embed_texts texts model batch_size false s
          = (Raise (lit "IndexError: list index out of range"), s')
          /\ requests s' = requests s ++ [(model, texts)]).
Proof.
  intros texts model batch_size s data c N Hb C.
  assert (Hp : (0 < batch_size)%Z).
  { destruct texts; [congruence | cbn [List.length] in Hb; lia]. }
  rewrite (embed_texts_starts _ _ _ _ _ Hp).
  assert (R : range_up (List.length texts) 0
                       (Z.of_nat (List.length texts)) batch_size = [0%Z]).
  { assert (Hn : List.length texts <> 0)
      by (destruct texts; [congruence | discriminate]).
    revert Hb Hn. generalize (List.length texts) as n.
    intros [|n] Hb Hn; [congruence |]. cbn [range_up].
    destruct (Z.ltb_spec 0 (Z.of_nat (S n))); [| lia].
    f_equal. destruct n as [|n]; [reflexivity |]. cbn [range_up].
    destruct (Z.ltb_spec (0 + batch_size) (Z.of_nat (S (S n))));
      [lia | reflexivity]. }
  rewrite R.
  assert (Sl : slice texts 0 (0 + batch_size)%Z = texts).
  { change 0%Z with (Z.of_nat 0).
    rewrite (slice_from texts 0 batch_size Hp (Nat.le_0_l _)).
    cbn [skipn]. apply firstn_all2. lia. }
  assert (E : embed_batches texts model batch_size false [0%Z] [] s
              = match process_batch model false texts s with
                | (Ok r, s') => (Ok r, s')
                | (Raise e, s') => (Raise e, s')
                end).
  { cbn [EmbedSync.embed_batches]. cbv zeta. rewrite Sl.
    unfold bind at 1.
    destruct (process_batch model false texts s) as [[r | e] s'];
      reflexivity. }
  rewrite E.
  destruct (process_batch_filled model false texts s data c) as [P1 P2].
  - now rewrite misses_off.
  - now rewrite misses_off.
  - rewrite misses_off in P1, P2. split.
    + intros L. rewrite (P1 L). now rewrite fill_off.
    + intros L. destruct (P2 L) as [s' [P [_ Q]]]. rewrite P.
      exists s'. now split.
Qed.

Lemma embed_text_hit (text model : str) (s : env W) (e : Emb) :
  cached (files s) model text = Some e ->
  embed_text text model true s = (Ok e, s).
Proof.
  intros H. unfold EmbedSync.embed_text. cbv zeta. unfold bind at 1.
  rewrite (load_lookup true model text s). now rewrite H.
Qed.

Lemma embed_text_miss (text model : str) (s : env W) (e : Emb)
      (data : list Emb) (c : W) :
  cached (files s) model text = None ->
  create model [text] (client s) = (Ok (e :: data), c) ->
  embed_text text model true s
  = (Ok e,
     Env (dict_set (Embed.get_text_hash text (Some model)) (json_dump e)
                   (files s))
         c (requests s ++ [(model, [text])])).
Proof.
  intros H C. unfold EmbedSync.embed_text. cbv zeta. unfold bind at 1.
  rewrite (load_lookup true model text s), H.
  unfold bind at 1, embeddings_create at 1. rewrite C. reflexivity.
Qed.

(** X20.  [embed_text] asks the endpoint once.  A text the cache holds is
    answered from the cache, with no request and no write.  A text it does
    not hold is sent, the first embedding of the answer is returned and
    saved, and, as long as a saved embedding reads back as it was written,
    the same call again is answered from the cache. *)
Theorem embed_text_caches :
  @round_trip Emb json_dump json_load ->
  forall (text model : str) (s : env W),
    (forall e, cached (files s) model text = Some e ->
               embed_text text model true s = (Ok e, s))
    /\ (forall e data c,
           cached (files s) model text = None ->
           create model [text] (client s) = (Ok (e :: data), c) ->
           exists s',
             embed_text text model true s = (Ok e, s')
             /\ requests s' = requests s ++ [(model, [text])]
             /\ embed_text text model true s' = (Ok e, s')).
Proof.
  intros RT text model s.
  split; [apply embed_text_hit |].
  intros e data c H C.
  eexists. split; [now apply (embed_text_miss text model s e data c) |].
  split; [reflexivity |].
  apply embed_text_hit. cbn [files]. now apply cached_after_save.
Qed.

End CacheFacts.

Lemma lengths_one_per_input :
  @CacheNotions.one_per_input nat unit Samples3.lengths.
Proof.
  intros model input w. eexists. eexists.
  split; [reflexivity | apply length_map].
Qed.

Lemma strokes_round_trip :
  @CacheNotions.round_trip nat Samples3.strokes Samples3.count.
Proof.
  intros n. unfold Samples3.count, Samples3.strokes.
  now rewrite repeat_length.
Qed.

Lemma embed_texts_complete_witness :
  let texts := [lit "Hue"; lit "Hanoi"; lit "Hoi An"] in
  exists r s',
    EmbedSync.embed_texts Samples3.lengths Samples3.strokes Samples3.count
      texts (lit "m") 2%Z true Samples3.fresh
    = (Cli.Ok (map Some r), s')
    /\ List.length r = List.length texts
    /\ exists new,
         EmbedSync.requests s'
         = EmbedSync.requests Samples3.fresh ++ new
         /\ Forall (fun rq =>
                      fst rq = lit "m" /\ snd rq <> []
                      /\ (Z.of_nat (List.length (snd rq)) <= 2)%Z
                      /\ incl (snd rq) texts)
                   new.
Proof.
  apply (proj1 (embed_texts_complete nat unit Samples3.lengths
                  Samples3.strokes Samples3.count lengths_one_per_input
                  [lit "Hue"; lit "Hanoi"; lit "Hoi An"] (lit "m") 2%Z true
                  Samples3.fresh)).
  lia.
Defined.

Lemma embed_texts_without_cache_witness :
  let texts := [lit "Hue"; lit "Hanoi"; lit "Hoi An"] in
  exists cs r s',
    Upload.chunked texts 2%Z = Cli.Ok cs
    /\ EmbedSync.embed_texts Samples3.lengths Samples3.strokes
         Samples3.count texts (lit "m") 2%Z false Samples3.fresh
       = (Cli.Ok (map Some r), s')
    /\ List.length r = List.length texts
    /\ EmbedSync.files s' = EmbedSync.files Samples3.fresh
    /\ EmbedSync.requests s'
       = EmbedSync.requests Samples3.fresh ++ map (pair (lit "m")) cs.
Proof.
  apply (embed_texts_without_cache nat unit Samples3.lengths
           Samples3.strokes Samples3.count lengths_one_per_input
           [lit "Hue"; lit "Hanoi"; lit "Hoi An"] (lit "m") 2%Z
           Samples3.fresh).
  lia.
Defined.

Lemma embed_texts_all_cached_witness :
  let s := EmbedSync.Env
             [(Embed.get_text_hash (lit "Hue") (Some (lit "m")),
               Samples3.strokes 3)] tt [] in
  EmbedSync.embed_texts Samples3.lengths Samples3.strokes Samples3.count
    [lit "Hue"; lit "Hue"] (lit "m") 32%Z true s
  = (Cli.Ok (map (CacheNotions.cached Samples3.count (EmbedSync.files s)
                    (lit "m"))
                 [lit "Hue"; lit "Hue"]), s).
Proof.
  apply (embed_texts_all_cached nat unit Samples3.lengths Samples3.strokes
           Samples3.count [lit "Hue"; lit "Hue"] (lit "m") 32%Z).
  - lia.
  - intros t [<- | [<- | []]]; vm_compute; discriminate.
Defined.

Lemma embed_texts_trusts_endpoint_witness :
  EmbedSync.embed_texts Samples3.stingy Samples3.strokes Samples3.count
    [lit "Hue"; lit "Hanoi"] (lit "m") 32%Z false Samples3.fresh
  = (Cli.Ok (map Some [3] ++ repeat None (2 - 1)),
     EmbedSync.Env [] tt ([] ++ [(lit "m", [lit "Hue"; lit "Hanoi"])])).
Proof.
  apply (proj1 (embed_texts_trusts_endpoint nat unit Samples3.stingy
                  Samples3.strokes Samples3.count
                  [lit "Hue"; lit "Hanoi"] (lit "m") 32%Z Samples3.fresh
                  [3] tt ltac:(discriminate) ltac:(cbn; lia) eq_refl)).
  cbn. lia.
Defined.

Lemma embed_text_caches_witness :
  exists s',
    EmbedSync.embed_text Samples3.lengths Samples3.strokes Samples3.count
      (lit "Hue") (lit "m") true Samples3.fresh
    = (Cli.Ok 3, s')
    /\ EmbedSync.requests s'
       = EmbedSync.requests Samples3.fresh ++ [(lit "m", [lit "Hue"])]
    /\ EmbedSync.embed_text Samples3.lengths Samples3.strokes
         Samples3.count (lit "Hue") (lit "m") true s'
       = (Cli.Ok 3, s').
Proof.
  apply (proj2 (embed_text_caches nat unit Samples3.lengths
                  Samples3.strokes Samples3.count strokes_round_trip
                  (lit "Hue") (lit "m") Samples3.fresh)
               3 [] tt eq_refl eq_refl).
Defined.

Lemma embed_texts_then_cached_witness :
  let texts := [lit "Hue"; lit "Hanoi"; lit "Hue"] in
  exists r s',
    EmbedSync.embed_texts Samples3.lengths Samples3.strokes Samples3.count
      texts (lit "m") 2%Z true Samples3.fresh
    = (Cli.Ok r, s')
    /\ EmbedSync.embed_texts Samples3.lengths Samples3.strokes
         Samples3.count texts (lit "m") 32%Z true s'
       = (Cli.Ok (map (CacheNotions.cached Samples3.count
                         (EmbedSync.files s') (lit "m")) texts), s')
    /\ Forall (fun t => CacheNotions.cached Samples3.count
                          (EmbedSync.files s') (lit "m") t <> None)
              texts.
Proof.
  apply (embed_texts_then_cached nat unit Samples3.lengths Samples3.strokes
           Samples3.count lengths_one_per_input strokes_round_trip
           [lit "Hue"; lit "Hanoi"; lit "Hue"] (lit "m") 2%Z 32%Z
           Samples3.fresh); lia.
Defined.

(** ** The upload to the vector index *)

Section Items.
Import Cli Json Uploader UploadNotions.

Lemma build_items_step (node : object) (rest : list object)
      (items : list item) :
  build_items (node :: rest) items
  = match semantic_text_of node with
    | Raise e => Raise e
    | Ok (Str text) =>
        match strip text with
        | [] => build_items rest items
        | _ :: _ =>
            match index (lit "id") node with
            | Raise e => Raise e
            | Ok i => build_items rest (items ++ [(i, text, meta_of node)])
            end
        end
    | Ok _ => Raise (lit "AttributeError: object has no attribute 'strip'")
    end.
Proof. reflexivity. Qed.

(** The items found so far only grow. *)
Lemma build_items_acc (nodes : list object) :
  forall acc : list item,
    build_items nodes acc
    = match build_items nodes [] with
      | Ok items => Ok (acc ++ items)
      | Raise e => Raise e
      end.
Proof.
  induction nodes as [|node rest IH]; intros acc.
  - cbn [build_items]. now rewrite app_nil_r.
  - rewrite !build_items_step.
    destruct (semantic_text_of node) as [[| | | text | |] | e];
      try reflexivity.
    destruct (strip text); [apply IH |].
    destruct (index (lit "id") node) as [i | e]; [| reflexivity].
    rewrite (IH (acc ++ _)), (IH ([] ++ _)).
    destruct (build_items rest []); [| reflexivity].
    now rewrite <- !app_assoc.
Qed.

Lemma build_items_app (pre rest : list object) :
  forall acc : list item,
    build_items (pre ++ rest) acc
    = match build_items pre acc with
      | Ok items => build_items rest items
      | Raise e => Raise e
      end.
Proof.
  induction pre as [|node pre IH]; intros acc; [reflexivity |].
  cbn [app]. rewrite !build_items_step.
  destruct (semantic_text_of node) as [[| | | text | |] | e];
    try reflexivity.
  destruct (strip text); [apply IH |].
  destruct (index (lit "id") node) as [i | e]; [apply IH | reflexivity].
Qed.

(** Where the text of a node comes from. *)
Lemma semantic_text_cases (node : object) (text : str) :
  semantic_text_of node = Ok (Str text) ->
  get (lit "semantic_text") node = Str text
  \/ (truthy (get (lit "semantic_text") node) = false
      /\ ((truthy (get (lit "description") node) = false /\ text = [])
          \/ exists d, get (lit "description") node = Str d
                       /\ text = firstn 1000 d)).
Proof.
  unfold semantic_text_of. cbv zeta.
  destruct (truthy (get (lit "semantic_text") node)) eqn:T.
  - intros H. left. now injection H.
  - intros H. right. split; [reflexivity |]. unfold or_ in H.
    destruct (truthy (get (lit "description") node)) eqn:D.
    + right. destruct (get (lit "description") node) as [| | | d | |];
        try discriminate. cbn [prefix] in H. injection H as <-.
      now exists d.
    + left. split; [reflexivity |]. cbn [prefix] in H.
      now injection H as <-.
Qed.

Lemma blank_skipped (node : object) (rest : list object)
      (acc : list item) :
  blank node -> build_items (node :: rest) acc = build_items rest acc.
Proof.
  intros B. rewrite build_items_step. unfold semantic_text_of. cbv zeta.
  destruct B as [[ws [E [N S]]] | [T D]].
  - rewrite E. destruct ws as [|c ws]; [congruence |]. cbn [truthy].
    now rewrite strip_spaces.
  - rewrite T. unfold or_. destruct D as [D | [d [E S]]].
    + rewrite D. cbn [prefix firstn]. reflexivity.
    + rewrite E. destruct d as [|c d]; cbn [truthy prefix];
        [reflexivity |]. now rewrite strip_spaces.
Qed.

(** X21.  The items are read off the nodes in order, one from each node that
    has a text to embed.  When the first loop of the upload ends well,
    its items correspond, one to one and in order, to some of the nodes;
    each has the id of its node under ["id"], the metadata of its node,
    and a text that is not blank: the node's [semantic_text], whole, or,
    when that is falsy, the first 1000 characters of its
    [description]. *)
Theorem build_items_reads_nodes :
  forall (nodes : list object) (items : list item),
    build_items nodes [] = Ok items ->
    exists kept : list object,
      Subseq kept nodes /\ Forall2 taken kept items.
Proof.
  induction nodes as [|node rest IH]; intros items H.
  - cbn [build_items] in H. injection H as <-.
    exists []. split; constructor.
  - rewrite build_items_step in H.
    destruct (semantic_text_of node) as [[| | | text | |] | e] eqn:S;
      try discriminate.
    destruct (strip text) as [|c t] eqn:St.
    + destruct (IH _ H) as [kept [K F]].
      exists kept. split; [now constructor | exact F].
    + destruct (index (lit "id") node) as [i | e] eqn:I; [| discriminate].
      rewrite build_items_acc in H.
      destruct (build_items rest []) as [items' | e] eqn:R;
        [| discriminate].
      injection H as <-. destruct (IH _ eq_refl) as [kept [K F]].
      exists (node :: kept). split; [now constructor |].
      cbn [app]. constructor; [| exact F].
      unfold taken. split; [| split; [reflexivity | split]].
      * unfold index in I. destruct (dict_get (lit "id") node);
          [now injection I as -> | discriminate].
      * rewrite St. discriminate.
      * destruct (semantic_text_cases node text S)
          as [E | [T [[_ ->] | D]]]; [now left | | now right].
        discriminate.
Qed.

(** X22.  A node with nothing to embed is passed over as if it were not in the
    dataset, whether or not it has an id.  This holds in particular of a
    node whose [semantic_text] is whitespace only: its [description] is
    never looked at. *)
Theorem build_items_skips_blank :
  forall (pre post : list object) (node : object) (acc : list item),
    blank node ->
    build_items (pre ++ node :: post) acc = build_items (pre ++ post) acc.
Proof.
  intros pre post node acc B. rewrite !build_items_app.
  destruct (build_items pre acc); [| reflexivity].
  now apply blank_skipped.
Qed.

End Items.

Lemma build_items_reads_nodes_witness :
  exists kept : list Json.object,
    UploadNotions.Subseq kept [Samples4.hidden; Samples4.hue]
    /\ Forall2 UploadNotions.taken kept
         [(Json.Str (lit "city_hue"),
           lit "Imperial city on the Perfume River.",
           Uploader.meta_of Samples4.hue)].
Proof.
  apply (build_items_reads_nodes [Samples4.hidden; Samples4.hue]).
  vm_compute. reflexivity.
Defined.

Lemma build_items_skips_blank_witness :
  Uploader.build_items ([Samples4.hue] ++ Samples4.hidden :: []) []
  = Uploader.build_items ([Samples4.hue] ++ []) [].
Proof.
  apply (build_items_skips_blank [Samples4.hue] [] Samples4.hidden []).
  left. exists (lit "  ").
  split; [reflexivity |]. split; [discriminate |]. repeat constructor.
Defined.

Section UploadRun.
Import Cli Json Uploader UploadNotions.
Variables Emb W P : Type.
Variable create : str -> list str -> W -> outcome (list Emb) * W.
Variable json_dump : Emb -> str.
Variable json_load : str -> option Emb.
Variable list_indexes : P -> outcome (list str) * P.
Variable create_index : str -> P -> outcome unit * P.
Variable upsert : list (value * option Emb * object) -> P -> outcome unit * P.
Variable index_name : str.

Local Abbreviation main :=
  (@Uploader.main Emb W P create json_dump json_load list_indexes
                  create_index upsert index_name).
Local Abbreviation upload_batches :=
  (@Uploader.upload_batches Emb W P create json_dump json_load upsert).
Local Abbreviation create_index_if_not_exists :=
  (@Uploader.create_index_if_not_exists Emb W P list_indexes create_index
                                        index_name).
Local Abbreviation world := (Uploader.world Emb W P).

(** X23.  A node with a text and no id stops the upload before it starts.  When
    the dataset holds such a node, and the nodes before it are fine,
    [main] raises the [KeyError] and leaves everything as it was: nothing
    is printed, the index is not looked up, no embedding is asked for and
    no vector is upserted, whatever nodes come before or after. *)
Theorem main_needs_ids :
  forall (pre post : list object) (node : object) (text : str)
         (items : list item) (w : world),
    build_items pre [] = Ok items ->
    semantic_text_of node = Ok (Str text) ->
    strip text <> [] ->
    dict_get (lit "id") node = None ->
    main (pre ++ node :: post) w = (Raise (lit "KeyError: 'id'"), w).
Proof.
  intros pre post node text items w Hp Ht Hs Hi.
  unfold Uploader.main.
  assert (B : build_items (pre ++ node :: post) []
              = Raise (lit "KeyError: 'id'")).
  { rewrite build_items_app, Hp, build_items_step, Ht.
    destruct (strip text); [congruence |].
    unfold index. now rewrite Hi. }
  now rewrite B.
Qed.

Lemma zip3_full (batch : list item) :
  forall r : list Emb,
    List.length r = List.length batch ->
    let u := zip3 (map (fun it => fst (fst it)) batch) (map Some r)
                  (map (fun it => snd it) batch) in
    map (fun v => fst (fst v)) u = map (fun it => fst (fst it)) batch
    /\ map (fun v => snd v) u = map (fun it => snd it) batch
    /\ Forall (fun v => snd (fst v) <> None) u.
Proof.
  induction batch as [|it batch IH]; intros [|e r] L; try discriminate;
    cbv zeta.
  - repeat split. constructor.
  - cbn [List.length] in L. destruct (IH r) as [I [M F]]; [lia |].
    cbv zeta in I, M, F. cbn [map zip3 fst snd].
    split; [now rewrite I |]. split; [now rewrite M |].
    constructor; [discriminate | exact F].
Qed.

Section Reliable.
Hypothesis answers : @CacheNotions.one_per_input Emb W create.
Hypothesis lists : reliable list_indexes.
Hypothesis creates : forall name, reliable (create_index name).
Hypothesis upserts_ok : forall vs, reliable (upsert vs).

Lemma create_index_total (w : world) :
  exists w' t,
    create_index_if_not_exists w = (Ok tt, w')
    /\ out w' = out w ++ t /\ upserts t = [].
Proof.
  unfold Uploader.create_index_if_not_exists.
  unfold bind at 1, index_call at 1.
  destruct (lists (pinecone w)) as [names [p1 L]]. rewrite L.
  destruct (existsb (Py.eqb index_name) names).
  - eexists. exists []. unfold ret. cbn [out].
    split; [reflexivity |]. split; [now rewrite app_nil_r | reflexivity].
  - cbv [bind print emit index_call]. cbn [embedder pinecone out].
    destruct (creates index_name p1) as [[] [p2 C]]. rewrite C.
    eexists. eexists. split; [reflexivity |]. cbn [out].
    rewrite <- app_assoc. split; reflexivity.
Qed.

Lemma upload_batches_total (batches : list (list item)) :
  forall w : world,
    Forall (fun b => b <> []) batches ->
    exists w' t,
      upload_batches batches w = (Ok tt, w')
      /\ out w' = out w ++ t
      /\ Forall2 (fun (b : list item) (u : list (vector Emb)) =>
                    map (fun v => fst (fst v)) u
                    = map (fun it => fst (fst it)) b
                    /\ map (fun v => snd v) u = map (fun it => snd it) b
                    /\ Forall (fun v => snd (fst v) <> None) u)
                 batches (upserts t).
Proof.
  induction batches as [|b batches IH]; intros w F.
  - exists w, []. cbn [Uploader.upload_batches]. unfold ret.
    split; [reflexivity |]. split; [now rewrite app_nil_r | constructor].
  - inversion F as [|? ? N F']; subst.
    cbn [Uploader.upload_batches]. cbv zeta.
    unfold bind at 1, embedding at 1.
    destruct (embed_texts_total Emb W create json_dump json_load answers
                (map (fun it => snd (fst it)) b)
                (lit "text-embedding-3-small") 32%Z true (embedder w))
      as [r [s' [E [L _]]]]; [lia |].
    rewrite E. rewrite length_map in L.
    unfold bind at 1, upsert_vectors at 1.
    unfold bind at 1, emit at 1, index_call at 1.
    cbn [embedder pinecone out].
    set (u := zip3 _ (map Some r) _).
    destruct (upserts_ok u (pinecone w)) as [[] [p1 U]]. rewrite U.
    destruct (IH (World s' p1 (out w ++ [Upserted u])) F')
      as [w' [t [B [O G]]]].
    rewrite B. exists w', (Upserted u :: t).
    split; [reflexivity |]. cbn [out] in O.
    split; [now rewrite O, <- app_assoc |].
    cbn [upserts flat_map app]. constructor; [| exact G].
    apply (zip3_full b r L).
Qed.

End Reliable.

Lemma upserted_batches (bs : list (list item))
      (us : list (list (vector Emb))) :
  Forall2 (fun b u =>
             map (fun v => fst (fst v)) u = map (fun it => fst (fst it)) b
             /\ map (fun v => snd v) u = map (fun it => snd it) b
             /\ Forall (fun v => snd (fst v) <> None) u)
          bs us ->
  Forall (fun c => c <> [] /\ (Z.of_nat (List.length c) <= BATCH_SIZE)%Z)
         bs ->
  map (fun v => fst (fst v)) (List.concat us)
  = map (fun it => fst (fst it)) (List.concat bs)
  /\ map (fun v => snd v) (List.concat us)
     = map (fun it => snd it) (List.concat bs)
  /\ Forall (fun v => snd (fst v) <> None) (List.concat us)
  /\ Forall (fun u => u <> [] /\ List.length u <= 32) us.
Proof.
  unfold vector, item in *.
  induction 1 as [|b u bs us [I [M N]] _ IH]; intros Fb.
  - repeat split; constructor.
  - inversion Fb as [|? ? [Nb Lb] Fb']; subst.
    destruct (IH Fb') as [I' [M' [N' L']]].
    cbn [List.concat].
    split; [rewrite !map_app; f_equal; [exact I | exact I'] |].
    split; [rewrite !map_app; f_equal; [exact M | exact M'] |].
    split; [apply Forall_app; now split |].
    constructor; [| exact L'].
    assert (Lu : List.length u = List.length b).
    { apply (f_equal (@List.length _)) in I.
      now rewrite !length_map in I. }
    split.
    + intros ->. destruct b; [now apply Nb | discriminate].
    + rewrite Lu. unfold BATCH_SIZE in Lb. lia.
Qed.

(** X24.  With services that do not fail and answer one embedding for each
    text, [main] uploads every item once.  The vectors it upserts, batch
    after batch, are those of the items in order: each carries the id and
    the metadata of its item and an embedding that is not [None]; no batch
    is empty or holds more than 32 vectors. *)
Theorem main_uploads_every_item :
  @CacheNotions.one_per_input Emb W create ->
  reliable list_indexes ->
  (forall name, reliable (create_index name)) ->
  (forall vs, reliable (upsert vs)) ->
  forall (nodes : list object) (items : list item) (w : world),
    build_items nodes [] = Ok items ->
    exists w' t,
      main nodes w = (Ok tt, w')
      /\ out w' = out w ++ t
      /\ map (fun v => fst (fst v)) (List.concat (upserts t))
         = map (fun it => fst (fst it)) items
      /\ map (fun v => snd v) (List.concat (upserts t))
         = map (fun it => snd it) items
      /\ Forall (fun v => snd (fst v) <> None) (List.concat (upserts t))
      /\ Forall (fun u => u <> [] /\ List.length u <= 32) (upserts t).
Proof.
  intros answers lists creates upserts_ok nodes items w H.
  unfold Uploader.main. rewrite H.
  unfold bind at 1, of_outcome at 1.
  unfold bind at 1, print at 1, emit at 1. cbn [embedder pinecone out].
  set (w1 := World (embedder w) (pinecone w) (out w ++ [Printed Emb _])).
  unfold bind at 1.
  destruct (create_index_total lists creates w1) as [w2 [t2 [C [O2 U2]]]].
  rewrite C.
  destruct (chunked_tiles items BATCH_SIZE) as [K [Cc Fc]];
    [reflexivity |].
  cbv zeta in K, Cc, Fc. rewrite K.
  set (cs := map _ (Seq.range_up _ _ _ BATCH_SIZE)) in *.
  unfold bind at 1, of_outcome at 1. unfold bind at 1.
  destruct (upload_batches_total answers upserts_ok cs w2)
    as [w3 [t3 [B [O3 G]]]].
  { eapply Forall_impl; [| exact Fc]. cbv beta. now intros c [N _]. }
  rewrite B. unfold print, emit.
  eexists. eexists. split; [reflexivity |]. cbn [out].
  split.
  { rewrite O3, O2. unfold w1. cbn [out]. rewrite <- !app_assoc.
    reflexivity. }
  assert (Us : upserts ([Printed Emb (lit "Preparing to upsert "
                                  ++ str_of_int
                                       (Z.of_nat (List.length items))
                                  ++ lit " items to Pinecone...")]
                        ++ t2 ++ t3
                        ++ [Printed Emb
                              (lit "All items uploaded successfully.")])
               = upserts t3).
  { unfold upserts. rewrite !flat_map_app. fold (upserts t2).
    rewrite U2. cbn [flat_map app]. now rewrite app_nil_r. }
  rewrite Us. clear Us.
  destruct (upserted_batches cs (upserts t3) G Fc) as [I [M [N L]]].
  rewrite Cc in I, M. repeat split; assumption.
Qed.

End UploadRun.

Lemma main_needs_ids_witness :
  Uploader.main Samples3.lengths Samples3.strokes Samples3.count
    Samples4.no_indexes Samples4.make_index Samples4.accept
    (lit "vietnam-travel")
    ([Samples4.hue] ++ Samples4.anonymous :: [Samples4.hue])
    Samples4.start
  = (Cli.Raise (lit "KeyError: 'id'"), Samples4.start).
Proof.
  apply (main_needs_ids nat unit unit Samples3.lengths Samples3.strokes
           Samples3.count Samples4.no_indexes Samples4.make_index
           Samples4.accept (lit "vietnam-travel")
           [Samples4.hue] [Samples4.hue] Samples4.anonymous
           (lit "A hidden valley.")
           [(Json.Str (lit "city_hue"),
             lit "Imperial city on the Perfume River.",
             Uploader.meta_of Samples4.hue)]).
  - vm_compute. reflexivity.
  - reflexivity.
  - discriminate.
  - reflexivity.
Defined.

Lemma samples_reliable :
  UploadNotions.reliable Samples4.no_indexes
  /\ (forall name, UploadNotions.reliable (Samples4.make_index name))
  /\ (forall vs, UploadNotions.reliable (Samples4.accept vs)).
Proof.
  repeat split; intros; intros p; eexists; eexists; reflexivity.
Qed.

Lemma main_uploads_every_item_witness :
  let items := [(Json.Str (lit "city_hue"),
                 lit "Imperial city on the Perfume River.",
                 Uploader.meta_of Samples4.hue)] in
  exists w' t,
    Uploader.main Samples3.lengths Samples3.strokes Samples3.count
      Samples4.no_indexes Samples4.make_index Samples4.accept
      (lit "vietnam-travel") [Samples4.hidden; Samples4.hue] Samples4.start
    = (Cli.Ok tt, w')
    /\ Uploader.out w' = Uploader.out Samples4.start ++ t
    /\ map (fun v => fst (fst v)) (List.concat (UploadNotions.upserts t))
       = map (fun it => fst (fst it)) items
    /\ map (fun v => snd v) (List.concat (UploadNotions.upserts t))
       = map (fun it => snd it) items
    /\ Forall (fun v => snd (fst v) <> None)
              (List.concat (UploadNotions.upserts t))
    /\ Forall (fun u => u <> [] /\ List.length u <= 32)
              (UploadNotions.upserts t).
Proof.
  apply (main_uploads_every_item nat unit unit Samples3.lengths
           Samples3.strokes Samples3.count Samples4.no_indexes
           Samples4.make_index Samples4.accept (lit "vietnam-travel")
           lengths_one_per_input (proj1 samples_reliable)
           (proj1 (proj2 samples_reliable))
           (proj2 (proj2 samples_reliable))
           [Samples4.hidden; Samples4.hue]).
  vm_compute. reflexivity.
Defined.

(** ** The load into the graph database *)

Section Load.
Import Cli Json Loader LoadNotions.
Variable G : Type.
Variable run : str -> object -> G -> outcome unit * G.
Variable str_of_value : value -> str.

Local Abbreviation main := (@Loader.main G run str_of_value).
Local Abbreviation upsert_all := (@Loader.upsert_all G run).
Local Abbreviation upsert_node := (@Loader.upsert_node G run).
Local Abbreviation relate_all := (@Loader.relate_all G run str_of_value).
Local Abbreviation relate := (@Loader.relate G run str_of_value).
Local Abbreviation create_relationship :=
  (@Loader.create_relationship G run str_of_value).
Local Abbreviation world := (Loader.world G).

Lemma upsert_node_ok (node : object) (w w' : world) :
  upsert_node node w = (Ok tt, w') ->
  exists q, log w' = log w ++ [q] /\ merges node q.
Proof.
  unfold Loader.upsert_node, merges. unfold bind at 1, of_outcome at 1.
  destruct (label_cypher node) as [label | e]; [| discriminate].
  unfold bind at 1, of_outcome at 1. unfold index.
  destruct (dict_get (lit "id") node) as [i |]; [| discriminate].
  unfold session_run.
  destruct (run _ _ (graph w)) as [[[] | e] g]; [| discriminate].
  intros H. injection H as <-. cbn [log].
  eexists. split; [reflexivity |]. now exists label, i.
Qed.

Lemma upsert_all_ok (nodes : list object) :
  forall w w' : world,
    upsert_all nodes w = (Ok tt, w') ->
    exists merged, log w' = log w ++ merged /\ Forall2 merges nodes merged.
Proof.
  induction nodes as [|node rest IH]; intros w w' H.
  - cbn [Loader.upsert_all] in H. unfold ret in H. injection H as <-.
    exists []. split; [now rewrite app_nil_r | constructor].
  - cbn [Loader.upsert_all] in H. unfold bind at 1 in H.
    destruct (upsert_node node w) as [[[] | e] w1] eqn:U; [| discriminate].
    destruct (upsert_node_ok node w w1 U) as [q [L1 Mq]].
    destruct (IH w1 w' H) as [merged [L2 F]].
    exists (q :: merged). split; [now rewrite L2, L1, <- app_assoc |].
    now constructor.
Qed.

Lemma create_relationship_ok (all : list object) (node : object)
      (i rel : value) (w w' : world) :
  In node all ->
  dict_get (lit "id") node = Some i ->
  create_relationship i rel w = (Ok tt, w') ->
  exists related, log w' = log w ++ related
                  /\ Forall (relates all) related.
Proof.
  intros Hin Hi. unfold Loader.create_relationship.
  destruct rel as [| | | | | d]; try discriminate. cbv zeta.
  destruct (truthy (get (lit "target") d)) eqn:T; cbn [negb].
  - unfold session_run.
    destruct (run _ _ (graph w)) as [[[] | e] g]; [| discriminate].
    intros H. injection H as <-. cbn [log].
    eexists. split; [reflexivity |]. constructor; [| constructor].
    exists node, i, (get (lit "target") d). eexists.
    split; [exact Hin |]. split; [exact Hi |]. split; [exact T |].
    reflexivity.
  - unfold ret. intros H. injection H as <-.
    exists []. split; [now rewrite app_nil_r | constructor].
Qed.

Lemma relate_ok (all : list object) (node : object) (conns : list value) :
  In node all ->
  forall w w' : world,
    relate node conns w = (Ok tt, w') ->
    exists related, log w' = log w ++ related
                    /\ Forall (relates all) related.
Proof.
  intros Hin. induction conns as [|rel rest IH]; intros w w' H.
  - cbn [Loader.relate] in H. unfold ret in H. injection H as <-.
    exists []. split; [now rewrite app_nil_r | constructor].
  - cbn [Loader.relate] in H. unfold bind at 1, of_outcome at 1 in H.
    unfold index in H.
    destruct (dict_get (lit "id") node) as [i |] eqn:Hi; [| discriminate].
    unfold bind at 1 in H.
    destruct (create_relationship i rel w) as [[[] | e] w1] eqn:C;
      [| discriminate].
    destruct (create_relationship_ok all node i rel w w1 Hin Hi C)
      as [r1 [L1 F1]].
    destruct (IH w1 w' H) as [r2 [L2 F2]].
    exists (r1 ++ r2). split; [now rewrite L2, L1, <- app_assoc |].
    apply Forall_app. now split.
Qed.

Lemma relate_all_ok (all nodes : list object) :
  incl nodes all ->
  forall w w' : world,
    relate_all nodes w = (Ok tt, w') ->
    exists related, log w' = log w ++ related
                    /\ Forall (relates all) related.
Proof.
  induction nodes as [|node rest IH]; intros Hin w w' H.
  - cbn [Loader.relate_all] in H. unfold ret in H. injection H as <-.
    exists []. split; [now rewrite app_nil_r | constructor].
  - cbn [Loader.relate_all] in H. unfold bind at 1, of_outcome at 1 in H.
    destruct (iterate _) as [conns | e]; [| discriminate].
    unfold bind at 1 in H.
    destruct (relate node conns w) as [[[] | e] w1] eqn:R; [| discriminate].
    destruct (relate_ok all node conns (Hin node (or_introl eq_refl))
                w w1 R) as [r1 [L1 F1]].
    destruct (IH (fun x Hx => Hin x (or_intror Hx)) w1 w' H)
      as [r2 [L2 F2]].
    exists (r1 ++ r2). split; [now rewrite L2, L1, <- app_assoc |].
    apply Forall_app. now split.
Qed.

(** X25.  The load merges every node before it creates any relationship.  When
    [main] ends well, the queries it ran are, in this order: the
    uniqueness constraint; for each node of the dataset, in order, one
    [MERGE] of that node under its id, with its type and ["Entity"] as
    labels and all its fields but the connections as properties; then
    the relationships, each from the id of a node of the dataset to a
    target that is not falsy: a connection without a target runs no
    query. *)
Theorem main_merges_nodes_first :
  forall (nodes : list object) (w : world),
    fst (main nodes w) = Ok tt ->
    exists merged related : list event,
      log (snd (main nodes w))
      = log w ++ Ran constraint_query [] :: merged ++ related
          ++ [Printed (lit "Done loading into Neo4j.")]
      /\ Forall2 merges nodes merged
      /\ Forall (relates nodes) related.
Proof.
  intros nodes w.
  destruct (main nodes w) as [o w3] eqn:E. cbn [fst snd]. intros ->.
  unfold Loader.main in E.
  unfold bind at 1, create_constraints at 1, session_run at 1 in E.
  destruct (run constraint_query [] (graph w)) as [[[] | e] g];
    [| discriminate].
  set (w0 := World g (log w ++ [Ran constraint_query []])) in E.
  unfold bind at 1 in E.
  destruct (upsert_all nodes w0) as [[[] | e] w1] eqn:U; [| discriminate].
  unfold bind at 1 in E.
  destruct (relate_all nodes w1) as [[[] | e] w2] eqn:R; [| discriminate].
  unfold print in E. injection E as <-. cbn [log].
  destruct (upsert_all_ok nodes w0 w1 U) as [merged [L1 F1]].
  destruct (relate_all_ok nodes nodes (incl_refl _) w1 w2 R)
    as [related [L2 F2]].
  exists merged, related. split; [| now split].
  rewrite L2, L1. unfold w0. cbn [log]. now rewrite <- !app_assoc.
Qed.

End Load.

Lemma main_merges_nodes_first_witness :
  let nodes := [Samples5.hanoi; Samples5.hue] in
  let r := Loader.main Samples5.accept Samples5.show nodes
             (Loader.World tt []) in
  exists merged related : list Loader.event,
    Loader.log (snd r)
    = [] ++ Loader.Ran Loader.constraint_query [] :: merged ++ related
        ++ [Loader.Printed (lit "Done loading into Neo4j.")]
    /\ Forall2 LoadNotions.merges nodes merged
    /\ Forall (LoadNotions.relates nodes) related.
Proof.
  apply (main_merges_nodes_first unit Samples5.accept Samples5.show
           [Samples5.hanoi; Samples5.hue] (Loader.World tt [])).
  vm_compute. reflexivity.
Defined.

(** ** The vector search *)

Section Query.
Import Cli EmbedSync CacheNotions VectorSearch.
Variables Emb W P Hit : Type.
Variable create : str -> list str -> W -> outcome (list Emb) * W.
Variable json_dump : Emb -> str.
Variable json_load : str -> option Emb.
Variable query : Emb -> nat -> P -> outcome (option (list Hit)) * P.

Local Abbreviation query_pinecone :=
  (@VectorSearch.query_pinecone Emb W P Hit create json_dump json_load
                                query).
Local Abbreviation cached := (@CacheNotions.cached Emb json_load).
Local Abbreviation world := (VectorSearch.world Emb W P).

Lemma query_pinecone_run (query_text : str) (top_k : nat) (w : world)
      (e : Emb) (s' : env W) :
  EmbedSync.embed_text create json_dump json_load query_text
    (lit "text-embedding-3-small") true (embedder w) = (Ok e, s') ->
  query_pinecone query_text top_k w
  = (match fst (query e top_k (index w)) with
     | Ok (Some matches) => Ok matches
     | Ok None => Ok []
     | Raise x => Raise x
     end,
     World s' (snd (query e top_k (index w)))
           (queried w ++ [(e, top_k)])).
Proof.
  intros E. unfold VectorSearch.query_pinecone.
  unfold bind at 1, embedding at 1. rewrite E.
  unfold bind at 1, index_query at 1. cbn [embedder index queried].
  destruct (query e top_k (index w)) as [[[matches |] | x] p];
    reflexivity.
Qed.

(** X26.  A question is embedded once.  When [query_pinecone] is asked for a
    text that the cache does not hold, it sends the text to the endpoint
    under the model ["text-embedding-3-small"], queries the index with the
    first embedding of the answer, and returns the matches of the
    response, or the empty list when the response has none.  Asked for the
    same text again, with any [top_k], it sends nothing to the endpoint
    and queries the index with the same embedding, as long as a saved
    embedding reads back as it was written. *)
Theorem query_pinecone_embeds_once :
  @round_trip Emb json_dump json_load ->
  forall (query_text : str) (top_k : nat) (w : world)
         (e : Emb) (data : list Emb) (c : W),
    let model := lit "text-embedding-3-small" in
    cached (files (embedder w)) model query_text = None ->
    create model [query_text] (client (embedder w)) = (Ok (e :: data), c) ->
    let r1 := query_pinecone query_text top_k w in
    fst r1 = match fst (query e top_k (index w)) with
             | Ok (Some matches) => Ok matches
             | Ok None => Ok []
             | Raise x => Raise x
             end
    /\ requests (embedder (snd r1))
       = requests (embedder w) ++ [(model, [query_text])]
    /\ queried (snd r1) = queried w ++ [(e, top_k)]
    /\ forall top_k' : nat,
         let r2 := query_pinecone query_text top_k' (snd r1) in
         requests (embedder (snd r2)) = requests (embedder (snd r1))
         /\ queried (snd r2) = queried (snd r1) ++ [(e, top_k')].
Proof.
  intros RT query_text top_k w e data c model H C r1. subst r1.
  rewrite (query_pinecone_run query_text top_k w e _
             (embed_text_miss Emb W create json_dump json_load
                query_text model (embedder w) e data c H C)).
  cbn [fst snd embedder queried requests].
  split; [reflexivity |]. split; [reflexivity |]. split; [reflexivity |].
  intros top_k'.
  set (s1 := Env _ c _).
  rewrite (query_pinecone_run query_text top_k' _ e s1).
  - cbn [fst snd embedder queried requests]. split; reflexivity.
  - cbn [embedder]. apply embed_text_hit. unfold s1. cbn [files].
    now apply cached_after_save.
Qed.

End Query.

Lemma query_pinecone_embeds_once_witness :
  let w := VectorSearch.World Samples3.fresh tt [] in
  let model := lit "text-embedding-3-small" in
  let r1 := VectorSearch.query_pinecone Samples3.lengths Samples3.strokes
              Samples3.count Samples5.hits (lit "Hue") 10 w in
  fst r1 = match fst (Samples5.hits 3 10 tt) with
           | Cli.Ok (Some matches) => Cli.Ok matches
           | Cli.Ok None => Cli.Ok []
           | Cli.Raise x => Cli.Raise x
           end
  /\ EmbedSync.requests (VectorSearch.embedder (snd r1))
     = [] ++ [(model, [lit "Hue"])]
  /\ VectorSearch.queried (snd r1) = [] ++ [(3, 10)]
  /\ forall top_k' : nat,
       let r2 := VectorSearch.query_pinecone Samples3.lengths
                   Samples3.strokes Samples3.count Samples5.hits
                   (lit "Hue") top_k' (snd r1) in
       EmbedSync.requests (VectorSearch.embedder (snd r2))
       = EmbedSync.requests (VectorSearch.embedder (snd r1))
       /\ VectorSearch.queried (snd r2)
          = VectorSearch.queried (snd r1) ++ [(3, top_k')].
Proof.
  apply (query_pinecone_embeds_once nat unit unit str Samples3.lengths
           Samples3.strokes Samples3.count Samples5.hits
           strokes_round_trip (lit "Hue") 10
           (VectorSearch.World Samples3.fresh tt []) 3 [] tt
           eq_refl eq_refl).
Defined.

(** ** The ranking of the matches: ties *)

Section Ties.
Import SummaryNotions.
Context {Score : Type} {SO : ScoreOps Score}.
Hypothesis leb_trans :
  forall a b c : Score,
    score_leb a b = true -> score_leb b c = true -> score_leb a c = true.

Lemma insert_desc_ties (v : Score) (x : Match Score)
      (l : list (Match Score)) :
  filter (scores_as v) (insert_desc x l) = filter (scores_as v) (x :: l).
Proof.
  induction l as [|y l IH]; [reflexivity |].
  cbn [insert_desc].
  destruct (score_leb (score_of y) (score_of x)) eqn:E; [reflexivity |].
  cbn [filter] in *. rewrite IH.
  destruct (scores_as v x) eqn:Px, (scores_as v y) eqn:Py; try reflexivity.
  exfalso. unfold scores_as in Px, Py.
  apply andb_prop in Px as [_ Px]. apply andb_prop in Py as [Py _].
  rewrite (leb_trans _ _ _ Py Px) in E. discriminate.
Qed.


End Ties.


(** ** The session: every question is answered *)

Section Answered.
Import Cli SessionNotions.
Context {Score : Type} {SO : ScoreOps Score}.
Variable str_of_dict : dict str -> str.
Variable W : Type.
Variable query_pinecone :
  str -> nat -> W -> outcome (list (Match Score)) * W.
Variable session_run : list str -> W -> outcome (list Graph.Row) * W.
Variable chat_completion : list Turn -> Z -> W -> outcome str * W.

Local Abbreviation chat_turn :=
  (chat_turn str_of_dict query_pinecone session_run chat_completion).
Local Abbreviation chat_loop :=
  (chat_loop str_of_dict query_pinecone session_run chat_completion).
Local Abbreviation interactive_chat :=
  (interactive_chat str_of_dict query_pinecone session_run chat_completion).
Local Abbreviation answer_turn :=
  (Turn.answer_turn str_of_dict chat_completion).

Lemma answers_app (t1 t2 : list event) :
  answers (t1 ++ t2) = answers t1 + answers t2.
Proof. unfold answers. now rewrite filter_app, length_app. Qed.

Lemma ids_of_total (ms : list (Match Score)) :
  Forall (fun m => m_id m <> None) ms -> exists ids, ids_of ms = Ok ids.
Proof.
  induction 1 as [|m ms Hm _ [ids IH]]; [now exists [] |].
  cbn [ids_of]. destruct (m_id m) as [i |]; [| congruence].
  rewrite IH. now eexists.
Qed.

(** A sanitized answer is never taken for the header: it does not begin
    with a line feed. *)
Lemma sanitized_not_header (x : str) :
  Py.eqb (sanitize_answer x) header = false.
Proof.
  destruct (Py.eqb (sanitize_answer x) header) eqn:E; [| reflexivity].
  apply eqb_iff in E. exfalso.
  assert (S : Spec.stops is_space (sanitize_answer x)).
  { rewrite sanitize_answer_steps. unfold Spec.finish, strip.
    apply rstrip_stops, lstrip_stops. }
  rewrite E in S. discriminate S.
Qed.

Lemma answer_block_answers (a : str) (ms : list (Match Score))
      (gf : list GraphFact) :
  answers (Turn.answer_block a ms gf) = 1.
Proof.
  unfold answers, Turn.answer_block. cbn [filter is_header].
  fold header. rewrite eqb_refl, sanitized_not_header. reflexivity.
Qed.

Section Reliable.
Hypothesis finds_ok : finds query_pinecone.
Hypothesis completes_ok : completes chat_completion.

Lemma answer_turn_answers (query : str) (preferences : dict str)
      (ms : list (Match Score)) (gf : list GraphFact) (c : W)
      (inp : list str) (t : list event) :
  exists c' t',
    answer_turn query preferences ms gf c inp t
    = (Ok tt, World c' inp (t ++ t'))
    /\ answers t' = 1.
Proof.
  unfold Turn.answer_turn.
  set (prompt := build_prompt str_of_dict query ms gf (Some preferences)).
  destruct (completes_ok prompt 1100%Z c) as [a1 [c1 C1]]. rewrite C1.
  destruct (Py.eqb (validate_response a1 _) (lit "Valid")).
  - exists c1, (Completion prompt 1100 :: Turn.answer_block a1 ms gf).
    split; [now rewrite <- app_assoc |].
    change (Completion prompt 1100 :: Turn.answer_block a1 ms gf)
      with ([Completion prompt 1100] ++ Turn.answer_block a1 ms gf).
    rewrite answers_app, answer_block_answers. reflexivity.
  - destruct (completes_ok (prompt ++ followup) 1200%Z c1)
      as [a2 [c2 C2]]. rewrite C2.
    exists c2, ([Completion prompt 1100;
                 Completion (prompt ++ followup) 1200]
                ++ Turn.answer_block a2 ms gf).
    split; [now rewrite <- !app_assoc |].
    rewrite answers_app, answer_block_answers. reflexivity.
Qed.

Lemma warning_not_header (e : str) :
  Py.eqb (Turn.warning e) header = false.
Proof. reflexivity. Qed.

Lemma chat_turn_answers (query : str) (preferences : dict str)
      (w : world W) :
  exists c' t',
    chat_turn query preferences w
    = (Ok tt, World c' (stdin w) (trace w ++ t'))
    /\ answers t' = 1.
Proof.
  rewrite chat_turn_run.
  destruct (finds_ok query 10 (collab w)) as [ms [c1 [Q F]]]. rewrite Q.
  destruct (ids_of_total ms F) as [ids I]. rewrite I.
  destruct (session_run ids c1) as [[recs | e] c2].
  - apply answer_turn_answers.
  - destruct (answer_turn_answers query preferences ms [] c2 (stdin w)
                (trace w ++ [Printed (Turn.warning e)]))
      as [c' [t' [A N]]].
    exists c', (Printed (Turn.warning e) :: t'). split.
    + rewrite A. now rewrite <- app_assoc.
    + change (Printed (Turn.warning e) :: t')
        with ([Printed (Turn.warning e)] ++ t').
      rewrite answers_app, N. unfold answers. cbn [filter is_header].
      now rewrite warning_not_header.
Qed.

Lemma chat_loop_answers (preferences : dict str) (qs : list str)
      (line : str) (rest : list str) :
  Forall (fun q => is_exit (strip q) = false) qs ->
  is_exit (strip line) = true ->
  forall (fuel : nat) (w : world W),
    stdin w = qs ++ line :: rest ->
    List.length qs < fuel ->
    exists c' t',
      chat_loop fuel preferences w
      = (Ok tt, World c' rest (trace w ++ t'))
      /\ answers t' = List.length qs.
Proof.
  intros F X. induction F as [|q qs Hq _ IH]; intros fuel w E L.
  - destruct fuel as [|fuel]; [inversion L |]. cbn [app] in E.
    rewrite (chat_loop_step _ _ _ _ _ fuel preferences w line rest E).
    cbv zeta. rewrite X. eexists. eexists. split; reflexivity.
  - destruct fuel as [|fuel]; [inversion L |]. cbn [app] in E.
    rewrite (chat_loop_step _ _ _ _ _ fuel preferences w q
               (qs ++ line :: rest) E).
    cbv zeta. rewrite Hq.
    set (w1 := World (collab w) (qs ++ line :: rest)
                     (trace w ++ [Printed Turn.question_prompt])).
    destruct (chat_turn_answers (strip q) preferences w1)
      as [c1 [t1 [T N1]]].
    rewrite T. cbn [stdin w1 trace].
    destruct (IH fuel (World c1 (qs ++ line :: rest)
                             ((trace w ++ [Printed Turn.question_prompt])
                              ++ t1)))
      as [c2 [t2 [K N2]]]; [reflexivity | cbn [List.length] in L; lia |].
    rewrite K. cbn [trace].
    exists c2, ([Printed Turn.question_prompt] ++ t1 ++ t2).
    split; [now rewrite <- !app_assoc |].
    rewrite !answers_app, N1, N2. reflexivity.
Qed.

End Reliable.

(** X28.  With a vector search that always returns matches with ids and a
    completion endpoint that always answers, every question is answered.
    For an input of the budget, the interests, some questions and an exit
    line, [interactive_chat] returns, leaves what follows the exit line
    unread, and prints exactly as many answers as there were questions,
    whether or not the graph query fails. *)
Theorem interactive_chat_answers_every_question :
  finds query_pinecone ->
  completes chat_completion ->
  forall (w : world W) (b i : str) (qs : list str) (line : str)
         (rest : list str),
    stdin w = b :: i :: qs ++ line :: rest ->
    Forall (fun q => is_exit (strip q) = false) qs ->
    is_exit (strip line) = true ->
    exists c' t',
      interactive_chat w = (Ok tt, World c' rest (trace w ++ t'))
      /\ answers t' = List.length qs.
Proof.
  intros finds_ok completes_ok w b i qs line rest E F X.
  rewrite (interactive_chat_run _ _ _ _ _ w b i _ E).
  destruct (chat_loop_answers finds_ok completes_ok
              (Turn.preferences_of b i) qs line rest F X
              (S (List.length (qs ++ line :: rest)))
              (World (collab w) (qs ++ line :: rest)
                     (trace w ++ Turn.opening)))
    as [c' [t' [K N]]]; [reflexivity | |].
  { rewrite length_app. cbn [List.length]. lia. }
  rewrite K. cbn [trace]. exists c', (Turn.opening ++ t').
  split; [now rewrite <- app_assoc |].
  rewrite answers_app, N. reflexivity.
Qed.

End Answered.

Lemma interactive_chat_answers_every_question_witness :
  let w := Cli.World tt [lit "low"; lit "beach"; lit "Plan a trip";
                         lit "And another"; lit "quit"; lit "unread"] [] in
  exists c' t',
    Cli.interactive_chat Script.braces Samples2.one_match
      Samples2.graph_down Samples2.cited w
    = (Cli.Ok tt, Cli.World c' [lit "unread"] ([] ++ t'))
    /\ SessionNotions.answers t'
       = List.length [lit "Plan a trip"; lit "And another"].
Proof.
  refine (interactive_chat_answers_every_question Script.braces unit
            Samples2.one_match Samples2.graph_down Samples2.cited _ _
            (Cli.World tt [lit "low"; lit "beach"; lit "Plan a trip";
                           lit "And another"; lit "quit"; lit "unread"] [])
            (lit "low") (lit "beach") [lit "Plan a trip"; lit "And another"]
            (lit "quit") [lit "unread"] eq_refl _ eq_refl).
  - intros q k c. exists [Samples2.hue], c. split; [reflexivity |].
    repeat constructor. discriminate.
  - intros p n c. eexists. exists c. reflexivity.
  - repeat constructor.
Defined.
